(** * ufgbatch: the batch conversion and regression-test scripts

    A shallow embedding of the Python modules under [tools/ufgbatch]
    ([ufgcommon/util.py], [ufgcommon/process.py], [ufgcommon/task.py],
    [ufgcommon/diff.py] and the tail of [ufgtest.py]), followed by the
    properties established about them.

    Python integers are unbounded, so they are embedded as [Z]; text is
    embedded as [string]; dictionaries keyed by text as [gmap string];
    objects that are mutated through references live in an explicit store. *)

From Stdlib Require Import ZArith String Ascii List Lia Bool.
From Stdlib Require Import DecimalString DecimalZ DecimalPos.
From stdpp Require Import gmap strings list fin_maps.

Local Open Scope string_scope.
Local Open Scope list_scope.
Local Open Scope Z_scope.

(* ===================================================================== *)
(** * Definitions                                                         *)
(* ===================================================================== *)

(** ** Python values *)

(** Truth value of an integer: [bool(n)] is [n != 0]. *)
Definition truthy (n : Z) : bool := negb (n =? 0).

(** [a or b] on integers: the first operand when it is true, else the second. *)
Definition py_or (a b : Z) : Z := if truthy a then a else b.

(** Truth value of a list: true when it is not empty. *)
Definition list_truthy {A : Type} (l : list A) : bool :=
  match l with [] => false | _ :: _ => true end.

(** ** Text

    A text is a [string] whose characters are code points below 256. *)

Definition LF : ascii := "010"%char.
Definition VT : ascii := "011"%char.
Definition FF : ascii := "012"%char.
Definition CR : ascii := "013"%char.
Definition TAB : ascii := "009"%char.
Definition ESC : ascii := "027"%char.
Definition DQUOTE : ascii := "034"%char.

Definition char_code (c : ascii) : nat := nat_of_ascii c.

Definition char_in_range (lo hi c : ascii) : bool :=
  ((char_code lo <=? char_code c) && (char_code c <=? char_code hi))%nat.

Definition char_eqb (a b : ascii) : bool := Ascii.eqb a b.

Definition is_upper (c : ascii) : bool := char_in_range "A" "Z" c.
Definition is_digit (c : ascii) : bool := char_in_range "0" "9" c.

(** [str.lower()] on one character: the letters A-Z, and the capital letters
    of the Latin-1 range (192-222 but 215), move up by 32. *)
Definition lower_char (c : ascii) : ascii :=
  if is_upper c
     || (char_in_range "192" "222" c && negb (char_eqb c "215"))
  then ascii_of_nat (char_code c + 32) else c.

Fixpoint lower (s : string) : string :=
  match s with
  | EmptyString => EmptyString
  | String c s' => String (lower_char c) (lower s')
  end.

(** [sub in s]. *)
Fixpoint contains (sub s : string) : bool :=
  String.prefix sub s
  || match s with
     | EmptyString => false
     | String _ s' => contains sub s'
     end.

(** [' ' in s] and the like. *)
Fixpoint contains_char (c : ascii) (s : string) : bool :=
  match s with
  | EmptyString => false
  | String d s' => char_eqb c d || contains_char c s'
  end.

(** [s.replace(old, new)]: occurrences of [old] are replaced from left to
    right without overlap; [skip] counts the characters of a replaced
    occurrence still to be dropped. *)
Fixpoint replace_from (old new : string) (skip : nat) (s : string) : string :=
  match s with
  | EmptyString => EmptyString
  | String c s' =>
      match skip with
      | S k => replace_from old new k s'
      | O =>
          if String.prefix old s
          then new +:+ replace_from old new (String.length old - 1) s'
          else String c (replace_from old new 0 s')
      end
  end.

(** With an empty [old], Python inserts [new] before every character and at
    the end. *)
Fixpoint intersperse_all (new s : string) : string :=
  match s with
  | EmptyString => new
  | String c s' => new +:+ String c (intersperse_all new s')
  end.

Definition replace (old new s : string) : string :=
  match old with
  | EmptyString => intersperse_all new s
  | String _ _ => replace_from old new 0 s
  end.

(** [s.rstrip(chars)], with the set of characters given as a predicate. *)
Fixpoint rstrip (p : ascii -> bool) (s : string) : string :=
  match s with
  | EmptyString => EmptyString
  | String c s' =>
      match rstrip p s' with
      | EmptyString => if p c then EmptyString else String c EmptyString
      | r => String c r
      end
  end.

(** The characters at which [str.splitlines] ends a line (the pair CR LF
    counts as one boundary). *)
Definition is_linebreak (c : ascii) : bool :=
  char_in_range LF CR c || char_in_range "028" "030" c || char_eqb c "133".

(** [s.splitlines(keepends)]; [cur] is the line being read. *)
Fixpoint splitlines_from (keepends : bool) (cur s : string) : list string :=
  match s with
  | EmptyString =>
      match cur with EmptyString => [] | _ => [cur] end
  | String c s' =>
      if char_eqb c CR then
        match s' with
        | String c2 s'' =>
            if char_eqb c2 LF
            then (cur +:+ (if keepends then String CR (String LF EmptyString)
                           else EmptyString))
                 :: splitlines_from keepends EmptyString s''
            else (cur +:+ (if keepends then String CR EmptyString
                           else EmptyString))
                 :: splitlines_from keepends EmptyString s'
        | EmptyString =>
            [cur +:+ (if keepends then String CR EmptyString else EmptyString)]
        end
      else if is_linebreak c then
        (cur +:+ (if keepends then String c EmptyString else EmptyString))
        :: splitlines_from keepends EmptyString s'
      else splitlines_from keepends (cur +:+ String c EmptyString) s'
  end.

Definition splitlines (keepends : bool) (s : string) : list string :=
  splitlines_from keepends EmptyString s.

(** [s[i:j]] for indices within range. *)
Definition slice (i j : nat) (s : string) : string := substring i (j - i) s.

(** [s[-n:]]: the last [n] characters, the whole text when it is shorter. *)
Definition last_chars (n : nat) (s : string) : string :=
  substring (String.length s - n) n s.

(** [''.join(l)]. *)
Definition concat_strings (l : list string) : string :=
  fold_right String.append EmptyString l.

(** ** Number formatting *)

(** ['%s' % n] for an integer [n]: decimal digits, with a sign when negative. *)
Definition str_of_int (n : Z) : string := NilZero.string_of_int (Z.to_int n).

Definition hex_digit_upper (d : Z) : ascii :=
  if d <? 10 then ascii_of_nat (Z.to_nat d + 48)
  else ascii_of_nat (Z.to_nat d + 55).

(** The upper-case hexadecimal digits of [n >= 0], most significant first,
    put in front of [acc]. *)
Fixpoint hex_digits_upper (fuel : nat) (n : Z) (acc : string) : string :=
  match fuel with
  | O => acc
  | S fuel' =>
      let acc' := String (hex_digit_upper (n mod 16)) acc in
      if n / 16 =? 0 then acc' else hex_digits_upper fuel' (n / 16) acc'
  end.

(** ['%X' % n]. *)
Definition format_X (n : Z) : string :=
  if n <? 0
  then String "-" (hex_digits_upper (S (Z.to_nat (Z.log2 (- n)))) (- n) EmptyString)
  else hex_digits_upper (S (Z.to_nat (Z.log2 n))) n EmptyString.




(** ** util.py *)

Definition LOG_COLOR_DEFAULT : option string := None.
Definition LOG_COLOR_RED : option string := Some "1;31".
Definition LOG_COLOR_GREEN : option string := Some "1;32".
Definition LOG_COLOR_YELLOW : option string := Some "1;33".
Definition LOG_COLOR_MAGENTA : option string := Some "1;35".
Definition LOG_COLOR_CYAN : option string := Some "1;36".

Definition SEVERITY_UNKNOWN : Z := -1.
Definition SEVERITY_INFO : Z := 0.
Definition SEVERITY_WARN : Z := 1.
Definition SEVERITY_ERROR : Z := 2.
Definition SEVERITY_COUNT : nat := 3.

(** [colorize]: the text wrapped in an ANSI escape sequence. *)
Definition colorize (text : string) (color : option string) : string :=
  match color with
  | None => text
  | Some col =>
      String ESC ("[" +:+ col +:+ "m" +:+ text +:+ String ESC "[0m")
  end.

(** [norm_slashes]: every backslash of the path becomes a slash. *)
Definition norm_slashes (path : string) : string := replace "\" "/" path.

(** [join_path]: a slash is put before each further component unless the
    path built so far ends with one. *)
Fixpoint ends_with_slash (path : string) : bool :=
  match path with
  | EmptyString => false
  | String c EmptyString => char_eqb c "/"
  | String _ path' => ends_with_slash path'
  end.

Definition join_path (path0 : string) (pathv : list string) : string :=
  fold_left
    (fun path p =>
       (if ends_with_slash path then path else path +:+ "/") +:+ p)
    pathv path0.

(** [uhex32]: the low 32 bits of [value] as 8 hexadecimal characters. *)
Definition uhex32 (value : Z) : string :=
  last_chars 8 ("00000000" +:+ format_X (Z.land value 0xffffffff)).

(** *** Regular expressions

    The fragment of Python's [re] that [TAG_REGEX] is written in, with the
    backtracking semantics of [re]: alternatives are tried in order,
    repetitions of a character class are greedy and give characters back one
    at a time, and [search] takes the leftmost start at which a match is
    found.  Positions are offsets from the start of the text. *)

Inductive regex : Type :=
| REps
| RChar (c : ascii)
| RCat (r1 r2 : regex)
| RAlt (r1 r2 : regex)
| RPlus (p : ascii -> bool)
| RStar (p : ascii -> bool)
| RGroup (r : regex)
| RDollar.

(** A span [(start, end)] of the text. *)
Definition span : Type := nat * nat.

(** What remains to be matched: given the capture so far, the position and
    the rest of the text, the end of the whole match and the final capture. *)
Definition rcont : Type := option span -> nat -> string -> option (nat * option span).

(** Greedy repetition of a character class, then [k]. *)
Fixpoint rgreedy (p : ascii -> bool) (k : rcont)
    (g : option span) (pos : nat) (s : string) : option (nat * option span) :=
  match s with
  | String d s' =>
      if p d then
        match rgreedy p k g (S pos) s' with
        | Some m => Some m
        | None => k g pos s
        end
      else k g pos s
  | EmptyString => k g pos s
  end.

Fixpoint rmatch (r : regex) (k : rcont)
    (g : option span) (pos : nat) (s : string) : option (nat * option span) :=
  match r with
  | REps => k g pos s
  | RChar c =>
      match s with
      | String d s' => if char_eqb c d then k g (S pos) s' else None
      | EmptyString => None
      end
  | RCat r1 r2 => rmatch r1 (rmatch r2 k) g pos s
  | RAlt r1 r2 =>
      match rmatch r1 k g pos s with
      | Some m => Some m
      | None => rmatch r2 k g pos s
      end
  | RPlus p =>
      match s with
      | String d s' => if p d then rgreedy p k g (S pos) s' else None
      | EmptyString => None
      end
  | RStar p => rgreedy p k g pos s
  | RGroup r1 => rmatch r1 (fun _ pos' s' => k (Some (pos, pos')) pos' s') g pos s
  | RDollar =>
      (* the end of the text, or just before a newline that ends it *)
      match s with
      | EmptyString => k g pos s
      | String c EmptyString => if char_eqb c LF then k g pos s else None
      | String _ (String _ _) => None
      end
  end.

(** [regex.search(text)]: the span of the leftmost match and its capture. *)
Fixpoint rsearch_from (r : regex) (pos : nat) (s : string)
    : option (span * option span) :=
  match rmatch r (fun g e _ => Some (e, g)) None pos s with
  | Some (e, g) => Some ((pos, e), g)
  | None =>
      match s with
      | EmptyString => None
      | String _ s' => rsearch_from r (S pos) s'
      end
  end.

Definition rsearch (r : regex) (s : string) : option (span * option span) :=
  rsearch_from r 0 s.

(** A literal word. *)
Fixpoint rlit (w : string) : regex :=
  match w with
  | EmptyString => REps
  | String c w' => RCat (RChar c) (rlit w')
  end.

(** The classes [[A-Z0-9]], [[A-Z0-9_]] and [\s] (on text, [\s] is the
    characters for which [str.isspace] holds). *)
Definition is_upper_alnum (c : ascii) : bool := is_upper c || is_digit c.
Definition is_upper_alnum_us (c : ascii) : bool :=
  is_upper_alnum c || char_eqb c "_".
Definition is_space (c : ascii) : bool :=
  char_in_range TAB CR c || char_in_range "028" " " c
  || char_eqb c "133" || char_eqb c "160".

(** The end of the tag pattern, from the underscore after the severity word:
    [_[A-Z0-9_]+\]\s*$]. *)
Definition TAG_REGEX_code : regex :=
  RCat (RChar "_")
 (RCat (RPlus is_upper_alnum_us)
 (RCat (RChar "]")
 (RCat (RStar is_space) RDollar))).

(** The severity words of the tag pattern: [INFO|WARN|ERROR]. *)
Definition TAG_REGEX_word : regex :=
  RAlt (rlit "INFO") (RAlt (rlit "WARN") (rlit "ERROR")).

(** [TAG_REGEX = re.compile(r'\[[A-Z0-9]+_(INFO|WARN|ERROR)_[A-Z0-9_]+\]\s*$')]. *)
Definition TAG_REGEX : regex :=
  RCat (RChar "[")
 (RCat (RPlus is_upper_alnum)
 (RCat (RChar "_")
 (RCat (RGroup TAG_REGEX_word) TAG_REGEX_code))).

(** *** Readings of a match *)

(** Every character of [s] is in the class [p]. *)
Fixpoint all_chars (p : ascii -> bool) (s : string) : bool :=
  match s with
  | EmptyString => true
  | String c s' => p c && all_chars p s'
  end.

(** The texts an expression can consume: [lang r s rest] when [r] can
    consume [s] in front of [rest]. *)
Fixpoint lang (r : regex) (s rest : string) : Prop :=
  match r with
  | REps => s = EmptyString
  | RChar c => s = String c EmptyString
  | RCat r1 r2 =>
      ∃ s1 s2, s = s1 +:+ s2 ∧ lang r1 s1 (s2 +:+ rest) ∧ lang r2 s2 rest
  | RAlt r1 r2 => lang r1 s rest ∨ lang r2 s rest
  | RPlus p => s ≠ EmptyString ∧ all_chars p s = true
  | RStar p => all_chars p s = true
  | RGroup r1 => lang r1 s rest
  | RDollar =>
      s = EmptyString ∧ (rest = EmptyString ∨ rest = String LF EmptyString)
  end.

(** The continuation with which [rsearch_from] starts a match. *)
Definition rdone : rcont := fun g e _ => Some (e, g).

(** A tag as the pattern describes it: category, severity word and code
    between brackets, followed by white space. *)
Definition tag_text (category word code space : string) : string :=
  "[" +:+ category +:+ "_" +:+ word +:+ "_" +:+ code +:+ "]" +:+ space.

(** The severity a severity word stands for. *)
Definition severity_of_word (word : string) : Z :=
  if String.eqb word "ERROR" then SEVERITY_ERROR
  else if String.eqb word "WARN" then SEVERITY_WARN
  else SEVERITY_INFO.

(** The text [t] does not start with a character of the class [p]. *)
Definition stops (p : ascii → bool) (t : string) : Prop :=
  match t with
  | EmptyString => True
  | String c _ => p c = false
  end.

(** The words the pattern knows. *)
Definition severity_word (word : string) : Prop :=
  word = "INFO" ∨ word = "WARN" ∨ word = "ERROR".

(** *** Message tags *)

(** [add_in_dictionary]. *)
Definition add_in_dictionary (d : gmap string Z) (key : string) (value : Z)
    : gmap string Z :=
  match d !! key with
  | Some v => <[key := v + value]> d
  | None => <[key := value]> d
  end.

(** [get_message_tag]: the severity of a line and its tag, if it has one. *)
Definition get_message_tag (line : string) : Z * option string :=
  match rsearch TAG_REGEX line with
  | Some ((b, e), g) =>
      let tag := slice b e line in
      let code := slice 1 (String.length tag - 1) tag in
      let severity :=
        match g with
        | Some (gb, ge) => slice gb ge line
        | None => EmptyString
        end in
      if String.eqb severity "ERROR" then (SEVERITY_ERROR, Some code)
      else if String.eqb severity "WARN" then (SEVERITY_WARN, Some code)
      else (SEVERITY_INFO, Some code)
  | None =>
      let line_lower := lower line in
      if contains "error:" line_lower then (SEVERITY_ERROR, None)
      else if contains "warning:" line_lower then (SEVERITY_WARN, None)
      else (SEVERITY_UNKNOWN, None)
  end.

(** [colorize_process_output]. *)
Definition colorize_process_output (output : string) : string :=
  fold_left
    (fun colorized line =>
       let '(severity, _) := get_message_tag line in
       let color :=
         if severity =? SEVERITY_ERROR then LOG_COLOR_RED
         else if severity =? SEVERITY_WARN then LOG_COLOR_YELLOW
         else LOG_COLOR_DEFAULT in
       colorized +:+ colorize line color)
    (splitlines true output) EmptyString.

(** *** TagTracker *)

(** The two lists of a tracker, each indexed by severity. *)
Record TagTracker : Type := mkTagTracker {
  totals : list Z;
  tag_totals : list (gmap string Z)
}.

(** Python list indexing: a negative index counts from the end. *)
Definition list_index (n : nat) (i : Z) : nat :=
  Z.to_nat (if i <? 0 then Z.of_nat n + i else i).

(** The truth value of an optional text: true when present and not empty. *)
Definition text_truthy (t : option string) : bool :=
  match t with
  | Some (String _ _) => true
  | _ => false
  end.

(** [TagTracker.__init__]. *)
Definition TagTracker_init : TagTracker :=
  {| totals := replicate SEVERITY_COUNT 0;
     tag_totals := replicate SEVERITY_COUNT ∅ |}.

(** [self.totals[i] += n]. *)
Definition add_total (self : TagTracker) (i : nat) (n : Z) : TagTracker :=
  {| totals := <[i := (totals self !!! i) + n]> (totals self);
     tag_totals := tag_totals self |}.

(** [add_in_dictionary(self.tag_totals[i], tag, n)]. *)
Definition add_tag_total (self : TagTracker) (i : nat) (tag : string) (n : Z)
    : TagTracker :=
  {| totals := totals self;
     tag_totals :=
       <[i := add_in_dictionary (tag_totals self !!! i) tag n]> (tag_totals self) |}.

(** [add_from_tracker].  The entries of the other dictionary are visited in
    the order [map_to_list] gives them. *)
Definition add_from_tracker (self tracker : TagTracker) : TagTracker :=
  fold_left
    (fun self severity =>
       let self := add_total self severity (totals tracker !!! severity) in
       fold_left
         (fun self '(tag, plus_total) =>
            add_tag_total self severity tag plus_total)
         (map_to_list (tag_totals tracker !!! severity)) self)
    (seq 0 SEVERITY_COUNT) self.

(** The body of the loop of [add_from_output], for one line. *)
Definition add_from_line (self : TagTracker) (line : string) : TagTracker :=
  let '(severity, tag) := get_message_tag line in
  let self :=
    match tag with
    | Some t =>
        if text_truthy tag
        then add_tag_total self (list_index (length (tag_totals self)) severity) t 1
        else self
    | None => self
    end in
  if negb (severity =? SEVERITY_UNKNOWN)
  then add_total self (list_index (length (totals self)) severity) 1
  else self.

(** [add_from_output]. *)
Definition add_from_output (self : TagTracker) (output : string) : TagTracker :=
  fold_left add_from_line (splitlines false output) self.

(** [TagTracker.from_output]. *)
Definition from_output (output : string) : TagTracker :=
  add_from_output TagTracker_init output.

(** *** Readings of a tracker *)

(** The entrywise sum of two tag dictionaries. *)
Definition dict_add (d m : gmap string Z) : gmap string Z :=
  union_with (fun a b => Some (a + b)) d m.

(** The sum of the counts of a tag dictionary. *)
Definition dict_sum (d : gmap string Z) : Z :=
  foldr Z.add 0 ((map_to_list d).*2).

(** The trackers that can be built: from the empty tracker, by adding the
    tags of an output text or the totals of another such tracker. *)
Inductive reachable : TagTracker -> Prop :=
| reachable_init : reachable TagTracker_init
| reachable_output (t : TagTracker) (output : string) :
    reachable t -> reachable (add_from_output t output)
| reachable_tracker (t t' : TagTracker) :
    reachable t -> reachable t' -> reachable (add_from_tracker t t').

(** A total and the dictionary of tag counts of the same severity agree:
    the total is at least the sum of the counts, none of which is negative. *)
Definition counts_ok (total : Z) (d : gmap string Z) : Prop :=
  dict_sum d <= total ∧ ∀ tag n, d !! tag = Some n → 0 <= n.

(** One entry of another dictionary, added by [add_in_dictionary]. *)
Definition add_entry (d : gmap string Z) (kv : string * Z) : gmap string Z :=
  add_in_dictionary d kv.1 kv.2.


(** A tracker with its three totals and three dictionaries spelled out. *)
Definition tracker3 (a0 a1 a2 : Z) (d0 d1 d2 : gmap string Z) : TagTracker :=
  {| totals := [a0; a1; a2]; tag_totals := [d0; d1; d2] |}.

(** A tracker of the shape [__init__] gives it whose totals and counts agree
    at every severity. *)
Definition tracker_ok (t : TagTracker) : Prop :=
  ∃ a0 a1 a2 d0 d1 d2,
    t = tracker3 a0 a1 a2 d0 d1 d2
    ∧ counts_ok a0 d0 ∧ counts_ok a1 d1 ∧ counts_ok a2 d2.

(** ** Exceptions *)

Inductive exn : Type :=
| IndexError | TypeError | ValueError | IOError | BadZipFile.

(** The outcome of a call that may raise. *)
Inductive outcome (A : Type) : Type :=
| Ret (a : A)
| Raise (e : exn).
Arguments Ret {A} a.
Arguments Raise {A} e.

#[global] Instance outcome_bind : MBind outcome := fun A B f m =>
  match m with
  | Ret a => f a
  | Raise e => Raise e
  end.

(** ** task.py *)

Record Task : Type := mkTask {
  name : string;
  src : string;
  dst : string;
  args : list string;
  csv_index : nat;
  section : option string;
  (* Task completion state. *)
  success : bool;
  command : option string;
  output : option string
}.

(** [Task.__init__]. *)
Definition Task_init (name src dst : string) (args : list string)
    (csv_index : nat) (section : option string) : Task :=
  {| name := name; src := src; dst := dst; args := args;
     csv_index := csv_index; section := section;
     success := false; command := None; output := None |}.

Definition set_success (t : Task) (b : bool) : Task :=
  {| name := name t; src := src t; dst := dst t; args := args t;
     csv_index := csv_index t; section := section t;
     success := b; command := command t; output := output t |}.

Definition set_command (t : Task) (c : string) : Task :=
  {| name := name t; src := src t; dst := dst t; args := args t;
     csv_index := csv_index t; section := section t;
     success := success t; command := Some c; output := output t |}.

Definition set_output (t : Task) (o : string) : Task :=
  {| name := name t; src := src t; dst := dst t; args := args t;
     csv_index := csv_index t; section := section t;
     success := success t; command := command t; output := Some o |}.

(** [Task.format_output]. *)
Definition format_output (self : Task) (in_path out_path : option string)
    : string :=
  match output self with
  | None | Some EmptyString => EmptyString
  | Some output =>
      let output :=
        match in_path with
        | Some (String _ _ as p) => replace p "${IN}" output
        | _ => output
        end in
      let output :=
        match out_path with
        | Some (String _ _ as p) => replace p "${OUT}" output
        | _ => output
        end in
      let output :=
        concat_strings (map (fun line => "    " +:+ line) (splitlines true output)) in
      String LF output
  end.

(** [Task.get_log]; adding text to a command that is still [None] raises. *)
Definition get_log (self : Task) : outcome string :=
  match command self with
  | Some c => Ret (c +:+ format_output self None None)
  | None => Raise TypeError
  end.

(** [Task.get_result]. *)
Definition get_result (self : Task) (in_path out_path : string) : string :=
  let prefix := if success self then "Success" else "FAILURE" in
  let result := prefix +:+ " [" +:+ name self +:+ "] " +:+ src self
                +:+ " --> " +:+ dst self in
  result +:+ format_output self (Some in_path) (Some out_path).

(** ** process.py: choosing the number of worker processes *)

(** [get_process_count]; [cpu_count] stands for the value returned by
    [multiprocessing.cpu_count()]. *)
Definition get_process_count (cpu_count : Z)
    (recommended_count process_max num_tasks : Z) : Z :=
  let process_count := cpu_count in
  let process_count :=
    if 0 <? recommended_count then recommended_count else process_count in
  let process_max :=
    if 0 <? process_max then Z.min process_max num_tasks else num_tasks in
  Z.max (Z.min process_count process_max) 1.

Definition TASK_SECTION_FORMAT (section : string) : string :=
  String LF ("------------------------------------" +:+ String LF ("-- " +:+ section)).

(** ['%s' % section], where [section] may be [None]. *)
Definition str_of_section (section : option string) : string :=
  match section with
  | Some s => s
  | None => "None"
  end.

(** The body of the loop of [get_process_command]: the index of the argument
    and the text built so far. *)
Definition command_step (acc : nat * string) (arg : string) : nat * string :=
  let '(arg_index, cmd) := acc in
  let cmd := if (0 <? arg_index)%nat then cmd +:+ " " else cmd in
  let cmd :=
    if contains_char " " arg
    then cmd +:+ String DQUOTE arg +:+ String DQUOTE EmptyString
    else cmd +:+ arg in
  (S arg_index, cmd).

(** [get_process_command]. *)
Definition get_process_command (cmd_args : list string) : string :=
  snd (fold_left command_step cmd_args (O, EmptyString)).

(** What a finished process hands back: the text decoded from its two
    streams and its exit code. *)
Record completed : Type := mkCompleted {
  cmd_stdout : string;
  cmd_stderr : string;
  returncode : Z
}.

(** [get_process_output], on the decoded streams. *)
Definition get_process_output (cmd_stdout cmd_stderr : string) : string :=
  let text := EmptyString in
  let text :=
    match cmd_stdout with
    | EmptyString => text
    | _ => text +:+ replace (String CR EmptyString) EmptyString cmd_stdout
    end in
  let text :=
    match cmd_stderr with
    | EmptyString => text
    | _ => text +:+ replace (String CR EmptyString) EmptyString cmd_stderr
    end in
  rstrip (fun c => char_eqb c LF || char_eqb c CR) text.

(** The line added to the output of a failed task that reports no error. *)
Definition exit_code_line (code : Z) : string :=
  String LF ("ERROR: Exit code " +:+ str_of_int code
             +:+ " (0x" +:+ uhex32 code +:+ ").").

(** The part of [wait_and_update_task] that updates the task, for a process
    that has finished with [res]. *)
Definition update_task (res : completed) (task : Task) (cmd_args : list string)
    : Task :=
  let code := returncode res in
  let task := if code =? 0 then set_success task true else task in
  let task := set_command task (get_process_command cmd_args) in
  let out := get_process_output (cmd_stdout res) (cmd_stderr res) in
  let task := set_output task out in
  if negb (success task) && negb (contains "error" (lower out))
  then
    (* Failure without error lines likely indicates the process crashed. *)
    let out := out +:+ exit_code_line code in
    let out :=
      if Z.land code 0xffffffff =? 0xc0000005
      then out +:+ " [Access Violation]" else out in
    set_output task out
  else task.

(** The text [wait_and_update_task] echoes once the task is updated. *)
Definition task_log (task : Task) : string :=
  match command task with
  | Some c => c
  | None => EmptyString
  end +:+ colorize_process_output (format_output task None None).

(** *** The scheduler

    Tasks are objects that the scheduler mutates through references: a run
    works on a store of tasks, and the task list and the process slots hold
    references into it.  What the run does to the outside is recorded as a
    trace. *)

Definition ref : Type := nat.

Inductive event : Type :=
| EvMkdirs (path : string)                   (* util.make_directories *)
| EvStatus (msg : string) (color : option string)
| EvPopen (pid : nat) (args : list string)   (* subprocess.Popen *)
| EvPrint (task : ref) (text : string)       (* the echo of a finished task *)
| EvSleep.

(** A process slot: [(process, task, cmd_args)], or [(None, None, None)]. *)
Definition slot : Type := option (nat * ref * list string).

(** The outside world of a run: what the process started by the [pid]-th
    call of [Popen] hands back, and whether it has exited when it is polled,
    as a function of the number of polls made so far in the run. *)
Record world : Type := mkWorld {
  communicate : nat -> completed;
  poll : nat -> nat -> bool
}.

Record sched : Type := mkSched {
  processes : list slot;
  store : ref -> Task;
  trace : list event;
  polls : nat;
  spawned : nat
}.

Definition set_processes (st : sched) (ps : list slot) : sched :=
  {| processes := ps; store := store st; trace := trace st;
     polls := polls st; spawned := spawned st |}.

Definition set_store (st : sched) (r : ref) (t : Task) : sched :=
  {| processes := processes st;
     store := fun r' => if (r' =? r)%nat then t else store st r';
     trace := trace st; polls := polls st; spawned := spawned st |}.

Definition emit (st : sched) (e : event) : sched :=
  {| processes := processes st; store := store st;
     trace := trace st ++ [e]; polls := polls st; spawned := spawned st |}.

Definition count_poll (st : sched) : sched :=
  {| processes := processes st; store := store st; trace := trace st;
     polls := S (polls st); spawned := spawned st |}.

Definition count_spawn (st : sched) : sched :=
  {| processes := processes st; store := store st; trace := trace st;
     polls := polls st; spawned := S (spawned st) |}.

(** [wait_and_update_task(process, task, cmd_args)]. *)
Definition wait_and_update_task (w : world) (sl : slot) (st : sched) : sched :=
  match sl with
  | None => st
  | Some (pid, task, cmd_args) =>
      let t := update_task (communicate w pid) (store st task) cmd_args in
      emit (set_store st task t) (EvPrint task (task_log t))
  end.

(** One pass of the [for] loop of [wait_for_available_process] over the
    slots from index [idx] on: the index of the first slot that is empty or
    whose process has exited, that slot being finalized and cleared. *)
Fixpoint scan_slots (w : world) (rest : list slot) (idx : nat) (st : sched)
    : option nat * sched :=
  match rest with
  | [] => (None, st)
  | sl :: rest' =>
      match sl with
      | None =>
          let st := wait_and_update_task w sl st in
          (Some idx, set_processes st (<[idx := None]> (processes st)))
      | Some (pid, _, _) =>
          let exited := poll w (polls st) pid in
          let st := count_poll st in
          if exited then
            let st := wait_and_update_task w sl st in
            (Some idx, set_processes st (<[idx := None]> (processes st)))
          else scan_slots w rest' (S idx) st
      end
  end.

(** [wait_for_available_process]; [None] when [fuel] passes of the [while]
    loop found no slot. *)
Fixpoint wait_for_available_process (fuel : nat) (w : world) (st : sched)
    : option (nat * sched) :=
  match fuel with
  | O => None
  | S fuel' =>
      match scan_slots w (processes st) 0 st with
      | (Some process_avail, st') => Some (process_avail, st')
      | (None, st') => wait_for_available_process fuel' w (emit st' EvSleep)
      end
  end.

(** [wait_for_all_processes]. *)
Definition wait_for_all_processes (w : world) (st : sched) : sched :=
  fold_left (fun st sl => wait_and_update_task w sl st) (processes st) st.

(** The arguments of [run_tasks] that stay fixed during a run. *)
Record run_config : Type := mkRunConfig {
  exe : string;
  exe_args : list string;
  ext : string;
  in_path : string;
  out_path : string;
  csv_count : nat;
  process_count : Z
}.

(** [cmd_args] as [run_tasks] builds it for a task. *)
Definition task_cmd_args (c : run_config) (task : Task) : list string :=
  let task_in_path := join_path (in_path c) [src task] in
  let task_out_path := join_path (out_path c) [dst task; name task +:+ ext c] in
  let cmd_args := [exe c; task_in_path; task_out_path] in
  let cmd_args := if list_truthy (exe_args c) then cmd_args ++ exe_args c else cmd_args in
  let cmd_args := if list_truthy (args task) then cmd_args ++ args task else cmd_args in
  cmd_args.

(** The body of the spawning loop of [run_tasks] for one task; the state
    carries the section last announced. *)
Definition spawn_task (fuel : nat) (w : world) (c : run_config)
    (acc : option (option string * sched)) (task : ref)
    : option (option string * sched) :=
  match acc with
  | None => None
  | Some (section0, st) =>
      match wait_for_available_process fuel w st with
      | None => None
      | Some (process_avail, st) =>
          let t := store st task in
          let '(section1, st) :=
            if bool_decide (section t ≠ section0)
            then (section t,
                  emit st (EvStatus (TASK_SECTION_FORMAT (str_of_section (section t)))
                                    LOG_COLOR_CYAN))
            else (section0, st) in
          let cmd_args := task_cmd_args c t in
          (* Disable usage text on argument errors to reduce spam. *)
          let args := cmd_args ++ ["--nousage"] in
          let process := spawned st in
          let st := count_spawn (emit st (EvPopen process args)) in
          Some (section1,
                set_processes st
                  (<[process_avail := Some (process, task, cmd_args)]> (processes st)))
      end
  end.

(** The accumulators of the last loop of [run_tasks]. *)
Record collected : Type := mkCollected {
  complete_tasks : list ref;
  failed_tasks : list ref;
  logs : list string;
  results : list string
}.

(** [l[i] += text]; an index past the end raises. *)
Definition append_at (l : list string) (i : nat) (text : string)
    : outcome (list string) :=
  match l !! i with
  | Some old => Ret (<[i := old +:+ text]> l)
  | None => Raise IndexError
  end.

(** The body of the last loop of [run_tasks] for one task. *)
Definition collect_task (c : run_config) (store : ref -> Task)
    (acc : outcome (option string * collected)) (task : ref)
    : outcome (option string * collected) :=
  '(section0, r) ← acc;
  let t := store task in
  let complete := if success t then complete_tasks r ++ [task] else complete_tasks r in
  let failed := if success t then failed_tasks r else failed_tasks r ++ [task] in
  let csv_index := csv_index t in
  '(section1, logs1, results1) ←
    (if bool_decide (section t ≠ section0)
     then
       let header := TASK_SECTION_FORMAT (str_of_section (section t))
                     +:+ String LF EmptyString in
       logs1 ← append_at (logs r) csv_index header;
       results1 ← append_at (results r) csv_index header;
       Ret (section t, logs1, results1)
     else Ret (section0, logs r, results r));
  log ← get_log t;
  logs2 ← append_at logs1 csv_index (log +:+ String LF EmptyString);
  results2 ← append_at results1 csv_index
               (get_result t (in_path c) (out_path c) +:+ String LF EmptyString);
  Ret (section1,
       {| complete_tasks := complete; failed_tasks := failed;
          logs := logs2; results := results2 |}).

(** The last loop of [run_tasks]. *)
Definition collect_tasks (c : run_config) (store : ref -> Task)
    (tasks : list ref) : outcome collected :=
  '(_, r) ←
    fold_left (collect_task c store) tasks
      (Ret (None,
            {| complete_tasks := []; failed_tasks := [];
               logs := replicate (csv_count c) EmptyString;
               results := replicate (csv_count c) EmptyString |}));
  Ret r.

(** The state in which [run_tasks] starts: every slot empty. *)
Definition initial_sched (c : run_config) (store0 : ref -> Task) : sched :=
  {| processes := replicate (Z.to_nat (process_count c)) None;
     store := store0; trace := []; polls := 0; spawned := 0 |}.

(** The first loop of [run_tasks]: the destination directories. *)
Definition make_task_directories (c : run_config) (tasks : list ref)
    (st : sched) : sched :=
  fold_left
    (fun st task =>
       emit st (EvMkdirs (join_path (out_path c) [dst (store st task)])))
    tasks st.

(** [run_tasks], on a store of tasks: [None] when some wait for a slot ran
    out of [fuel]; otherwise the final state of the run, and what is
    returned or raised. *)
Definition run_tasks (fuel : nat) (w : world) (c : run_config)
    (tasks : list ref) (store0 : ref -> Task)
    : option (sched * outcome collected) :=
  let st := initial_sched c store0 in
  (* Create all directories up-front. *)
  let st := if 1 <? process_count c then make_task_directories c tasks st else st in
  (* Spawn process for each task, up to process_count in parallel. *)
  match fold_left (spawn_task fuel w c) tasks (Some (None, st)) with
  | None => None
  | Some (_, st) =>
      (* Wait for remaining processes to complete. *)
      let st := wait_for_all_processes w st in
      (* Return the set of completed tasks. *)
      Some (st, collect_tasks c (store st) tasks)
  end.

(** *** Readings of a scheduler state *)

(** The occupied slots. *)
Definition pending (ps : list slot) : list (nat * ref * list string) :=
  omap id ps.

(** The task of an occupied slot. *)
Definition slot_task (x : nat * ref * list string) : ref := snd (fst x).

(** The tasks echoed in a trace, in order: one entry per finalization. *)
Definition printed (tr : list event) : list ref :=
  omap (fun e => match e with EvPrint r _ => Some r | _ => None end) tr.

(** The processes started in a trace, in order. *)
Definition popens (tr : list event) : list (nat * list string) :=
  omap (fun e => match e with EvPopen pid a => Some (pid, a) | _ => None end) tr.

(** The task [r], finalized for the process with number [pid] of a run that
    started from [store0]. *)
Definition final_task (w : world) (c : run_config) (store0 : ref -> Task)
    (pid : nat) (r : ref) : Task :=
  update_task (communicate w pid) (store0 r) (task_cmd_args c (store0 r)).

(** *** The invariant of a run

    After [k] tasks have been given a process, for the list [pend] of
    processes that are still to be finalized: every pending process belongs
    to the task at its number and carries that task's arguments; the pending
    and the echoed tasks together are the first [k] tasks; a task is in its
    final state once echoed and untouched before; and the processes started
    are those of the first [k] tasks, in order. *)

Definition slot_ok (c : run_config) (tasks : list ref) (store0 : ref -> Task)
    (x : nat * ref * list string) : Prop :=
  tasks !! fst (fst x) = Some (slot_task x)
  ∧ snd x = task_cmd_args c (store0 (slot_task x)).

Definition spawn_record (c : run_config) (store0 : ref -> Task)
    (i : nat) (r : ref) : nat * list string :=
  (i, task_cmd_args c (store0 r) ++ ["--nousage"]).

Record sched_inv (w : world) (c : run_config) (tasks : list ref)
    (store0 : ref -> Task) (k : nat) (pend : list (nat * ref * list string))
    (st : sched) : Prop := mkSchedInv {
  inv_spawned : spawned st = k;
  inv_slots : Forall (slot_ok c tasks store0) pend;
  inv_perm : (slot_task <$> pend) ++ printed (trace st) ≡ₚ take k tasks;
  inv_store : ∀ i r, tasks !! i = Some r →
    store st r = if bool_decide (r ∈ printed (trace st))
                 then final_task w c store0 i r else store0 r;
  inv_popens : popens (trace st) = imap (spawn_record c store0) (take k tasks)
}.

(** Two states that differ only in the number of polls and in trace events
    other than echoes and process starts. *)
Definition same_view (st st' : sched) : Prop :=
  spawned st' = spawned st
  ∧ processes st' = processes st
  ∧ store st' = store st
  ∧ printed (trace st') = printed (trace st)
  ∧ popens (trace st') = popens (trace st).

(** The state reached from [st1] by finalizing the occupant [sl] of slot [i]
    and clearing the slot, as [wait_for_available_process] does. *)
Definition cleared (w : world) (st1 : sched) (i : nat) (sl : slot) : sched :=
  let st := wait_and_update_task w sl st1 in
  set_processes st (<[i := None]> (processes st)).

(** The two usual readings of [clamp(x, lo, hi)]; they agree when [lo <= hi]. *)
Definition clamp_max_min (x lo hi : Z) : Z := Z.max lo (Z.min x hi).
Definition clamp_min_max (x lo hi : Z) : Z := Z.min hi (Z.max lo x).

(** The operands of the clamp in the parallelism rule. *)
Definition effective_requested (cpu_count requested : Z) : Z :=
  if 0 <? requested then requested else cpu_count.
Definition effective_max (process_max num_tasks : Z) : Z :=
  if 0 <? process_max then Z.min process_max num_tasks else num_tasks.

(** ** diff.py *)

(** *** Images

    An image is the list of its bands, each the list of its 8-bit pixel
    values; this is what [Image.open] yields for the bytes of an image of a
    mode with 8-bit bands. *)
Definition image : Type := list (list Z).

(** [ImageChops.difference], for two images of one size: the absolute
    difference, pixel by pixel and band by band; images with different
    numbers of bands do not match. *)
Definition difference (g_image t_image : image) : outcome image :=
  if (length g_image =? length t_image)%nat
  then Ret (zip_with (zip_with (fun a b => Z.abs (a - b))) g_image t_image)
  else Raise ValueError.

(** The number of pixels of a band with value [v]. *)
Definition count_value (v : Z) (band : list Z) : Z :=
  Z.of_nat (length (filter (fun x => x = v) band)).

(** [Image.histogram]: for each band in turn, 256 buckets. *)
Definition band_histogram (band : list Z) : list Z :=
  map (fun v => count_value (Z.of_nat v) band) (seq 0 256).

Definition image_histogram (im : image) : list Z :=
  concat (map band_histogram im).

(** [histogram_channels]: slices of size 256; [fuel] bounds their number. *)
Fixpoint histogram_channels_from (fuel : nat) (histogram : list Z)
    : list (list Z) :=
  match fuel, histogram with
  | O, _ | _, [] => []
  | S fuel', _ :: _ =>
      take 256 histogram :: histogram_channels_from fuel' (drop 256 histogram)
  end.

Definition histogram_channels (histogram : list Z) : list (list Z) :=
  histogram_channels_from (length histogram) histogram.

(** [max(l)] for a list of integers; it raises on an empty list. *)
Definition py_max (l : list Z) : outcome Z :=
  match l with
  | [] => Raise ValueError
  | x :: l' => Ret (fold_left Z.max l' x)
  end.

(** [max_histogram_bucket]: the largest index of a non-zero bucket. *)
Definition max_histogram_bucket (histogram : list Z) : outcome Z :=
  py_max (omap (fun '(i, diff) => if diff =? 0 then None else Some (Z.of_nat i))
               (imap pair histogram)).

(** [[f(x) for x in l]] for an [f] that may raise. *)
Fixpoint map_outcome {A B : Type} (f : A -> outcome B) (l : list A)
    : outcome (list B) :=
  match l with
  | [] => Ret []
  | x :: l' =>
      y ← f x;
      ys ← map_outcome f l';
      Ret (y :: ys)
  end.

(** [compare_images], on the two opened images. *)
Definition compare_images (g_image t_image : image) (threshold : Z)
    : outcome bool :=
  diff ← difference g_image t_image;
  let histogram := image_histogram diff in
  max_buckets ← map_outcome max_histogram_bucket (histogram_channels histogram);
  m ← py_max max_buckets;
  Ret (m <=? threshold).

(** *** Archives *)

(** An entry of a zip archive as the comparison sees it: the three fields of
    its [ZipInfo], and what [Image.open] makes of its bytes ([None] when they
    are not an image and it raises [IOError]). *)
Record ZipInfo : Type := mkZipInfo {
  filename : string;
  file_size : Z;
  CRC : Z;
  opened_image : option image
}.

(** [handle_crc_difference]. *)
Definition handle_crc_difference (golden_info test_info : ZipInfo)
    : outcome bool :=
  match
    match opened_image golden_info, opened_image test_info with
    | Some golden, Some test => compare_images golden test 3
    | _, _ => Raise IOError
    end
  with
  | Raise IOError => Ret false   (* Non-images always return false. *)
  | r => r
  end.

(** The loop of [compare_usdz_content] from index [i] on. *)
Fixpoint compare_infos_from (golden_infos : list ZipInfo) (i : nat)
    (test_rest : list ZipInfo) : outcome bool :=
  match test_rest with
  | [] => Ret true
  | test_info :: rest =>
      match golden_infos !! i with
      | None => Raise IndexError
      | Some golden_info =>
          if negb (String.eqb (filename test_info) (filename golden_info))
          then Ret false
          else if negb (file_size test_info =? file_size golden_info)
          then Ret false
          else if negb (CRC test_info =? CRC golden_info)
          then handle_crc_difference golden_info test_info
          else compare_infos_from golden_infos (S i) rest
      end
  end.

(** The body of [compare_usdz_content], on the entry lists of the two
    archives. *)
Definition compare_infolists (golden_infos test_infos : list ZipInfo)
    : outcome bool :=
  if negb (length golden_infos =? length test_infos)%nat
  then Ret false
  else compare_infos_from golden_infos 0 test_infos.

(** The reading of the archive rule as the specification words it: the same
    number of entries, and at every position the same name and size and,
    where the checksums differ, two images that compare equal within the
    threshold. *)
Definition usdz_content_matches_spec (golden_infos test_infos : list ZipInfo)
    : Prop :=
  length golden_infos = length test_infos
  ∧ ∀ i golden_info test_info,
      golden_infos !! i = Some golden_info →
      test_infos !! i = Some test_info →
      filename test_info = filename golden_info
      ∧ file_size test_info = file_size golden_info
      ∧ (CRC test_info ≠ CRC golden_info →
         ∃ golden test,
           opened_image golden_info = Some golden
           ∧ opened_image test_info = Some test
           ∧ compare_images golden test 3 = Ret true).

(** *** Directory trees *)

(** A regular file: its modification time, whether it can be opened for
    reading, its bytes, and the entry list [zipfile.ZipFile] reads from them
    ([None] when they are not a zip archive). *)
Record file : Type := mkFile {
  st_mtime : Z;
  readable : bool;
  data : string;
  infolist : option (list ZipInfo)
}.

Definition st_size (f : file) : nat := String.length (data f).

(** What [os.stat] finds at a path: a regular file or a directory. *)
Inductive node : Type :=
| NFile (f : file)
| NDir.

(** One step of [os.walk]: the path of a directory relative to the root of
    the walk (a dot for the root itself), the names of its sub-directories
    and its files.  The paths are those of a POSIX system: the names of a
    path are separated by slashes, and a backslash is a character of a name
    like any other. *)
Record dir_entry : Type := mkDirEntry {
  d_path : string;
  d_dirs : list string;
  d_files : list (string * file)
}.

(** A tree of directories and regular files, as the list of the steps of
    [os.walk] over it. *)
Definition tree : Type := list dir_entry.

Definition find_file (name : string) (files : list (string * file)) : option file :=
  snd <$> List.find (fun nf => String.eqb (fst nf) name) files.

(** [os.stat] of the entry [name] of the directory at [path], a path
    relative to the root of the tree as [os.walk] gives it. *)
Fixpoint tree_stat (t : tree) (path name : string) : option node :=
  match t with
  | [] => None
  | d :: t' =>
      if String.eqb (d_path d) path then
        match find_file name (d_files d) with
        | Some f => Some (NFile f)
        | None =>
            if existsb (String.eqb name) (d_dirs d) then Some NDir else None
        end
      else tree_stat t' path name
  end.

(** [filecmp.cmp]: [os.stat] fails on a missing entry; entries that are not
    both regular files differ; with [shallow], equal sizes and times are
    taken for equal; files of different sizes differ; otherwise both files
    are read, which fails when one cannot be opened.  (The cache of
    [filecmp] only repeats earlier results and is left out.) *)
Definition cmp (n1 n2 : option node) (shallow : bool) : outcome bool :=
  match n1, n2 with
  | Some a, Some b =>
      match a, b with
      | NFile f1, NFile f2 =>
          if shallow && (st_size f1 =? st_size f2)%nat
             && (st_mtime f1 =? st_mtime f2)
          then Ret true
          else if negb (st_size f1 =? st_size f2)%nat then Ret false
          else if readable f1 && readable f2
          then Ret (String.eqb (data f1) (data f2))
          else Raise IOError
      | _, _ => Ret false
      end
  | _, _ => Raise IOError
  end.

(** The three lists of [filecmp.cmpfiles]. *)
Record cmp_lists : Type := mkCmpLists {
  cmp_matches : list string;
  cmp_mismatches : list string;
  cmp_errors : list string
}.

(** The body of the loop of [filecmp.cmpfiles]: the name [x] is added to the
    list that the comparison of the two files selects. *)
Definition cmpfiles_step (a b : tree) (a_path b_path : string) (shallow : bool)
    (res : cmp_lists) (x : string) : cmp_lists :=
  match cmp (tree_stat a a_path x) (tree_stat b b_path x) shallow with
  | Ret true =>
      mkCmpLists (cmp_matches res ++ [x]) (cmp_mismatches res) (cmp_errors res)
  | Ret false =>
      mkCmpLists (cmp_matches res) (cmp_mismatches res ++ [x]) (cmp_errors res)
  | Raise _ =>
      mkCmpLists (cmp_matches res) (cmp_mismatches res) (cmp_errors res ++ [x])
  end.

(** [filecmp.cmpfiles(a, b, common, shallow)], for the directory at
    [a_path] of the tree [a] and the directory at [b_path] of the tree [b]. *)
Definition cmpfiles (a b : tree) (a_path b_path : string) (common : list string)
    (shallow : bool) : cmp_lists :=
  fold_left (cmpfiles_step a b a_path b_path shallow) common (mkCmpLists [] [] []).

(** [zipfile.ZipFile(path)] and [infolist()]. *)
Definition ZipFile (n : option node) : outcome (list ZipInfo) :=
  match n with
  | Some (NFile f) =>
      if readable f then
        match infolist f with
        | Some infos => Ret infos
        | None => Raise BadZipFile
        end
      else Raise IOError
  | _ => Raise IOError
  end.

(** [compare_usdz_content]. *)
Definition compare_usdz_content (golden test : option node) : outcome bool :=
  golden_infos ← ZipFile golden;
  test_infos ← ZipFile test;
  compare_infolists golden_infos test_infos.

(** The suffix of [s] that starts at its last dot. *)
Fixpoint last_dot_suffix (s : string) : option string :=
  match s with
  | EmptyString => None
  | String c s' =>
      match last_dot_suffix s' with
      | Some e => Some e
      | None => if char_eqb c "." then Some s else None
      end
  end.

(** Whether one of the first [n] characters of [s] is not a dot. *)
Fixpoint nondot_within (n : nat) (s : string) : bool :=
  match n, s with
  | S n', String c s' => negb (char_eqb c ".") || nondot_within n' s'
  | _, _ => false
  end.

(** The extension [os.path.splitext] gives for a file name: from the last
    dot on, unless only dots come before it. *)
Definition splitext_ext (name : string) : string :=
  match last_dot_suffix name with
  | Some e =>
      if nondot_within (String.length name - String.length e) name
      then e else EmptyString
  | None => EmptyString
  end.

(** [norm_relpath(dir, base)] for a directory of the walk over [base]:
    [os.path.relpath] gives the path of the directory in the walk, and
    [norm_slashes] turns its backslashes into slashes. *)
Definition norm_relpath_base (path : string) : string := norm_slashes path.

(** [norm_relpath(gold_dir, gold_root)] for the directory at [path] of the
    golden tree, where [prefix] is the path of the base of that tree
    relative to [gold_root] (a dot when they are the same): the relative
    path that [os.path.relpath] gives, with its backslashes turned into
    slashes. *)
Definition rel_to_root (prefix path : string) : string :=
  norm_slashes
    (if String.eqb path "." then prefix
     else if String.eqb prefix "." then path
     else prefix +:+ "/" +:+ path).

(** The four lists [get_diffs] builds. *)
Record diffs : Type := mkDiffs {
  all_matches : list string;
  all_mismatches : list string;
  all_missings : list string;
  all_extras : list string
}.

(** The body of the inner loop of [get_diffs] over the mismatches of one
    directory. *)
Definition add_mismatch (gold test : tree) (gold_dir test_dir rel_dir : string)
    (acc : outcome (list string)) (name : string) : outcome (list string) :=
  all_mismatches ← acc;
  let rel_file_path := join_path rel_dir [name] in
  let ext := splitext_ext name in
  if negb (String.eqb ext ".usdz") then Ret (all_mismatches ++ [rel_file_path])
  else
    same ← compare_usdz_content (tree_stat gold gold_dir name)
                                (tree_stat test test_dir name);
    if negb same then Ret (all_mismatches ++ [rel_file_path])
    else Ret all_mismatches.

(** The body of the first loop of [get_diffs], for one directory of the
    golden tree: it is compared with the directory of the test tree at the
    path that [norm_relpath] gives for it. *)
Definition diff_gold_dir (gold test : tree) (prefix : string)
    (acc : outcome (list string * list string * list string)) (d : dir_entry)
    : outcome (list string * list string * list string) :=
  '(all_matches, all_mismatches, all_missings) ← acc;
  let file_list := fst <$> d_files d in
  if negb (list_truthy file_list)
  then Ret (all_matches, all_mismatches, all_missings)
  else
    let gold_dir := d_path d in
    let test_dir := norm_relpath_base gold_dir in
    let res := cmpfiles gold test gold_dir test_dir file_list false in
    let rel_dir := rel_to_root prefix gold_dir in
    let all_matches :=
      all_matches ++ map (fun name => join_path rel_dir [name]) (cmp_matches res) in
    all_mismatches ←
      fold_left (add_mismatch gold test gold_dir test_dir rel_dir)
        (cmp_mismatches res) (Ret all_mismatches);
    let all_missings :=
      all_missings ++ map (fun name => join_path rel_dir [name]) (cmp_errors res) in
    Ret (all_matches, all_mismatches, all_missings).

(** The body of the second loop of [get_diffs], for one directory of the
    test tree: it is compared with the directory of the golden tree at the
    path that [norm_relpath] gives for it. *)
Definition diff_test_dir (gold test : tree) (prefix : string)
    (all_extras : list string) (d : dir_entry) : list string :=
  let file_list := fst <$> d_files d in
  if negb (list_truthy file_list) then all_extras
  else
    let test_dir := d_path d in
    let gold_dir := norm_relpath_base test_dir in
    let res := cmpfiles gold test gold_dir test_dir file_list true in
    let rel_dir := rel_to_root prefix gold_dir in
    all_extras ++ map (fun name => join_path rel_dir [name]) (cmp_errors res).

(** [get_diffs(gold_base, test_base, gold_root)], on the two trees. *)
Definition get_diffs (gold test : tree) (prefix : string) : outcome diffs :=
  (* Walk the golden tree testing for differences with the test tree. *)
  '(all_matches, all_mismatches, all_missings) ←
    fold_left (diff_gold_dir gold test prefix) gold (Ret ([], [], []));
  (* Walk the test tree to find new files not in the golden tree. *)
  let all_extras := fold_left (diff_test_dir gold test prefix) test [] in
  Ret (mkDiffs all_matches all_mismatches all_missings all_extras).

(** *** Readings of a directory tree *)

(** The file [name] is listed in the directory at [path] of the tree. *)
Definition listed (t : tree) (path name : string) : Prop :=
  ∃ d, d ∈ t ∧ d_path d = path ∧ name ∈ (d_files d).*1.

(** A tree as a file system presents it: the directory paths are distinct,
    not empty and without a final slash, and no file name contains a slash. *)
Definition tree_wf (t : tree) : bool :=
  bool_decide (NoDup (d_path <$> t))
  && forallb
       (fun d =>
          negb (String.eqb (d_path d) EmptyString)
          && negb (ends_with_slash (d_path d))
          && forallb (fun nf => negb (contains_char "/" (fst nf))) (d_files d))
       t.

(** Every file of the tree can be opened for reading. *)
Definition tree_readable (t : tree) : bool :=
  forallb (fun d => forallb (fun nf => readable (snd nf)) (d_files d)) t.

(** No directory path of the tree has a backslash in it: [norm_slashes]
    leaves the paths of its walk as they are. *)
Definition tree_plain (t : tree) : bool :=
  forallb (fun d => negb (contains_char "\" (d_path d))) t.

(** The conditions [tree_wf] puts on a directory path. *)
Definition path_ok (path : string) : Prop :=
  path ≠ EmptyString ∧ ends_with_slash path = false.

(** The path reported for the file [name] of the directory at [path]. *)
Definition reported_path (prefix path name : string) : string :=
  join_path (rel_to_root prefix path) [name].

(** The outcome of comparing the files [name] of the directories that the
    two trees have at [path]. *)
Definition cmp_at (gold test : tree) (path name : string) (shallow : bool)
    : outcome bool :=
  cmp (tree_stat gold path name) (tree_stat test path name) shallow.

(** The path [p] is reported for a file listed in the tree [walked] whose
    comparison between [gold] and [test] has an outcome in [P]. *)
Definition reported_with (walked gold test : tree) (prefix : string)
    (shallow : bool) (P : outcome bool -> Prop) (p : string) : Prop :=
  ∃ d name,
    d ∈ walked ∧ name ∈ (d_files d).*1
    ∧ p = reported_path prefix (d_path d) name
    ∧ P (cmp_at gold test (d_path d) name shallow).

Definition is_raise {A : Type} (o : outcome A) : Prop := ∃ e, o = Raise e.

(** ** ufgtest.py: the exit code computed at the end of [main] *)

(** The last statements of [main]: [err = 0], then [err |= 1] when
    [failed_tasks] is non-empty and [err |= 2] when one of the diff totals
    is non-zero.  [A] is the type of the entries of [failed_tasks]. *)
Definition main_err {A : Type} (failed_tasks : list A)
    (mismatch_total missing_total extra_total : Z) : Z :=
  let err := 0 in
  let err := if list_truthy failed_tasks then Z.lor err 1 else err in
  let err :=
    if truthy (py_or (py_or mismatch_total missing_total) extra_total)
    then Z.lor err 2 else err in
  err.

(** ** Further functions of [util.py] *)

(** Truth value of a text: true when it is not empty. *)
Definition str_truthy (s : string) : bool :=
  match s with
  | EmptyString => false
  | String _ _ => true
  end.

(** [TagTracker._get_total_suffix]. *)
Definition _get_total_suffix (self : TagTracker) (colored : bool)
    (name : string) (severity : Z) (color : option string) : string :=
  let total := totals self !!! list_index (length (totals self)) severity in
  if negb (truthy total) then EmptyString
  else
    let plurality := if total =? 1 then EmptyString else "s" in
    let text := " " +:+ str_of_int total +:+ " " +:+ name +:+ plurality +:+ "." in
    if colored then colorize text color else text.

(** [TagTracker.get_summary_suffix]. *)
Definition get_summary_suffix (self : TagTracker) (colored : bool) : string :=
  let summary := EmptyString in
  let summary :=
    summary +:+ _get_total_suffix self colored "error" SEVERITY_ERROR LOG_COLOR_RED in
  let summary :=
    summary
    +:+ _get_total_suffix self colored "warning" SEVERITY_WARN LOG_COLOR_YELLOW in
  summary.

(** ** [util.py]: renaming the output directory

    What [rename_with_retry] and [clean_output_directory] do to the outside
    is recorded as a trace of calls. *)

Inductive fs_event : Type :=
| FsSleep                                     (* time.sleep *)
| FsLog (text : string)                       (* util.log: the text printed *)
| FsRename (from_path to_path : string).      (* os.rename *)

(** [text] between double quotes. *)
Definition in_quotes (text : string) : string :=
  String DQUOTE text +:+ String DQUOTE EmptyString.

Definition retry_message (from_path to_path : string) : string :=
  colorize ("Retrying failed rename: " +:+ in_quotes from_path +:+ " --> "
            +:+ in_quotes to_path) LOG_COLOR_YELLOW.

Definition failed_message (retry_limit : nat) (from_path to_path : string)
    : string :=
  colorize (String LF ("Rename failed after "
                       +:+ str_of_int (Z.of_nat retry_limit) +:+ " retries: "
                       +:+ in_quotes from_path +:+ " --> " +:+ in_quotes to_path))
           LOG_COLOR_RED.

(** The loop of [rename_with_retry] from the iteration [retry] on, with [n]
    iterations to go; [os_rename k] is what the call of [os.rename] in
    iteration [k] does.  The flag returned tells whether the function has
    returned from inside the loop. *)
Fixpoint rename_loop (os_rename : nat -> outcome unit)
    (from_path to_path : string) (n retry : nat) (tr : list fs_event)
    : list fs_event * outcome bool :=
  match n with
  | O => (tr, Ret false)
  | S n' =>
      let tr :=
        if (0 <? retry)%nat
        then tr ++ [FsSleep; FsLog (retry_message from_path to_path)]
        else tr in
      let tr := tr ++ [FsRename from_path to_path] in
      match os_rename retry with
      | Ret _ => (tr, Ret true)
      | Raise IOError => rename_loop os_rename from_path to_path n' (S retry) tr
      | Raise e => (tr, Raise e)
      end
  end.

(** [rename_with_retry]. *)
Definition rename_with_retry (os_rename : nat -> outcome unit)
    (from_path to_path : string) (retry_limit : nat)
    : list fs_event * outcome unit :=
  match rename_loop os_rename from_path to_path retry_limit 0 [] with
  | (tr, Ret true) => (tr, Ret tt)
  | (tr, Ret false) =>
      (tr ++ [FsLog (failed_message retry_limit from_path to_path)], Ret tt)
  | (tr, Raise e) => (tr, Raise e)
  end.





(** The events of one retry. *)
Definition retry_events (from_path to_path : string) : list fs_event :=
  [FsSleep; FsLog (retry_message from_path to_path); FsRename from_path to_path].

(** ** Further functions of [process.py] and [ufgtest.py] *)

(** [get_brief_task_listing] (in [process.py] and in [ufgtest.py]). *)
Definition get_brief_task_listing (tasks : list Task) : string :=
  let count := Nat.min (length tasks) 2 in
  let listing :=
    fold_left
      (fun listing task =>
         let listing := if str_truthy listing then listing +:+ ", " else listing in
         listing +:+ name task)
      (take count tasks) EmptyString in
  if (count <? length tasks)%nat
  then listing +:+ ", ...(and "
       +:+ str_of_int (Z.of_nat (length tasks) - Z.of_nat count) +:+ " more)"
  else listing.

(** [get_summary] (in [process.py] and in [ufgtest.py]). *)
Definition get_summary (failed_tasks : list Task)
    (mismatch_total missing_total extra_total : Z) : string :=
  let is_diff := py_or (py_or mismatch_total missing_total) extra_total in
  if negb (list_truthy failed_tasks) && negb (truthy is_diff)
  then "Conversion successful. No differences detected."
  else
    let summary := EmptyString in
    let summary :=
      if list_truthy failed_tasks
      then summary +:+ "Failed converting "
           +:+ str_of_int (Z.of_nat (length failed_tasks)) +:+ " model(s) ("
           +:+ get_brief_task_listing failed_tasks +:+ ")."
      else summary in
    let summary :=
      if truthy is_diff
      then
        let summary := if str_truthy summary then summary +:+ " " else summary in
        summary +:+ "Detected golden file differences. "
        +:+ str_of_int mismatch_total +:+ " different, "
        +:+ str_of_int missing_total +:+ " missing, "
        +:+ str_of_int extra_total +:+ " extra."
      else summary in
    summary.

(** ** [task.py]: reading the task lists

    A CSV file as [parse_tasks] sees it: its name, and the rows that
    [csv.reader] yields, each with the number of the line it ends on. *)
Record csv_file : Type := mkCsvFile {
  fp_name : string;
  fp_rows : list (nat * list string)
}.

(** The outcome of a call that may raise or leave the program by [exit],
    after logging a message. *)
Inductive parsed (A : Type) : Type :=
| Parsed (a : A)
| Exited (code : Z) (message : string)
| Failed (e : exn).
Arguments Parsed {A} a.
Arguments Exited {A} code message.
Arguments Failed {A} e.

(** [s.startswith(c)] for a text [c] of one character. *)
Definition starts_with_char (c : ascii) (s : string) : bool :=
  match s with
  | String d _ => char_eqb c d
  | EmptyString => false
  end.

(** [s[1:]]. *)
Definition drop_first (s : string) : string :=
  match s with
  | String _ s' => s'
  | EmptyString => EmptyString
  end.

Definition columns_message (what expected : string) (fp : csv_file)
    (columns line_num : nat) : string :=
  colorize (fp_name fp +:+ ": Incorrect number of " +:+ what +:+ " ("
            +:+ str_of_int (Z.of_nat columns) +:+ ", expected " +:+ expected
            +:+ ") on line " +:+ str_of_int (Z.of_nat line_num) +:+ ".")
           LOG_COLOR_RED.

(** The state of the loop of [parse_tasks]: the tasks read so far, the
    current section and its arguments. *)
Definition parse_state : Type := list Task * option string * list string.

Section Parsing.
(** [shlex.split], which may raise [ValueError]. *)
Variable shlex_split : string -> outcome (list string).

(** The body of the loop of [parse_tasks] for one row. *)
Definition parse_row (fp : csv_file) (csv_index : nat)
    (acc : parsed parse_state) (numbered_row : nat * list string)
    : parsed parse_state :=
  match acc with
  | Parsed (tasks, section, section_args) =>
      let '(line_num, row) := numbered_row in
      match row with
      | [] => acc     (* Just skip empty rows. *)
      | row0 :: _ =>
          if starts_with_char "#" row0 then acc   (* Skip line comments. *)
          else if starts_with_char "@" row0 then
            if negb (length row =? 1)%nat && negb (length row =? 2)%nat
            then Exited 1 (columns_message "section columns" "1 or 2" fp
                             (length row) line_num)
            else
              let section := Some (drop_first row0) in
              match row with
              | _ :: row1 :: _ =>
                  match shlex_split row1 with
                  | Ret section_args => Parsed (tasks, section, section_args)
                  | Raise e => Failed e
                  end
              | _ => Parsed (tasks, section, [])
              end
          else if negb (length row =? 3)%nat && negb (length row =? 4)%nat
          then Exited 1 (columns_message "columns" "3 or 4" fp
                           (length row) line_num)
          else
            match row with
            | _ :: row1 :: row2 :: rest =>
                match
                  match rest with
                  | row3 :: _ =>
                      match shlex_split row3 with
                      | Ret more => Ret (section_args ++ more)
                      | Raise e => Raise e
                      end
                  | [] => Ret section_args
                  end
                with
                | Ret task_args =>
                    Parsed (tasks ++ [Task_init row0 row1 row2 task_args
                                        csv_index section],
                            section, section_args)
                | Raise e => Failed e
                end
            | _ => acc
            end
      end
  | _ => acc
  end.

(** [parse_tasks]. *)
Definition parse_tasks (fp : csv_file) (csv_index : nat) : parsed (list Task) :=
  match fold_left (parse_row fp csv_index) (fp_rows fp) (Parsed ([], None, [])) with
  | Parsed (tasks, _, _) => Parsed tasks
  | Exited code message => Exited code message
  | Failed e => Failed e
  end.
End Parsing.

(** The dictionary [names] of [check_unique_task_names], as the list of its
    items in the order in which their keys were first set: the order in
    which [items()] visits them. *)
Fixpoint items_get (names : list (string * Z)) (key : string) : option Z :=
  match names with
  | [] => None
  | (k, v) :: names' =>
      if String.eqb k key then Some v else items_get names' key
  end.

Fixpoint items_set (names : list (string * Z)) (key : string) (value : Z)
    : list (string * Z) :=
  match names with
  | [] => [(key, value)]
  | (k, v) :: names' =>
      if String.eqb k key then (k, value) :: names'
      else (k, v) :: items_set names' key value
  end.

(** The loop of [check_unique_task_names] that counts the names. *)
Definition count_name (acc : list (string * Z) * bool) (task : Task)
    : list (string * Z) * bool :=
  let '(names, have_dupes) := acc in
  match items_get names (name task) with
  | Some n => (items_set names (name task) (n + 1), true)
  | None => (items_set names (name task) 1, have_dupes)
  end.

(** The loop of [check_unique_task_names] that lists the duplicates. *)
Definition list_dupe (dupes : string) (entry : string * Z) : string :=
  let '(name, count) := entry in
  if 1 <? count
  then (if str_truthy dupes then dupes +:+ ", " else dupes) +:+ name
  else dupes.

(** [check_unique_task_names]: what it logs, and what it returns. *)
Definition check_unique_task_names (tasks : list Task) : list string * bool :=
  let '(names, have_dupes) := fold_left count_name tasks ([], false) in
  let logged :=
    if have_dupes
    then
      let dupes := fold_left list_dupe names EmptyString in
      [colorize ("ERROR: Duplicate task(s): " +:+ dupes) LOG_COLOR_RED]
    else [] in
  (logged, negb have_dupes).

(** The last component of a path ([os.path.split], with slashes). *)
Fixpoint basename_from (cur path : string) : string :=
  match path with
  | EmptyString => cur
  | String c path' =>
      if char_eqb c "/" then basename_from EmptyString path'
      else basename_from (cur +:+ String c EmptyString) path'
  end.
Definition basename (path : string) : string := basename_from EmptyString path.

(** The first component of [os.path.splitext]: the name without its
    extension. *)
Definition splitext_root (name : string) : string :=
  substring 0 (String.length name - String.length (splitext_ext name)) name.

(** The accumulators of the loop of [get_csv_tasks]. *)
Record csv_lists : Type := mkCsvLists {
  cl_tasks : list Task;
  cl_names : list (option string);
  cl_csv_tasks : list (list Task)
}.

Section CsvTasks.
Variable shlex_split : string -> outcome (list string).

(** The body of the loop of [get_csv_tasks]. *)
Definition get_csv_step (acc : parsed csv_lists) (indexed : nat * csv_file)
    : parsed csv_lists :=
  match acc with
  | Parsed r =>
      let '(csv_index, csv) := indexed in
      match parse_tasks shlex_split csv csv_index with
      | Parsed tasks =>
          Parsed {| cl_tasks := cl_tasks r ++ tasks;
                    cl_names :=
                      <[csv_index := Some (splitext_root (basename (fp_name csv)))]>
                        (cl_names r);
                    cl_csv_tasks := <[csv_index := tasks]> (cl_csv_tasks r) |}
      | Exited code message => Exited code message
      | Failed e => Failed e
      end
  | _ => acc
  end.

(** [get_csv_tasks]: [None] stands for the triple [(None, None, None)]. *)
Definition get_csv_tasks (csv_files : list csv_file)
    : parsed (list string * option csv_lists) :=
  let csv_count := length csv_files in
  match
    fold_left get_csv_step (imap pair csv_files)
      (Parsed {| cl_tasks := [];
                 cl_names := replicate csv_count None;
                 cl_csv_tasks := replicate csv_count [] |})
  with
  | Parsed r =>
      let '(logged, unique) := check_unique_task_names (cl_tasks r) in
      if negb unique then Parsed (logged, None) else Parsed (logged, Some r)
  | Exited code message => Exited code message
  | Failed e => Failed e
  end.
End CsvTasks.

(** *** Readings of a row *)

(** The rows that [parse_tasks] skips: empty rows and comments. *)
Definition skipped_row (row : list string) : bool :=
  match row with
  | [] => true
  | row0 :: _ => starts_with_char "#" row0
  end.

(** The section headers among the rows that are not skipped. *)
Definition header_row (row : list string) : bool :=
  match row with
  | [] => false
  | row0 :: _ => negb (starts_with_char "#" row0) && starts_with_char "@" row0
  end.

(** The rows that stand for a task. *)
Definition task_row (row : list string) : bool :=
  negb (skipped_row row) && negb (header_row row).

(** A row with a number of columns that [parse_tasks] refuses. *)
Definition bad_columns (row : list string) : bool :=
  if header_row row
  then negb (length row =? 1)%nat && negb (length row =? 2)%nat
  else if task_row row
  then negb (length row =? 3)%nat && negb (length row =? 4)%nat
  else false.

(** A task as [Task.__init__] leaves it, read from the list [csv_index]. *)
Definition fresh_task (index : nat) (task : Task) : Prop :=
  csv_index task = index
  ∧ success task = false ∧ command task = None ∧ output task = None.

(** The files of a list with their indices from [k] on, as [enumerate]
    gives them. *)
Definition indexed_from {A : Type} (k : nat) (l : list A) : list (nat * A) :=
  imap (fun i x => ((k + i)%nat, x)) l.

(** The store in which the tasks of a list are the objects [0], [1], ... *)
Definition store_of (tasks : list Task) (r : nat) : Task :=
  default (Task_init EmptyString EmptyString EmptyString [] 0 None) (tasks !! r).

(** What holds of the accumulators after the first [k] files. *)
Definition csv_inv (shlex_split : string -> outcome (list string))
    (n k : nat) (done : list csv_file) (r : csv_lists) : Prop :=
  length (cl_csv_tasks r) = n ∧ length (cl_names r) = n
  ∧ cl_tasks r = concat (take k (cl_csv_tasks r))
  ∧ Forall (fun t => (csv_index t < k)%nat ∧ success t = false
                     ∧ command t = None ∧ output t = None) (cl_tasks r)
  ∧ ∀ i fp, done !! i = Some fp →
      ∃ tasks, parse_tasks shlex_split fp i = Parsed tasks
               ∧ cl_csv_tasks r !! i = Some tasks
               ∧ cl_names r !! i
                 = Some (Some (splitext_root (basename (fp_name fp)))).

(** ** Further functions of [diff.py] *)

(** [compare_directories]: the two trees are compared with the golden tree
    as the root of the returned paths. *)
Definition compare_directories (golden test : tree) : outcome bool :=
  '(mkDiffs _ mismatches missings extras) ← get_diffs golden test ".";
  Ret (negb (list_truthy mismatches || list_truthy missings
             || list_truthy extras)).

(** ** Further readings *)

(** *** Of texts and trackers *)

(** [sep.join(l)]. *)
Fixpoint join_with (sep : string) (l : list string) : string :=
  match l with
  | [] => EmptyString
  | [x] => x
  | x :: l' => x +:+ sep +:+ join_with sep l'
  end.

(** An argument as [get_process_command] writes it: between double quotes
    when it contains a space. *)
Definition quoted_arg (arg : string) : string :=
  if contains_char " " arg
  then String DQUOTE arg +:+ String DQUOTE EmptyString
  else arg.

(** The lines of an output text to which [get_message_tag] gives the
    severity [severity]; and those among them that carry a tag. *)
Definition severity_lines (severity : Z) (output : string) : list string :=
  filter (fun line => (get_message_tag line).1 = severity)
         (splitlines false output).
Definition tagged_lines (severity : Z) (output : string) : list string :=
  filter (fun line => text_truthy (get_message_tag line).2 = true)
         (severity_lines severity output).

(** *** Of a trace *)

(** The trace of [st'] continues that of [st] with events among which no
    process is started. *)
Definition extends (st st' : sched) : Prop :=
  ∃ evs, trace st' = trace st ++ evs ∧ popens evs = [].

(** At no point of the trace are more than [n] processes started and not
    yet finalized. *)
Definition bounded (n : nat) (tr : list event) : Prop :=
  ∀ tr', tr' `prefix_of` tr →
    (length (popens tr') <= length (printed tr') + n)%nat.

(** *** Readings of an image *)

(** An image whose bands are not empty and hold 8-bit values. *)
Definition image_ok (im : image) : Prop :=
  Forall (fun band => band ≠ [] ∧ Forall (fun v => 0 <= v <= 255) band) im.

(** Two images with the same bands of the same sizes. *)
Definition same_shape (g_image t_image : image) : Prop :=
  Forall2 (fun bg bt => length bg = length bt) g_image t_image.

(** Every pixel of the one image is within [threshold] of the pixel of the
    other at the same place. *)
Definition pixels_within (threshold : Z) (g_image t_image : image) : Prop :=
  Forall2 (Forall2 (fun a b => Z.abs (a - b) <= threshold)) g_image t_image.

(** *** Readings of the lists of [get_diffs] *)

(** Where the file [name] of the directory [d] is reported among the three
    lists [m], [mm] and [mi]. *)
Definition gold_reported (gold test : tree) (prefix : string)
    (m mm mi : list string) (d : dir_entry) (name : string) : Prop :=
  let p := reported_path prefix (d_path d) name in
  match cmp_at gold test (d_path d) name false with
  | Ret true => p ∈ m
  | Ret false =>
      p ∈ mm
      ∨ (splitext_ext name = ".usdz"
         ∧ compare_usdz_content (tree_stat gold (d_path d) name)
                                (tree_stat test (d_path d) name) = Ret true)
  | Raise _ => p ∈ mi
  end.

(** *** Readings of a comparison of archives *)

(** Two entries with the same name and size. *)
Definition same_entry (golden_info test_info : ZipInfo) : Prop :=
  filename test_info = filename golden_info
  ∧ file_size test_info = file_size golden_info.

(** The comparison of two entry lists is settled at position [k]: the
    entries before it agree in name, size and checksum, and either there is
    no entry at [k], or the entries at [k] agree in name and size, differ in
    checksum and, opened as images, compare equal within the threshold. *)
Definition settled_at (k : nat) (golden_infos test_infos : list ZipInfo) : Prop :=
  (∀ i a b, (i < k)%nat → golden_infos !! i = Some a → test_infos !! i = Some b →
     same_entry a b ∧ CRC b = CRC a)
  ∧ (k = length test_infos
     ∨ ∃ a b, golden_infos !! k = Some a ∧ test_infos !! k = Some b
              ∧ same_entry a b ∧ CRC b ≠ CRC a
              ∧ handle_crc_difference a b = Ret true).

(** ** Sample inputs *)

(** Two bands of three pixels; [sample_image_close] differs from
    [sample_image_golden] by at most 2 in a pixel, [sample_image_far] by 10. *)
Definition sample_image_golden : image := [[10; 20; 30]; [0; 0; 0]].
Definition sample_image_close : image := [[12; 20; 29]; [0; 1; 0]].
Definition sample_image_far : image := [[20; 20; 30]; [0; 0; 0]].

(** An archive of a scene and two textures, and re-built copies of it: with
    the first texture re-encoded closely; with it re-encoded far off; and
    with the first re-encoded closely and the second far off. *)
Definition sample_golden_infos : list ZipInfo :=
  [mkZipInfo "model.usdc" 5 7 None;
   mkZipInfo "tex0.png" 6 1 (Some sample_image_golden);
   mkZipInfo "tex1.png" 6 4 (Some sample_image_golden)].
Definition sample_close_infos : list ZipInfo :=
  [mkZipInfo "model.usdc" 5 7 None;
   mkZipInfo "tex0.png" 6 2 (Some sample_image_close);
   mkZipInfo "tex1.png" 6 4 (Some sample_image_golden)].
Definition sample_far_infos : list ZipInfo :=
  [mkZipInfo "model.usdc" 5 7 None;
   mkZipInfo "tex0.png" 6 3 (Some sample_image_far);
   mkZipInfo "tex1.png" 6 4 (Some sample_image_golden)].
Definition sample_changed_infos : list ZipInfo :=
  [mkZipInfo "model.usdc" 5 7 None;
   mkZipInfo "tex0.png" 6 2 (Some sample_image_close);
   mkZipInfo "tex1.png" 6 5 (Some sample_image_far)].

(** A golden tree and two test trees: one with a changed file, a missing
    file and a new file; one whose copy of [a.usda] has the same size but
    cannot be opened.  And a tree with a directory whose name has a
    backslash in it. *)
Definition sample_file (mtime : Z) (text : string) : file :=
  mkFile mtime true text None.
Definition sample_gold_tree : tree :=
  [mkDirEntry "." ["sub"]
     [("a.usda", sample_file 1 "abc"); ("b.txt", sample_file 1 "abc")];
   mkDirEntry "sub" [] [("c.txt", sample_file 1 "abc")]].
Definition sample_test_tree : tree :=
  [mkDirEntry "." ["sub"]
     [("a.usda", sample_file 2 "abd"); ("b.txt", sample_file 5 "abc");
      ("new.txt", sample_file 2 "abc")];
   mkDirEntry "sub" [] []].
Definition sample_locked_tree : tree :=
  [mkDirEntry "." ["sub"]
     [("a.usda", mkFile 2 false "abd" None); ("b.txt", sample_file 5 "abc")];
   mkDirEntry "sub" [] [("c.txt", sample_file 1 "abc")]].
Definition sample_backslash_tree : tree :=
  [mkDirEntry "." ["a\b"] [];
   mkDirEntry "a\b" [] [("f.txt", sample_file 1 "abc")]].

(** A run of three tasks on two slots: the second process exits with the
    access violation code and no output, the third reports an error; every
    process has exited by the third poll. *)
Definition sample_world : world :=
  {| communicate := fun pid =>
       if (pid =? 1)%nat then mkCompleted "boom" EmptyString 3221225477
       else if (pid =? 2)%nat then mkCompleted "x" "Error: bad" 1
       else mkCompleted "ok" EmptyString 0;
     poll := fun n pid => (2 <=? n)%nat |}.
Definition sample_store : ref -> Task :=
  fun r => Task_init "model" "in.gltf" "out dir" [] 0 (Some "S1").
Definition sample_config : run_config :=
  mkRunConfig "usd_from_gltf" ["-v"] ".usda" "/in" "/out" 1 2.
Definition sample_tasks : list ref := [0; 1; 2]%nat.
Definition sample_sched : sched :=
  initial_sched sample_config sample_store.

(** ** Further sample inputs *)

(** A task list of one section with two tasks, after a comment; arguments
    are split at nothing. *)
Definition sample_shlex_split (arg : string) : outcome (list string) :=
  Ret [arg].
Definition sample_csv : csv_file :=
  mkCsvFile "lists/all.csv"
    [(1%nat, ["# models"]);
     (2%nat, ["@Basic"; "-v"]);
     (3%nat, ["cube"; "cube.gltf"; "out"]);
     (4%nat, []);
     (5%nat, ["ball"; "ball.gltf"; "out"; "--fast"])].

(** A golden archive and a re-built copy of it, as files. *)
Definition sample_golden_usdz : option node :=
  Some (NFile (mkFile 1 true "PK-golden" (Some sample_golden_infos))).
Definition sample_close_usdz : option node :=
  Some (NFile (mkFile 2 true "PK-close" (Some sample_close_infos))).

(** The scheduler of the sample run while its first two tasks run on the
    two slots. *)
Definition sample_busy_sched : sched :=
  set_processes sample_sched
    [Some (0%nat, 0%nat, ["usd_from_gltf"]);
     Some (1%nat, 1%nat, ["usd_from_gltf"])].

(* ===================================================================== *)
(** * Properties                                                          *)
(* ===================================================================== *)

Lemma truthy_spec n : truthy n = true ↔ n ≠ 0.
Proof. unfold truthy. destruct (Z.eqb_spec n 0); simpl; intuition congruence. Qed.

Lemma truthy_py_or a b : truthy (py_or a b) = truthy a || truthy b.
Proof. unfold py_or. destruct (truthy a) eqn:E; simpl; auto. Qed.

(** ** Parallelism selection *)

Lemma get_process_count_unfold cpu r m j :
  get_process_count cpu r m j
  = Z.max (Z.min (effective_requested cpu r) (effective_max m j)) 1.
Proof. reflexivity. Qed.

(** C2, as amended: with at least one task (and a machine reporting at least
    one processor) the process count is the clamp of the effective request
    between 1 and the effective maximum, under either reading of clamp, and
    lies between 1 and the least of the effective request, the effective
    maximum and the task count; the two quoted instances evaluate to 3. *)
Theorem C2_get_process_count_clamp (cpu requested process_max num_tasks : Z) :
  1 <= cpu -> 1 <= num_tasks ->
  let p_eff := effective_requested cpu requested in
  let m_eff := effective_max process_max num_tasks in
  let r := get_process_count cpu requested process_max num_tasks in
  r = clamp_max_min p_eff 1 m_eff /\
  r = clamp_min_max p_eff 1 m_eff /\
  1 <= r <= Z.min (Z.min p_eff m_eff) num_tasks /\
  get_process_count cpu 10 64 3 = 3 /\
  get_process_count cpu 10 0 3 = 3.
Proof.
  intros Hcpu Hj p_eff m_eff r.
  subst r. rewrite get_process_count_unfold. fold p_eff m_eff.
  assert (Hp : 1 <= p_eff).
  { unfold p_eff, effective_requested. destruct (Z.ltb_spec 0 requested); lia. }
  assert (Hm : 1 <= m_eff <= num_tasks).
  { unfold m_eff, effective_max. destruct (Z.ltb_spec 0 process_max); lia. }
  unfold clamp_max_min, clamp_min_max.
  repeat split; try lia.
Qed.

Lemma C2_get_process_count_clamp_witness :
  get_process_count 8 0 64 5 = clamp_max_min 8 1 5 /\
  1 <= get_process_count 8 0 64 5 <= 5.
Proof.
  pose proof (C2_get_process_count_clamp 8 0 64 5 ltac:(lia) ltac:(lia)) as H.
  cbv zeta in H. destruct H as (H1 & _ & H3 & _). split.
  - exact H1.
  - vm_compute in H3. vm_compute. exact H3.
Defined.

(** C2, as stated, fails for an empty task list: the result is still 1,
    above the task count 0. *)
Lemma C2_empty_task_list_counterexample :
  ~ (1 <= get_process_count 8 10 64 0
       <= Z.min (Z.min (effective_requested 8 10) (effective_max 64 0)) 0).
Proof. vm_compute. intros [_ H]. apply H. reflexivity. Qed.

(** ** Exit status *)

Lemma list_truthy_spec {A : Type} (l : list A) : list_truthy l = true ↔ l ≠ [].
Proof. destruct l; simpl; intuition congruence. Qed.

Lemma main_err_value {A : Type} (failed_tasks : list A) (a b c : Z) :
  main_err failed_tasks a b c
  = Z.b2z (list_truthy failed_tasks)
    + 2 * Z.b2z (truthy a || truthy b || truthy c).
Proof.
  unfold main_err. rewrite !truthy_py_or.
  destruct (list_truthy failed_tasks), (truthy a), (truthy b), (truthy c);
    reflexivity.
Qed.

(** C8: the exit code is a two-bit mask; the low bit is set exactly when a
    task failed, the next bit exactly when a mismatch, missing or extra total
    is non-zero; it is 0 with no failure and no difference and 3 with both. *)
Theorem C8_main_err_bitmask {A : Type} (failed_tasks : list A)
    (mismatch_total missing_total extra_total : Z) :
  let err := main_err failed_tasks mismatch_total missing_total extra_total in
  let some_failed := failed_tasks ≠ [] in
  let some_diff :=
    mismatch_total ≠ 0 ∨ missing_total ≠ 0 ∨ extra_total ≠ 0 in
  (Z.testbit err 0 = true ↔ some_failed) ∧
  (Z.testbit err 1 = true ↔ some_diff) ∧
  (err = 0 ↔ ¬ some_failed ∧ ¬ some_diff) ∧
  (err = 3 ↔ some_failed ∧ some_diff) ∧
  0 <= err < 4.
Proof.
  cbv zeta. rewrite main_err_value.
  pose proof (truthy_spec mismatch_total) as H1.
  pose proof (truthy_spec missing_total) as H2.
  pose proof (truthy_spec extra_total) as H3.
  pose proof (list_truthy_spec failed_tasks) as H4.
  destruct (list_truthy failed_tasks), (truthy mismatch_total),
    (truthy missing_total), (truthy extra_total);
  vm_compute Z.add; vm_compute Z.testbit;
  intuition (try congruence; try lia).
Qed.

(** ** Text lemmas *)

Lemma append_nil_l (t : string) : EmptyString +:+ t = t.
Proof. reflexivity. Qed.

Lemma append_cons (c : ascii) (s t : string) :
  String c s +:+ t = String c (s +:+ t).
Proof. reflexivity. Qed.

Lemma length_append (s t : string) :
  String.length (s +:+ t) = (String.length s + String.length t)%nat.
Proof.
  induction s as [|c s IH]; [reflexivity |].
  rewrite append_cons. simpl. now rewrite IH.
Qed.

Lemma append_assoc (s t u : string) : (s +:+ t) +:+ u = s +:+ (t +:+ u).
Proof.
  induction s as [|c s IH]; [reflexivity |].
  rewrite !append_cons. now rewrite IH.
Qed.

Lemma append_empty_r (s : string) : s +:+ EmptyString = s.
Proof.
  induction s as [|c s IH]; [reflexivity |].
  rewrite append_cons. now rewrite IH.
Qed.

Lemma prefix_append (s t : string) : String.prefix s (s +:+ t) = true.
Proof.
  induction s as [|c s IH].
  - now destruct t.
  - rewrite append_cons. simpl.
    destruct (ascii_dec c c); [exact IH | congruence].
Qed.

Lemma append_inv_l (s t u : string) : s +:+ t = s +:+ u → t = u.
Proof.
  induction s as [|c s IH]; [tauto |].
  rewrite !append_cons. intros [= H]. auto.
Qed.

(** ** Hexadecimal formatting *)









(** ** Decimal formatting *)


(** ** Containment *)


Lemma prefix_empty (s : string) : String.prefix EmptyString s = true.
Proof. now destruct s. Qed.

Lemma prefix_append_r (sub s q : string) :
  String.prefix sub s = true → String.prefix sub (s +:+ q) = true.
Proof.
  revert s. induction sub as [|c sub IH]; intros s H; [apply prefix_empty |].
  destruct s as [|d s]; [discriminate |].
  rewrite append_cons. simpl in *.
  destruct (ascii_dec c d); [now apply IH | discriminate].
Qed.



Lemma contains_cons (sub : string) (c : ascii) (s : string) :
  contains sub (String c s) = String.prefix sub (String c s) || contains sub s.
Proof. reflexivity. Qed.

Lemma contains_prefix (sub s : string) :
  String.prefix sub s = true → contains sub s = true.
Proof. intros H. destruct s; cbn [contains]; rewrite H; reflexivity. Qed.

Lemma contains_append_l (sub p s : string) :
  contains sub s = true → contains sub (p +:+ s) = true.
Proof.
  intros H. induction p as [|c p IH]; [exact H |].
  rewrite append_cons, contains_cons, IH. apply orb_true_r.
Qed.

Lemma contains_append_r (sub s q : string) :
  contains sub s = true → contains sub (s +:+ q) = true.
Proof.
  induction s as [|c s IH]; intros H.
  - cbn [contains] in H. rewrite orb_false_r in H.
    apply contains_prefix. now apply (prefix_append_r sub EmptyString q).
  - rewrite append_cons, contains_cons. rewrite contains_cons in H.
    apply orb_true_iff in H as [H | H].
    + apply (prefix_append_r _ _ q) in H. rewrite append_cons in H.
      now rewrite H.
    + rewrite (IH H). apply orb_true_r.
Qed.



Lemma contains_trans (a s out : string) :
  contains a s = true → ∀ pre post, out = pre +:+ s +:+ post →
  contains a out = true.
Proof.
  intros H pre post ->. now apply contains_append_l, contains_append_r.
Qed.







(** ** Finalizing a task *)


Lemma success_update_task (res : completed) (task : Task) (cmd_args : list string) :
  success (update_task res task cmd_args)
  = (returncode res =? 0) || success task.
Proof.
  unfold update_task. cbv zeta.
  destruct (returncode res =? 0); simpl;
    repeat match goal with |- context [if ?b then _ else _] => destruct b end;
    reflexivity.
Qed.

Lemma command_update_task (res : completed) (task : Task) (cmd_args : list string) :
  command (update_task res task cmd_args) = Some (get_process_command cmd_args).
Proof.
  unfold update_task. cbv zeta.
  repeat match goal with |- context [if ?b then _ else _] => destruct b end;
    reflexivity.
Qed.

Lemma store_set_store_eq (st : sched) (r : ref) (t : Task) :
  store (set_store st r t) r = t.
Proof. simpl. now rewrite Nat.eqb_refl. Qed.

Lemma store_set_store_ne (st : sched) (r r' : ref) (t : Task) :
  r' ≠ r → store (set_store st r t) r' = store st r'.
Proof. intros H. simpl. now apply Nat.eqb_neq in H as ->. Qed.



(** ** The command line *)

Lemma get_process_command_fold (cmd_args : list string) :
  get_process_command cmd_args = snd (fold_left command_step cmd_args (O, EmptyString)).
Proof. reflexivity. Qed.

Lemma fst_fold_command_step (l : list string) :
  ∀ acc, fst (fold_left command_step l acc) = (fst acc + length l)%nat.
Proof.
  induction l as [|a l IH]; intros [i cmd]; simpl; [lia |].
  rewrite IH. simpl. lia.
Qed.

(** Adding a last argument without a space to a non-empty argument list adds
    a space and that argument to the command text. *)
Lemma get_process_command_snoc (cmd_args : list string) (arg : string) :
  cmd_args ≠ [] → contains_char " " arg = false →
  get_process_command (cmd_args ++ [arg])
  = get_process_command cmd_args +:+ " " +:+ arg.
Proof.
  intros Hne Harg. rewrite !get_process_command_fold, fold_left_app.
  pose proof (fst_fold_command_step cmd_args (O, EmptyString)) as Hi.
  destruct (fold_left command_step cmd_args (O, EmptyString)) as [i cmd].
  simpl in Hi. simpl fold_left. unfold command_step. rewrite Harg.
  destruct cmd_args as [|a l]; [congruence |].
  simpl in Hi. subst i. simpl. now rewrite append_assoc.
Qed.

Lemma task_cmd_args_nonempty (c : run_config) (t : Task) : task_cmd_args c t ≠ [].
Proof.
  unfold task_cmd_args.
  destruct (list_truthy (exe_args c)), (list_truthy (args t)); discriminate.
Qed.

(** ** The scheduler *)

Lemma same_view_refl (st : sched) : same_view st st.
Proof. repeat split. Qed.

Lemma same_view_trans (st1 st2 st3 : sched) :
  same_view st1 st2 → same_view st2 st3 → same_view st1 st3.
Proof.
  intros (?&?&?&?&?) (?&?&?&?&?). repeat split; congruence.
Qed.

Lemma same_view_count_poll (st : sched) : same_view st (count_poll st).
Proof. repeat split. Qed.

Lemma printed_app (tr1 tr2 : list event) :
  printed (tr1 ++ tr2) = printed tr1 ++ printed tr2.
Proof. apply omap_app. Qed.

Lemma popens_app (tr1 tr2 : list event) :
  popens (tr1 ++ tr2) = popens tr1 ++ popens tr2.
Proof. apply omap_app. Qed.

Lemma printed_snoc_popen (tr : list event) pid a :
  printed (tr ++ [EvPopen pid a]) = printed tr.
Proof. rewrite printed_app. apply app_nil_r. Qed.

Lemma popens_snoc_popen (tr : list event) pid a :
  popens (tr ++ [EvPopen pid a]) = popens tr ++ [(pid, a)].
Proof. now rewrite popens_app. Qed.

Lemma printed_snoc_print (tr : list event) r text :
  printed (tr ++ [EvPrint r text]) = printed tr ++ [r].
Proof. now rewrite printed_app. Qed.

Lemma popens_snoc_print (tr : list event) r text :
  popens (tr ++ [EvPrint r text]) = popens tr.
Proof. rewrite popens_app. apply app_nil_r. Qed.

Lemma same_view_emit (st : sched) (e : event) :
  printed [e] = [] → popens [e] = [] → same_view st (emit st e).
Proof.
  intros Hp Ho. repeat split; simpl.
  - now rewrite printed_app, Hp, app_nil_r.
  - now rewrite popens_app, Ho, app_nil_r.
Qed.

Lemma pending_cons_None (ps : list slot) : pending (None :: ps) = pending ps.
Proof. reflexivity. Qed.

Lemma pending_cons_Some (ps : list slot) x : pending (Some x :: ps) = x :: pending ps.
Proof. reflexivity. Qed.

Lemma pending_replicate_None (n : nat) : pending (replicate n None) = [].
Proof. induction n as [|n IH]; [reflexivity | exact IH]. Qed.

Lemma pending_insert_None (ps : list slot) :
  ∀ (i : nat) x, ps !! i = Some (Some x) →
    pending ps ≡ₚ x :: pending (<[i := None]> ps).
Proof.
  induction ps as [|sl ps IH]; intros [|i] x H; simpl in H; simplify_eq.
  - reflexivity.
  - change (<[S i := None]> (sl :: ps)) with (sl :: <[i := None]> ps).
    destruct sl as [y|].
    + rewrite !pending_cons_Some, (IH i x H). apply perm_swap.
    + rewrite !pending_cons_None. now apply IH.
Qed.

Lemma pending_insert_Some (ps : list slot) :
  ∀ (i : nat) x, ps !! i = Some None →
    pending (<[i := Some x]> ps) ≡ₚ x :: pending ps.
Proof.
  induction ps as [|sl ps IH]; intros [|i] x H; simpl in H; simplify_eq.
  - reflexivity.
  - change (<[S i := Some x]> (sl :: ps)) with (sl :: <[i := Some x]> ps).
    destruct sl as [y|].
    + rewrite !pending_cons_Some, (IH i x H). apply perm_swap.
    + rewrite !pending_cons_None. now apply IH.
Qed.

Section Scheduler.
Variables (w : world) (c : run_config) (tasks : list ref) (store0 : ref → Task).
Hypothesis tasks_NoDup : NoDup tasks.

Let inv := sched_inv w c tasks store0.

Lemma inv_same_view k pend st st' :
  same_view st st' → inv k pend st → inv k pend st'.
Proof.
  intros (Hs & _ & Hst & Hp & Ho) [I1 I2 I3 I4 I5].
  split; rewrite ?Hs, ?Hst, ?Hp, ?Ho; assumption.
Qed.

Lemma inv_perm_pend k pend pend' st :
  pend ≡ₚ pend' → inv k pend st → inv k pend' st.
Proof.
  intros Hperm [I1 I2 I3 I4 I5]. split; try assumption.
  - now rewrite <- Hperm.
  - now rewrite <- Hperm.
Qed.

Lemma inv_not_printed k pend st x :
  inv k (x :: pend) st → slot_task x ∉ printed (trace st).
Proof.
  intros [_ _ I3 _ _].
  assert (Hnd : NoDup (take k tasks))
    by (eapply sublist_NoDup; [exact tasks_NoDup | apply sublist_take]).
  rewrite <- I3 in Hnd. simpl in Hnd.
  apply NoDup_cons in Hnd as [Hni _].
  intros Hin. apply Hni. apply elem_of_app. now right.
Qed.

(** Finalizing a pending process keeps the invariant. *)
Lemma inv_finalize k pend st x :
  inv k (x :: pend) st → inv k pend (wait_and_update_task w (Some x) st).
Proof.
  intros Hinv. pose proof (inv_not_printed _ _ _ _ Hinv) as Hnp.
  destruct Hinv as [I1 I2 I3 I4 I5].
  destruct x as [[pid r] ca]. unfold slot_task in Hnp. simpl in Hnp.
  apply Forall_cons in I2 as [[Hx1 Hx2] I2]. unfold slot_task in Hx1, Hx2.
  simpl in Hx1, Hx2.
  unfold wait_and_update_task.
  split; simpl.
  - exact I1.
  - exact I2.
  - rewrite printed_app. simpl. rewrite <- I3. simpl.
    rewrite (Permutation_app_comm (printed (trace st)) [r]). simpl.
    now rewrite Permutation_middle.
  - intros i r' Hi. rewrite printed_app. simpl.
    destruct (Nat.eqb_spec r' r) as [-> | Hne].
    + rewrite bool_decide_eq_true_2 by (apply elem_of_app; right; apply list_elem_of_here).
      assert (i = pid) as -> by (eapply NoDup_lookup; eauto).
      unfold final_task. rewrite (I4 _ _ Hi).
      rewrite bool_decide_eq_false_2 by exact Hnp. now rewrite Hx2.
    + rewrite (I4 _ _ Hi). 
      destruct (decide (r' ∈ printed (trace st))) as [Hin | Hnin].
      * rewrite !bool_decide_eq_true_2; [reflexivity | | assumption].
        apply elem_of_app. now left.
      * rewrite !bool_decide_eq_false_2; [reflexivity | | assumption].
        rewrite elem_of_app, list_elem_of_singleton. tauto.
  - now rewrite popens_app, app_nil_r.
Qed.

Lemma processes_wait_and_update_task sl st :
  processes (wait_and_update_task w sl st) = processes st.
Proof. destruct sl as [[[pid r] ca]|]; reflexivity. Qed.

(** One pass over the slots either finds no slot, having polled each of
    them, or clears the slot it returns. *)
Lemma scan_slots_spec rest :
  ∀ idx st, drop idx (processes st) = rest →
    match scan_slots w rest idx st with
    | (Some i, st') =>
        ∃ st1 sl, same_view st st1 ∧ processes st !! i = Some sl
                  ∧ st' = cleared w st1 i sl
    | (None, st') =>
        same_view st st' ∧ polls st' = (polls st + length rest)%nat
    end.
Proof.
  induction rest as [|sl rest IH]; intros idx st Hdrop; simpl.
  - split; [apply same_view_refl | lia].
  - assert (Hsl : processes st !! idx = Some sl).
    { rewrite <- (Nat.add_0_r idx), <- lookup_drop, Hdrop. reflexivity. }
    assert (Hrest : drop (S idx) (processes st) = rest).
    { erewrite drop_S in Hdrop by exact Hsl. congruence. }
    destruct sl as [[[pid r] ca]|].
    + destruct (poll w (polls st) pid).
      * exists (count_poll st), (Some (pid, r, ca)).
        split; [apply same_view_count_poll | split; [exact Hsl | reflexivity]].
      * specialize (IH (S idx) (count_poll st) Hrest).
        destruct (scan_slots w rest (S idx) (count_poll st)) as [[i|] st'].
        -- destruct IH as (st1 & sl & Hv & Hl & ->).
           exists st1, sl. split; [| split; [exact Hl | reflexivity]].
           eapply same_view_trans; [apply same_view_count_poll | exact Hv].
        -- destruct IH as [Hv Hp]. split.
           ++ eapply same_view_trans; [apply same_view_count_poll | exact Hv].
           ++ rewrite Hp. simpl. lia.
    + exists st, None. split; [apply same_view_refl |].
      split; [exact Hsl | reflexivity].
Qed.

Section Liveness.
Variable B : nat.
Hypothesis poll_live : ∀ n pid, (B <= n)%nat → poll w n pid = true.

(** Once every process has exited, a pass over a non-empty list of
    slots returns one. *)
Lemma scan_slots_live sl rest idx st :
  (B <= polls st)%nat → fst (scan_slots w (sl :: rest) idx st) ≠ None.
Proof.
  intros HB. simpl. destruct sl as [[[pid r] ca]|]; [| discriminate].
  rewrite poll_live by exact HB. discriminate.
Qed.

Lemma wait_for_available_process_spec fuel :
  ∀ st, processes st ≠ [] → (1 <= fuel)%nat → (B + 1 <= fuel + polls st)%nat →
    ∃ i st1 sl,
      wait_for_available_process fuel w st = Some (i, cleared w st1 i sl)
      ∧ same_view st st1 ∧ processes st !! i = Some sl.
Proof.
  induction fuel as [|fuel IH]; intros st Hne Hf HB; [lia |].
  simpl.
  pose proof (scan_slots_spec (processes st) 0 st (drop_0 _)) as Hscan.
  destruct (scan_slots w (processes st) 0 st) as [[i|] st'] eqn:Hs.
  - destruct Hscan as (st1 & sl & Hv & Hl & ->).
    exists i, st1, sl. split; [reflexivity | split; [exact Hv | exact Hl]].
  - destruct Hscan as [Hv Hp].
    destruct (processes st) as [|sl rest] eqn:Hps; [congruence |].
    assert (Hlt : (polls st < B)%nat).
    { destruct (Nat.lt_ge_cases (polls st) B) as [H | H]; [exact H |].
      pose proof (scan_slots_live sl rest 0 st H) as Hl.
      rewrite Hs in Hl. simpl in Hl. congruence. }
    simpl in Hp.
    assert (Hv' : same_view st (emit st' EvSleep)).
    { eapply same_view_trans; [exact Hv |]. now apply same_view_emit. }
    destruct (IH (emit st' EvSleep)) as (i & st1 & sl' & Hw & Hv1 & Hl).
    + destruct Hv' as (_ & -> & _). rewrite Hps. discriminate.
    + lia.
    + simpl. lia.
    + exists i, st1, sl'. split; [exact Hw |].
      split; [eapply same_view_trans; eassumption |].
      destruct Hv' as (_ & Hpr & _). rewrite Hpr, Hps in Hl. exact Hl.
Qed.
End Liveness.

(** Clearing a slot keeps the invariant and leaves the slot empty. *)
Lemma inv_cleared k st st1 i sl :
  same_view st st1 → processes st !! i = Some sl →
  inv k (pending (processes st)) st →
  inv k (pending (processes (cleared w st1 i sl))) (cleared w st1 i sl)
  ∧ processes (cleared w st1 i sl) !! i = Some None
  ∧ length (processes (cleared w st1 i sl)) = length (processes st).
Proof.
  intros Hv Hl Hinv.
  pose proof Hv as (_ & Hps & _).
  apply (inv_same_view _ _ _ _ Hv) in Hinv.
  unfold cleared. cbv zeta. simpl processes.
  rewrite processes_wait_and_update_task, Hps.
  split; [| split].
  - destruct sl as [x|].
    + eapply inv_perm_pend in Hinv; [| apply (pending_insert_None _ i x Hl)].
      apply inv_finalize in Hinv.
      destruct Hinv as [I1 I2 I3 I4 I5]. split; assumption.
    + rewrite list_insert_id by exact Hl. simpl.
      destruct Hinv as [I1 I2 I3 I4 I5]. split; assumption.
  - apply list_lookup_insert_eq. apply lookup_lt_is_Some_1. eexists; exact Hl.
  - apply length_insert.
Qed.

Lemma task_not_in_take k task :
  tasks !! k = Some task → task ∉ take k tasks.
Proof.
  intros Hk Hin. apply elem_of_take in Hin as (i & Hi & Hlt).
  pose proof (NoDup_lookup _ _ _ _ tasks_NoDup Hk Hi). lia.
Qed.

Lemma inv_store_unspawned k pend st task :
  tasks !! k = Some task → inv k pend st → store st task = store0 task.
Proof.
  intros Hk [_ _ I3 I4 _]. rewrite (I4 _ _ Hk).
  rewrite bool_decide_eq_false_2; [reflexivity |].
  intros Hin. apply (task_not_in_take _ _ Hk). rewrite <- I3.
  apply elem_of_app. now right.
Qed.

(** Starting the process of the next task in an empty slot. *)
Lemma inv_spawn k st i task :
  tasks !! k = Some task → processes st !! i = Some None →
  inv k (pending (processes st)) st →
  let x := (spawned st, task, task_cmd_args c (store0 task)) in
  let st' :=
    set_processes
      (count_spawn (emit st (EvPopen (spawned st) (snd x ++ ["--nousage"]))))
      (<[i := Some x]> (processes st)) in
  inv (S k) (pending (processes st')) st'.
Proof.
  intros Hk Hi Hinv x st'.
  eapply inv_perm_pend; [symmetry; apply (pending_insert_Some _ i x Hi) |].
  destruct Hinv as [I1 I2 I3 I4 I5]. subst st' x. split; simpl.
  - now rewrite I1.
  - apply Forall_cons. split; [| exact I2].
    unfold slot_ok, slot_task. simpl.
    split; [rewrite I1; exact Hk | reflexivity].
  - rewrite printed_snoc_popen, (take_S_r _ _ _ Hk).
    unfold slot_task at 1. simpl. rewrite I3.
    apply Permutation_cons_append.
  - intros j r Hj. rewrite printed_snoc_popen. now apply I4.
  - rewrite popens_snoc_popen, I5, (take_S_r _ _ _ Hk), imap_app. simpl.
    assert (Hlen : length (take k tasks) = k).
    { apply length_take_le, Nat.lt_le_incl, lookup_lt_is_Some_1. eexists; exact Hk. }
    rewrite Hlen, I1, Nat.add_0_r. reflexivity.
Qed.

Section Run.
Variables (B fuel : nat).
Hypothesis poll_live : ∀ n pid, (B <= n)%nat → poll w n pid = true.
Hypothesis fuel_enough : (B < fuel)%nat.

Lemma spawn_task_spec k sec st task :
  tasks !! k = Some task → processes st ≠ [] →
  inv k (pending (processes st)) st →
  ∃ sec' st',
    spawn_task fuel w c (Some (sec, st)) task = Some (sec', st')
    ∧ inv (S k) (pending (processes st')) st'
    ∧ length (processes st') = length (processes st).
Proof.
  intros Hk Hne Hinv. unfold spawn_task.
  destruct (wait_for_available_process_spec B poll_live fuel st Hne
              ltac:(lia) ltac:(lia)) as (i & st1 & sl & -> & Hv & Hl).
  destruct (inv_cleared k st st1 i sl Hv Hl Hinv) as (Hinv1 & Hnone & Hlen).
  set (stc := cleared w st1 i sl) in *.
  rewrite (inv_store_unspawned _ _ _ _ Hk Hinv1).
  set (st2 := if bool_decide (section (store0 task) ≠ sec)
              then (section (store0 task),
                    emit stc (EvStatus (TASK_SECTION_FORMAT
                                (str_of_section (section (store0 task))))
                                LOG_COLOR_CYAN))
              else (sec, stc)).
  assert (Hv2 : same_view stc (snd st2)).
  { unfold st2. destruct (bool_decide _); simpl;
      [now apply same_view_emit | apply same_view_refl]. }
  destruct st2 as [sec1 stc2]. simpl in Hv2.
  pose proof Hv2 as (_ & Hps2 & _).
  apply (inv_same_view _ _ _ _ Hv2) in Hinv1. rewrite <- Hps2 in Hinv1, Hnone.
  eexists _, _. split; [reflexivity |]. split.
  - exact (inv_spawn k stc2 i task Hk Hnone Hinv1).
  - simpl. rewrite length_insert. congruence.
Qed.

Lemma spawn_tasks_spec rest :
  ∀ k sec st, drop k tasks = rest → (k <= length tasks)%nat →
    processes st ≠ [] →
    inv k (pending (processes st)) st →
    ∃ sec' st',
      fold_left (spawn_task fuel w c) rest (Some (sec, st)) = Some (sec', st')
      ∧ inv (length tasks) (pending (processes st')) st'.
Proof.
  induction rest as [|task rest IH]; intros k sec st Hdrop Hle Hne Hinv.
  - simpl. exists sec, st. split; [reflexivity |].
    assert (Hk : (length tasks <= k)%nat).
    { apply drop_nil_inv in Hdrop. exact Hdrop. }
    now replace (length tasks) with k by lia.
  - assert (Hk : tasks !! k = Some task).
    { rewrite <- (Nat.add_0_r k), <- lookup_drop, Hdrop. reflexivity. }
    assert (Hrest : drop (S k) tasks = rest).
    { erewrite drop_S in Hdrop by exact Hk. congruence. }
    destruct (spawn_task_spec k sec st task Hk Hne Hinv)
      as (sec1 & st1 & Hsp & Hinv1 & Hlen).
    cbn [fold_left]. rewrite Hsp.
    apply (IH (S k)); try assumption.
    + apply lookup_lt_is_Some_1. eexists; exact Hk.
    + intros Hnil. apply Hne. destruct (processes st); [reflexivity |].
      rewrite Hnil in Hlen. discriminate.
Qed.

(** Draining the slots at the end of the run. *)
Lemma wait_for_all_spec k rest :
  ∀ st, inv k (pending rest) st →
    inv k [] (fold_left (fun st sl => wait_and_update_task w sl st) rest st).
Proof.
  induction rest as [|sl rest IH]; intros st Hinv; simpl; [exact Hinv |].
  apply IH. destruct sl as [x|].
  - rewrite pending_cons_Some in Hinv. now apply inv_finalize.
  - exact Hinv.
Qed.

Lemma same_view_make_task_directories st :
  same_view st (make_task_directories c tasks st).
Proof.
  unfold make_task_directories. generalize tasks as l. intros l. revert st.
  induction l as [|task l IH]; intros st; [apply same_view_refl |].
  cbn [fold_left]. eapply same_view_trans; [| apply IH].
  now apply same_view_emit.
Qed.

Lemma inv_initial_sched : inv 0 [] (initial_sched c store0).
Proof.
  split; simpl; rewrite ?take_0; try reflexivity. constructor.
Qed.

Hypothesis process_count_pos : 1 <= process_count c.

(** The run reaches the end of its scheduling part, with every task
    finalized. *)
Lemma run_tasks_sched :
  ∃ st, run_tasks fuel w c tasks store0
        = Some (st, collect_tasks c (store st) tasks)
        ∧ inv (length tasks) [] st.
Proof.
  unfold run_tasks. cbv zeta.
  set (st0 := if 1 <? process_count c
              then make_task_directories c tasks (initial_sched c store0)
              else initial_sched c store0).
  assert (Hv : same_view (initial_sched c store0) st0).
  { unfold st0. destruct (1 <? process_count c);
      [apply same_view_make_task_directories | apply same_view_refl]. }
  assert (Hps : processes st0 = replicate (Z.to_nat (process_count c)) None).
  { destruct Hv as (_ & -> & _). reflexivity. }
  destruct (spawn_tasks_spec tasks 0 None st0) as (sec & st1 & -> & Hinv).
  - apply drop_0.
  - lia.
  - rewrite Hps. destruct (Z.to_nat (process_count c)) eqn:E; [lia | discriminate].
  - rewrite Hps, pending_replicate_None.
    eapply inv_same_view; [exact Hv | apply inv_initial_sched].
  - exists (wait_for_all_processes w st1). split; [reflexivity |].
    apply wait_for_all_spec. exact Hinv.
Qed.
End Run.

(** What the invariant says once no process is pending. *)
Lemma inv_final st :
  inv (length tasks) [] st →
  printed (trace st) ≡ₚ tasks
  ∧ (∀ i r, tasks !! i = Some r → store st r = final_task w c store0 i r)
  ∧ popens (trace st) = imap (spawn_record c store0) tasks.
Proof.
  intros [_ _ I3 I4 I5]. rewrite firstn_all in I3, I5. simpl in I3.
  split; [exact I3 | split; [| exact I5]].
  intros i r Hi. rewrite (I4 _ _ Hi).
  rewrite bool_decide_eq_true_2; [reflexivity |].
  rewrite I3. eapply list_elem_of_lookup_2, Hi.
Qed.
End Scheduler.

(** ** Collecting the results of a run *)

Lemma append_at_Ret (l : list string) (i : nat) (text : string) :
  (i < length l)%nat →
  ∃ l', append_at l i text = Ret l' ∧ length l' = length l.
Proof.
  intros Hi. unfold append_at.
  destruct (lookup_lt_is_Some_2 l i Hi) as [old ->].
  eexists. split; [reflexivity | apply length_insert].
Qed.

Lemma collect_task_Ret (c : run_config) (store : ref → Task)
    (sec : option string) (r : collected) (task : ref) :
  (csv_index (store task) < length (logs r))%nat →
  (csv_index (store task) < length (results r))%nat →
  command (store task) ≠ None →
  ∃ sec' lg rs,
    collect_task c store (Ret (sec, r)) task
    = Ret (sec',
           {| complete_tasks :=
                complete_tasks r ++ (if success (store task) then [task] else []);
              failed_tasks :=
                failed_tasks r ++ (if success (store task) then [] else [task]);
              logs := lg; results := rs |})
    ∧ length lg = length (logs r) ∧ length rs = length (results r).
Proof.
  intros Hl Hr Hc. unfold collect_task. simpl.
  destruct (command (store task)) as [cmd|] eqn:Hcmd; [| congruence].
  assert (Hcomplete :
    (if success (store task) then complete_tasks r ++ [task] else complete_tasks r)
    = complete_tasks r ++ (if success (store task) then [task] else [])).
  { destruct (success (store task)); [reflexivity | now rewrite app_nil_r]. }
  assert (Hfailed :
    (if success (store task) then failed_tasks r else failed_tasks r ++ [task])
    = failed_tasks r ++ (if success (store task) then [] else [task])).
  { destruct (success (store task)); [now rewrite app_nil_r | reflexivity]. }
  rewrite Hcomplete, Hfailed.
  unfold get_log. rewrite Hcmd.
  destruct (bool_decide (section (store task) ≠ sec)).
  - destruct (append_at_Ret (logs r) (csv_index (store task))
                (TASK_SECTION_FORMAT (str_of_section (section (store task)))
                 +:+ String LF EmptyString) Hl) as (lg1 & -> & Hlg1).
    destruct (append_at_Ret (results r) (csv_index (store task))
                (TASK_SECTION_FORMAT (str_of_section (section (store task)))
                 +:+ String LF EmptyString) Hr) as (rs1 & -> & Hrs1).
    simpl.
    destruct (append_at_Ret lg1 (csv_index (store task))
                ((cmd +:+ format_output (store task) None None)
                 +:+ String LF EmptyString) ltac:(lia)) as (lg2 & -> & Hlg2).
    simpl.
    destruct (append_at_Ret rs1 (csv_index (store task))
                (get_result (store task) (in_path c) (out_path c)
                 +:+ String LF EmptyString) ltac:(lia)) as (rs2 & -> & Hrs2).
    simpl. eexists _, lg2, rs2. split; [reflexivity | lia].
  - simpl.
    destruct (append_at_Ret (logs r) (csv_index (store task))
                ((cmd +:+ format_output (store task) None None)
                 +:+ String LF EmptyString) Hl) as (lg2 & -> & Hlg2).
    simpl.
    destruct (append_at_Ret (results r) (csv_index (store task))
                (get_result (store task) (in_path c) (out_path c)
                 +:+ String LF EmptyString) Hr) as (rs2 & -> & Hrs2).
    simpl. eexists _, lg2, rs2. split; [reflexivity | lia].
Qed.

Lemma collect_fold_Ret (c : run_config) (store : ref → Task) (tasks : list ref) :
  ∀ sec r,
    (∀ t, t ∈ tasks → (csv_index (store t) < length (logs r))%nat
                      ∧ (csv_index (store t) < length (results r))%nat
                      ∧ command (store t) ≠ None) →
    ∃ sec' lg rs,
      fold_left (collect_task c store) tasks (Ret (sec, r))
      = Ret (sec',
             {| complete_tasks :=
                  complete_tasks r ++ filter (λ t, success (store t) = true) tasks;
                failed_tasks :=
                  failed_tasks r ++ filter (λ t, ¬ success (store t) = true) tasks;
                logs := lg; results := rs |}).
Proof.
  induction tasks as [|task tasks IH]; intros sec r Hok.
  - simpl. exists sec, (logs r), (results r).
    rewrite !app_nil_r. now destruct r.
  - cbn [fold_left].
    destruct (Hok task (list_elem_of_here _ _)) as (Hl & Hr & Hc).
    destruct (collect_task_Ret c store sec r task Hl Hr Hc)
      as (sec1 & lg1 & rs1 & -> & Hlg & Hrs).
    edestruct (IH sec1) as (sec2 & lg2 & rs2 & ->).
    + intros t Ht. simpl. rewrite Hlg, Hrs. apply Hok. now apply list_elem_of_further.
    + exists sec2, lg2, rs2. simpl. f_equal. f_equal.
      rewrite !filter_cons.
      destruct (success (store task)) eqn:Hs.
      * rewrite decide_True by reflexivity.
        rewrite decide_False by (intros H; now apply H).
        rewrite <- !app_assoc. reflexivity.
      * rewrite decide_False by discriminate.
        rewrite decide_True by discriminate.
        rewrite <- !app_assoc. reflexivity.
Qed.

(** The last loop returns, with the tasks split by their [success] flag,
    when every task has a command and an index within the per-list texts. *)
Lemma collect_tasks_Ret (c : run_config) (store : ref → Task) (tasks : list ref) :
  (∀ t, t ∈ tasks → (csv_index (store t) < csv_count c)%nat
                    ∧ command (store t) ≠ None) →
  ∃ lg rs,
    collect_tasks c store tasks
    = Ret {| complete_tasks := filter (λ t, success (store t) = true) tasks;
             failed_tasks := filter (λ t, ¬ success (store t) = true) tasks;
             logs := lg; results := rs |}.
Proof.
  intros Hok. unfold collect_tasks.
  edestruct (collect_fold_Ret c store tasks None) as (sec & lg & rs & ->).
  - intros t Ht. simpl. rewrite !length_replicate.
    destruct (Hok t Ht). auto.
  - exists lg, rs. reflexivity.
Qed.

Lemma csv_index_update_task (res : completed) (task : Task) (cmd_args : list string) :
  csv_index (update_task res task cmd_args) = csv_index task.
Proof.
  unfold update_task. cbv zeta.
  repeat match goal with |- context [if ?b then _ else _] => destruct b end;
    reflexivity.
Qed.

(** ** Results of a run *)

(** C4: a run over distinct tasks that have not succeeded before, whose
    processes all exit, returns; every task is echoed (finalized) exactly
    once; a task is returned as complete exactly when the exit code of its
    process is zero and as failed exactly when it is not; no task is in both
    lists, and the two lists together are the tasks given. *)
Theorem C4_run_tasks_partition (w : world) (c : run_config) (tasks : list ref)
    (store0 : ref → Task) (B fuel : nat) :
  NoDup tasks →
  (∀ t, t ∈ tasks → success (store0 t) = false) →
  (∀ t, t ∈ tasks → (csv_index (store0 t) < csv_count c)%nat) →
  1 <= process_count c →
  (∀ n pid, (B <= n)%nat → poll w n pid = true) →
  (B < fuel)%nat →
  ∃ st r,
    run_tasks fuel w c tasks store0 = Some (st, Ret r)
    ∧ printed (trace st) ≡ₚ tasks
    ∧ (∀ i t, tasks !! i = Some t →
         (success (store st t) = true ↔ returncode (communicate w i) = 0)
         ∧ (t ∈ complete_tasks r ↔ returncode (communicate w i) = 0)
         ∧ (t ∈ failed_tasks r ↔ returncode (communicate w i) ≠ 0))
    ∧ (∀ t, t ∈ complete_tasks r → t ∉ failed_tasks r)
    ∧ complete_tasks r ++ failed_tasks r ≡ₚ tasks.
Proof.
  intros Hnd Hfresh Hcsv Hpc Hlive Hfuel.
  destruct (run_tasks_sched w c tasks store0 Hnd B fuel Hlive Hfuel Hpc)
    as (st & Hrun & Hinv).
  destruct (inv_final w c tasks store0 st Hinv) as (Hperm & Hstore & _).
  assert (Hsucc : ∀ i t, tasks !! i = Some t →
            (success (store st t) = true ↔ returncode (communicate w i) = 0)).
  { intros i t Hi. rewrite (Hstore _ _ Hi). unfold final_task.
    rewrite success_update_task, (Hfresh t) by (eapply list_elem_of_lookup_2, Hi).
    rewrite orb_false_r. apply Z.eqb_eq. }
  destruct (collect_tasks_Ret c (store st) tasks) as (lg & rs & Hcol).
  { intros t Ht. apply list_elem_of_lookup_1 in Ht as Hi. destruct Hi as [i Hi].
    rewrite (Hstore _ _ Hi). unfold final_task.
    rewrite csv_index_update_task, command_update_task.
    split; [now apply Hcsv | discriminate]. }
  rewrite Hcol in Hrun.
  eexists st, _. split; [exact Hrun |]. simpl.
  split; [exact Hperm |]. split; [| split].
  - intros i t Hi. pose proof (Hsucc i t Hi) as Hs.
    pose proof (list_elem_of_lookup_2 _ _ _ Hi) as Ht.
    rewrite !list_elem_of_filter. tauto.
  - intros t. rewrite !list_elem_of_filter. tauto.
  - apply filter_app_complement.
Qed.

Lemma append_nonempty_neq (s t : string) : t ≠ EmptyString → s ≠ s +:+ t.
Proof.
  intros Ht Heq. apply (f_equal String.length) in Heq.
  rewrite length_append in Heq. destruct t; [congruence | simpl in Heq; lia].
Qed.

(** C9: in a run over distinct tasks whose processes all exit, the processes
    started are those of the tasks, in order; the argument list of each ends
    with the flag --nousage, while the command recorded on the task is the
    text of the argument list without the flag, so that the recorded command
    followed by a space and the flag is the text of what was executed, and
    is a strict prefix of it. *)
Theorem C9_logged_command_prefix (w : world) (c : run_config)
    (tasks : list ref) (store0 : ref → Task) (B fuel : nat) :
  NoDup tasks →
  1 <= process_count c →
  (∀ n pid, (B <= n)%nat → poll w n pid = true) →
  (B < fuel)%nat →
  ∃ st o,
    run_tasks fuel w c tasks store0 = Some (st, o)
    ∧ length (popens (trace st)) = length tasks
    ∧ ∀ i t, tasks !! i = Some t →
        ∃ cmd_args,
          let args := cmd_args ++ ["--nousage"] in
          popens (trace st) !! i = Some (i, args)
          ∧ last args = Some "--nousage"
          ∧ command (store st t) = Some (get_process_command cmd_args)
          ∧ get_process_command args
            = get_process_command cmd_args +:+ " --nousage"
          ∧ String.prefix (get_process_command cmd_args)
                          (get_process_command args) = true
          ∧ get_process_command cmd_args ≠ get_process_command args.
Proof.
  intros Hnd Hpc Hlive Hfuel.
  destruct (run_tasks_sched w c tasks store0 Hnd B fuel Hlive Hfuel Hpc)
    as (st & Hrun & Hinv).
  destruct (inv_final w c tasks store0 st Hinv) as (_ & Hstore & Hpop).
  exists st, (collect_tasks c (store st) tasks).
  split; [exact Hrun |]. split; [now rewrite Hpop, length_imap |].
  intros i t Hi. exists (task_cmd_args c (store0 t)). cbv zeta.
  assert (Hsnoc := get_process_command_snoc (task_cmd_args c (store0 t))
                     "--nousage" (task_cmd_args_nonempty c (store0 t)) eq_refl).
  split; [| split; [| split; [| split; [| split]]]].
  - rewrite Hpop, list_lookup_imap, Hi. reflexivity.
  - apply last_snoc.
  - rewrite (Hstore _ _ Hi). apply command_update_task.
  - exact Hsnoc.
  - rewrite Hsnoc. apply prefix_append.
  - rewrite Hsnoc. now apply append_nonempty_neq.
Qed.

(** ** Tag dictionaries *)

Lemma lookup_add_in_dictionary (d : gmap string Z) (key k : string) (value : Z) :
  add_in_dictionary d key value !! k
  = if decide (key = k)
    then Some (match d !! key with Some v => v + value | None => value end)
    else d !! k.
Proof.
  unfold add_in_dictionary.
  destruct (d !! key) as [v|] eqn:Hd; rewrite lookup_insert; reflexivity.
Qed.

Lemma lookup_fold_add_entry (l : list (string * Z)) :
  ∀ (d : gmap string Z) (k : string), NoDup l.*1 →
    fold_left add_entry l d !! k
    = match (list_to_map l : gmap string Z) !! k with
      | Some v => Some (match d !! k with Some a => a + v | None => v end)
      | None => d !! k
      end.
Proof.
  induction l as [|[k0 v0] l IH]; intros d k Hnd; simpl.
  - now rewrite lookup_empty.
  - apply NoDup_cons in Hnd as [Hni Hnd].
    rewrite IH by exact Hnd. unfold add_entry. simpl.
    rewrite lookup_add_in_dictionary, lookup_insert.
    destruct (decide (k0 = k)) as [-> | Hne].
    + rewrite (not_elem_of_list_to_map_1 _ _ Hni). reflexivity.
    + reflexivity.
Qed.

(** Adding the entries of a dictionary one by one, in the order of
    [map_to_list], gives the entrywise sum. *)
Lemma fold_add_entry_dict_add (d m : gmap string Z) :
  fold_left add_entry (map_to_list m) d = dict_add d m.
Proof.
  apply map_eq. intros k.
  rewrite lookup_fold_add_entry by apply NoDup_fst_map_to_list.
  rewrite list_to_map_to_list. unfold dict_add.
  rewrite lookup_union_with.
  destruct (m !! k), (d !! k); reflexivity.
Qed.

Lemma dict_add_comm (d m : gmap string Z) : dict_add d m = dict_add m d.
Proof.
  apply map_eq. intros k. unfold dict_add. rewrite !lookup_union_with.
  destruct (d !! k), (m !! k); simpl; f_equal; lia.
Qed.

Lemma dict_add_assoc (d m n : gmap string Z) :
  dict_add (dict_add d m) n = dict_add d (dict_add m n).
Proof.
  apply map_eq. intros k. unfold dict_add. rewrite !lookup_union_with.
  destruct (d !! k), (m !! k), (n !! k); simpl; f_equal; lia.
Qed.

Lemma foldr_add_Permutation (l l' : list Z) :
  l ≡ₚ l' → foldr Z.add 0 l = foldr Z.add 0 l'.
Proof.
  induction 1 as [|x l l' _ IH|x y l|l l' l'' _ IH1 _ IH2]; cbn [foldr].
  - reflexivity.
  - now rewrite IH.
  - generalize (foldr Z.add 0 l). intros s. lia.
  - now rewrite IH1.
Qed.

Lemma dict_sum_empty : dict_sum ∅ = 0.
Proof. unfold dict_sum. now rewrite map_to_list_empty. Qed.

Lemma dict_sum_insert_fresh (d : gmap string Z) (k : string) (v : Z) :
  d !! k = None → dict_sum (<[k := v]> d) = v + dict_sum d.
Proof.
  intros Hk. unfold dict_sum.
  rewrite (foldr_add_Permutation _ (v :: (map_to_list d).*2)); [reflexivity |].
  now rewrite map_to_list_insert.
Qed.

Lemma dict_sum_add_in_dictionary (d : gmap string Z) (key : string) (value : Z) :
  dict_sum (add_in_dictionary d key value) = dict_sum d + value.
Proof.
  unfold add_in_dictionary. destruct (d !! key) as [a|] eqn:Hd.
  - rewrite <- (insert_delete_id d key a Hd) at 2.
    rewrite <- insert_delete_eq.
    rewrite !dict_sum_insert_fresh by apply lookup_delete_eq. lia.
  - rewrite dict_sum_insert_fresh by exact Hd. lia.
Qed.

Lemma dict_sum_fold_add_entry (l : list (string * Z)) :
  ∀ d, dict_sum (fold_left add_entry l d) = dict_sum d + foldr Z.add 0 l.*2.
Proof.
  induction l as [|[k v] l IH]; intros d; [simpl; lia |].
  cbn [fold_left]. rewrite IH, fmap_cons. cbn [foldr snd].
  unfold add_entry. cbn [fst snd].
  rewrite dict_sum_add_in_dictionary. lia.
Qed.

Lemma dict_sum_dict_add (d m : gmap string Z) :
  dict_sum (dict_add d m) = dict_sum d + dict_sum m.
Proof.
  rewrite <- fold_add_entry_dict_add, dict_sum_fold_add_entry. reflexivity.
Qed.

Lemma counts_ok_add_in_dictionary (total : Z) (d : gmap string Z)
    (key : string) (value : Z) :
  0 <= value → counts_ok total d →
  counts_ok (total + value) (add_in_dictionary d key value).
Proof.
  intros Hv [Hsum Hpos]. split.
  - rewrite dict_sum_add_in_dictionary. lia.
  - intros tag n. rewrite lookup_add_in_dictionary.
    destruct (decide (key = tag)) as [-> | Hne]; [| apply Hpos].
    intros [= <-]. destruct (d !! tag) as [a|] eqn:Ha; [| exact Hv].
    specialize (Hpos _ _ Ha). lia.
Qed.

Lemma counts_ok_grow (total n : Z) (d : gmap string Z) :
  0 <= n → counts_ok total d → counts_ok (total + n) d.
Proof. intros Hn [Hsum Hpos]. split; [lia | exact Hpos]. Qed.

Lemma counts_ok_dict_add (a b : Z) (d m : gmap string Z) :
  counts_ok a d → counts_ok b m → counts_ok (a + b) (dict_add d m).
Proof.
  intros [Hs1 Hp1] [Hs2 Hp2]. split.
  - rewrite dict_sum_dict_add. lia.
  - intros tag n. unfold dict_add. rewrite lookup_union_with.
    destruct (d !! tag) as [x|] eqn:Hx, (m !! tag) as [y|] eqn:Hy;
      simpl; intros [= <-].
    + specialize (Hp1 _ _ Hx). specialize (Hp2 _ _ Hy). lia.
    + eauto.
    + eauto.
Qed.

(** ** Trackers *)

Lemma fold_add_tag_total (i : nat) (l : list (string * Z)) :
  ∀ self, (i < length (tag_totals self))%nat →
    fold_left (fun self '(tag, plus_total) => add_tag_total self i tag plus_total)
      l self
    = {| totals := totals self;
         tag_totals :=
           <[i := fold_left add_entry l (tag_totals self !!! i)]> (tag_totals self) |}.
Proof.
  induction l as [|[tag n] l IH]; intros self Hi.
  - simpl. rewrite list_insert_id by now apply list_lookup_lookup_total_lt.
    now destruct self.
  - cbn [fold_left]. rewrite IH by (simpl; now rewrite length_insert).
    simpl. rewrite list_lookup_total_insert_eq by exact Hi.
    now rewrite list_insert_insert_eq.
Qed.

(** Merging trackers adds the totals and the dictionaries severity by
    severity. *)
Lemma add_from_tracker_3 (a0 a1 a2 b0 b1 b2 : Z) (d0 d1 d2 e0 e1 e2 : gmap string Z) :
  add_from_tracker (tracker3 a0 a1 a2 d0 d1 d2) (tracker3 b0 b1 b2 e0 e1 e2)
  = tracker3 (a0 + b0) (a1 + b1) (a2 + b2)
             (dict_add d0 e0) (dict_add d1 e1) (dict_add d2 e2).
Proof.
  unfold add_from_tracker, tracker3. cbn [SEVERITY_COUNT seq fold_left].
  rewrite (fold_add_tag_total 0) by (cbn; lia). cbn.
  rewrite (fold_add_tag_total 1) by (cbn; lia). cbn.
  rewrite (fold_add_tag_total 2) by (cbn; lia). cbn.
  now rewrite !fold_add_entry_dict_add.
Qed.

(** A line that carries a tag has one of the three known severities; a line
    without a tag is an error, a warning or unknown. *)
Lemma get_message_tag_cases (line : string) :
  ∃ severity tag,
    get_message_tag line = (severity, tag)
    ∧ ((tag ≠ None ∧ (severity = 0 ∨ severity = 1 ∨ severity = 2))
       ∨ (tag = None ∧ (severity = 2 ∨ severity = 1 ∨ severity = -1))).
Proof.
  unfold get_message_tag.
  destruct (rsearch TAG_REGEX line) as [[[b e] g]|].
  - repeat match goal with |- context [if ?b then _ else _] => destruct b end;
      eexists _, _; (split; [reflexivity |]); left; split;
      try discriminate; unfold SEVERITY_ERROR, SEVERITY_WARN, SEVERITY_INFO; lia.
  - repeat match goal with |- context [if ?b then _ else _] => destruct b end;
      eexists _, _; (split; [reflexivity |]); right; split;
      try reflexivity;
      unfold SEVERITY_ERROR, SEVERITY_WARN, SEVERITY_UNKNOWN; lia.
Qed.

Lemma tracker_ok_init : tracker_ok TagTracker_init.
Proof.
  exists 0, 0, 0, ∅, ∅, ∅. split; [reflexivity |].
  assert (H : counts_ok 0 ∅).
  { split; [now rewrite dict_sum_empty |]. intros tag n. now rewrite lookup_empty. }
  auto.
Qed.

Lemma tracker_ok_add_from_line (t : TagTracker) (line : string) :
  tracker_ok t → tracker_ok (add_from_line t line).
Proof.
  intros (a0 & a1 & a2 & d0 & d1 & d2 & -> & H0 & H1 & H2).
  unfold add_from_line.
  destruct (get_message_tag_cases line) as (sev & tag & -> & Hcases).
  destruct Hcases as [[Htag Hsev] | [-> Hsev]].
  - destruct tag as [tag|]; [| congruence].
    destruct tag as [|ch tag].
    + destruct Hsev as [-> | [-> | ->]]; cbn;
        eexists _, _, _, _, _, _; (split; [reflexivity |]);
        auto using counts_ok_grow with zarith.
    + destruct Hsev as [-> | [-> | ->]]; cbn;
        eexists _, _, _, _, _, _; (split; [reflexivity |]);
        auto using counts_ok_add_in_dictionary with zarith.
  - destruct Hsev as [-> | [-> | ->]]; cbn;
      eexists _, _, _, _, _, _; (split; [reflexivity |]);
      auto using counts_ok_grow with zarith.
Qed.

Lemma tracker_ok_add_from_output (t : TagTracker) (output : string) :
  tracker_ok t → tracker_ok (add_from_output t output).
Proof.
  unfold add_from_output. generalize (splitlines false output) as l.
  intros l. revert t. induction l as [|line l IH]; intros t Ht; [exact Ht |].
  cbn [fold_left]. apply IH. now apply tracker_ok_add_from_line.
Qed.

Lemma tracker_ok_add_from_tracker (t t' : TagTracker) :
  tracker_ok t → tracker_ok t' → tracker_ok (add_from_tracker t t').
Proof.
  intros (a0 & a1 & a2 & d0 & d1 & d2 & -> & H0 & H1 & H2)
         (b0 & b1 & b2 & e0 & e1 & e2 & -> & G0 & G1 & G2).
  rewrite add_from_tracker_3.
  eexists _, _, _, _, _, _. split; [reflexivity |].
  auto using counts_ok_dict_add.
Qed.

Lemma tracker_ok_reachable (t : TagTracker) : reachable t → tracker_ok t.
Proof.
  induction 1 as [|t output _ IH|t t' _ IH _ IH'].
  - apply tracker_ok_init.
  - now apply tracker_ok_add_from_output.
  - now apply tracker_ok_add_from_tracker.
Qed.

(** C10: every tracker built from the empty one by adding output texts and
    merging such trackers keeps its two lists at length 3, and for each of
    the three severities its total is at least the sum of the counts of the
    tags of that severity, and no count is negative. *)
Theorem C10_totals_bound_tag_counts (t : TagTracker) :
  reachable t →
  length (totals t) = 3%nat ∧ length (tag_totals t) = 3%nat
  ∧ ∀ severity : nat, (severity < 3)%nat →
      dict_sum (tag_totals t !!! severity) <= totals t !!! severity
      ∧ ∀ tag n, (tag_totals t !!! severity) !! tag = Some n → 0 <= n.
Proof.
  intros Hr. apply tracker_ok_reachable in Hr.
  destruct Hr as (a0 & a1 & a2 & d0 & d1 & d2 & -> & H0 & H1 & H2).
  split; [reflexivity | split; [reflexivity |]].
  intros severity Hlt.
  destruct severity as [|[|[|n]]]; [exact H0 | exact H1 | exact H2 | lia].
Qed.

(** C6: merging trackers built from output texts is associative and
    commutative: the three ways of merging three of them give the same
    totals and the same tag dictionaries, and so do the two ways of merging
    two. *)
Theorem C6_add_from_tracker_assoc_comm (oa ob oc : string) :
  let A := from_output oa in
  let B := from_output ob in
  let C := from_output oc in
  add_from_tracker (add_from_tracker A B) C
  = add_from_tracker A (add_from_tracker B C)
  ∧ add_from_tracker (add_from_tracker A B) C
    = add_from_tracker (add_from_tracker A C) B
  ∧ add_from_tracker A B = add_from_tracker B A.
Proof.
  intros A B C.
  destruct (tracker_ok_add_from_output _ oa tracker_ok_init)
    as (a0 & a1 & a2 & d0 & d1 & d2 & HA & _).
  destruct (tracker_ok_add_from_output _ ob tracker_ok_init)
    as (b0 & b1 & b2 & e0 & e1 & e2 & HB & _).
  destruct (tracker_ok_add_from_output _ oc tracker_ok_init)
    as (c0 & c1 & c2 & f0 & f1 & f2 & HC & _).
  subst A B C. unfold from_output. rewrite HA, HB, HC.
  rewrite !add_from_tracker_3. unfold tracker3.
  split; [| split].
  - rewrite !dict_add_assoc.
    f_equal; repeat (f_equal; try lia).
  - rewrite !dict_add_assoc, (dict_add_comm e0), (dict_add_comm e1),
      (dict_add_comm e2).
    f_equal; repeat (f_equal; try lia).
  - rewrite (dict_add_comm d0), (dict_add_comm d1), (dict_add_comm d2).
    f_equal; repeat (f_equal; try lia).
Qed.

(** ** Reported paths *)

Lemma contains_char_append (c : ascii) (s t : string) :
  contains_char c (s +:+ t) = contains_char c s || contains_char c t.
Proof.
  induction s as [|d s IH]; [reflexivity |].
  rewrite append_cons. simpl. rewrite IH. now rewrite orb_assoc.
Qed.

Lemma char_eqb_refl (c : ascii) : char_eqb c c = true.
Proof. apply Ascii.eqb_refl. Qed.

Lemma char_eqb_eq (a b : ascii) : char_eqb a b = true ↔ a = b.
Proof. apply Ascii.eqb_eq. Qed.

Lemma replace_from_char (a c : ascii) (new s : string) :
  replace_from (String a EmptyString) new 0 (String c s)
  = if char_eqb a c
    then new +:+ replace_from (String a EmptyString) new 0 s
    else String c (replace_from (String a EmptyString) new 0 s).
Proof.
  cbn [replace_from String.prefix String.length Nat.sub].
  destruct (ascii_dec a c) as [-> | Hne].
  - now rewrite prefix_empty, char_eqb_refl.
  - destruct (char_eqb a c) eqn:E; [| reflexivity].
    now apply char_eqb_eq in E.
Qed.

Lemma replace_char_absent (a : ascii) (new s : string) :
  contains_char a s = false → replace (String a EmptyString) new s = s.
Proof.
  unfold replace. induction s as [|c s IH]; [reflexivity |].
  cbn [contains_char]. intros [Hc Hs]%orb_false_elim.
  now rewrite replace_from_char, Hc, IH.
Qed.

Lemma replace_char_removed (a : ascii) (new s : string) :
  contains_char a new = false →
  contains_char a (replace (String a EmptyString) new s) = false.
Proof.
  intros Hnew. unfold replace. induction s as [|c s IH]; [reflexivity |].
  rewrite replace_from_char. destruct (char_eqb a c) eqn:E.
  - now rewrite contains_char_append, Hnew, IH.
  - cbn [contains_char]. now rewrite E, IH.
Qed.

Lemma length_replace_char (a b : ascii) (s : string) :
  String.length (replace (String a EmptyString) (String b EmptyString) s)
  = String.length s.
Proof.
  unfold replace. induction s as [|c s IH]; [reflexivity |].
  rewrite replace_from_char.
  destruct (char_eqb a c); rewrite ?append_cons, ?append_nil_l;
    cbn [String.length]; now rewrite IH.
Qed.

Lemma replace_char_append (a : ascii) (new s t : string) :
  replace (String a EmptyString) new (s +:+ t)
  = replace (String a EmptyString) new s +:+ replace (String a EmptyString) new t.
Proof.
  unfold replace. induction s as [|c s IH]; [now rewrite !append_nil_l |].
  rewrite append_cons, !replace_from_char, IH.
  destruct (char_eqb a c); [now rewrite append_assoc | now rewrite append_cons].
Qed.

(** [norm_slashes] leaves a path without backslash as it is. *)
Lemma norm_slashes_plain (path : string) :
  contains_char "\" path = false → norm_slashes path = path.
Proof. apply replace_char_absent. Qed.

Lemma norm_slashes_append (s t : string) :
  norm_slashes (s +:+ t) = norm_slashes s +:+ norm_slashes t.
Proof. apply replace_char_append. Qed.

(** A text is cut in one way only into a part, a slash, and a part without
    slash. *)
Lemma slash_split_inj (r r' n n' : string) :
  contains_char "/" n = false → contains_char "/" n' = false →
  r +:+ String "/" n = r' +:+ String "/" n' → r = r' ∧ n = n'.
Proof.
  intros Hn Hn'. revert r'.
  induction r as [|c r IH]; intros [|c' r'] Heq;
    rewrite ?append_cons, ?append_nil_l in Heq.
  - injection Heq as ->. auto.
  - injection Heq as <- ->.
    rewrite contains_char_append in Hn. simpl in Hn.
    now rewrite orb_true_r in Hn.
  - injection Heq as -> <-.
    rewrite contains_char_append in Hn'. simpl in Hn'.
    now rewrite orb_true_r in Hn'.
  - injection Heq as -> Heq. destruct (IH _ Heq) as [-> ->]. auto.
Qed.

Lemma ends_with_slash_append (s t : string) :
  t ≠ EmptyString → ends_with_slash (s +:+ t) = ends_with_slash t.
Proof.
  intros Ht. induction s as [|c s IH]; [reflexivity |].
  rewrite append_cons. simpl. rewrite IH.
  destruct (s +:+ t) eqn:E; [| reflexivity].
  destruct s; [| rewrite append_cons in E; discriminate].
  rewrite append_nil_l in E. congruence.
Qed.

Lemma join_path_one (path name : string) :
  ends_with_slash path = false → join_path path [name] = path +:+ String "/" name.
Proof.
  intros H. unfold join_path. simpl. rewrite H.
  now rewrite append_assoc.
Qed.

(** For a directory path without backslash, only the backslashes of the
    prefix are turned into slashes. *)
Lemma rel_to_root_plain (prefix path : string) :
  contains_char "\" path = false →
  rel_to_root prefix path
  = if String.eqb path "." then norm_slashes prefix
    else if String.eqb prefix "." then path
    else norm_slashes prefix +:+ "/" +:+ path.
Proof.
  intros Hplain. unfold rel_to_root.
  destruct (String.eqb path "."); [reflexivity |].
  destruct (String.eqb prefix "."); [now apply norm_slashes_plain |].
  rewrite !norm_slashes_append, (norm_slashes_plain path Hplain).
  reflexivity.
Qed.

Lemma rel_to_root_no_slash (prefix path : string) :
  ends_with_slash (norm_slashes prefix) = false → path_ok path →
  contains_char "\" path = false →
  ends_with_slash (rel_to_root prefix path) = false.
Proof.
  intros Hp [Hne Hs] Hplain. rewrite rel_to_root_plain by exact Hplain.
  destruct (String.eqb path "."); [exact Hp |].
  destruct (String.eqb prefix "."); [exact Hs |].
  rewrite ends_with_slash_append.
  - destruct path; [congruence | exact Hs].
  - destruct path; [congruence | discriminate].
Qed.

Lemma rel_to_root_inj (prefix path path' : string) :
  path_ok path → path_ok path' →
  contains_char "\" path = false → contains_char "\" path' = false →
  rel_to_root prefix path = rel_to_root prefix path' → path = path'.
Proof.
  intros [Hne _] [Hne' _] Hplain Hplain'.
  rewrite !rel_to_root_plain by assumption.
  destruct (String.eqb_spec path ".") as [-> | Hd];
    destruct (String.eqb_spec path' ".") as [-> | Hd']; [reflexivity | | |].
  - destruct (String.eqb_spec prefix ".") as [-> | Hp];
      [change (norm_slashes ".") with "."; congruence |].
    intros Heq. apply (f_equal String.length) in Heq.
    rewrite length_append in Heq. simpl in Heq. lia.
  - destruct (String.eqb_spec prefix ".") as [-> | Hp];
      [change (norm_slashes ".") with "."; congruence |].
    intros Heq. apply (f_equal String.length) in Heq.
    rewrite length_append in Heq. simpl in Heq. lia.
  - destruct (String.eqb_spec prefix ".") as [-> | Hp]; [tauto |].
    intros Heq. apply append_inv_l in Heq.
    rewrite !append_cons, !append_nil_l in Heq. congruence.
Qed.

(** Two files are reported under one path only if they are the same entry
    of the same directory. *)
Lemma reported_path_inj (prefix path path' name name' : string) :
  ends_with_slash (norm_slashes prefix) = false → path_ok path → path_ok path' →
  contains_char "\" path = false → contains_char "\" path' = false →
  contains_char "/" name = false → contains_char "/" name' = false →
  reported_path prefix path name = reported_path prefix path' name' →
  path = path' ∧ name = name'.
Proof.
  intros Hp Hpath Hpath' Hplain Hplain' Hn Hn'. unfold reported_path.
  rewrite !join_path_one by now apply rel_to_root_no_slash.
  intros Heq. apply slash_split_inj in Heq as [Hr ->]; try assumption.
  split; [| reflexivity]. eapply rel_to_root_inj; eassumption.
Qed.

(** ** Comparing directories *)

Lemma cmpfiles_fold_spec (a b : tree) (path : string) (shallow : bool)
    (common : list string) :
  ∀ acc x,
    let res := fold_left (cmpfiles_step a b path path shallow) common acc in
    (x ∈ cmp_matches res →
       x ∈ cmp_matches acc ∨ (x ∈ common ∧ cmp_at a b path x shallow = Ret true))
    ∧ (x ∈ cmp_mismatches res →
       x ∈ cmp_mismatches acc ∨ (x ∈ common ∧ cmp_at a b path x shallow = Ret false))
    ∧ (x ∈ cmp_errors res →
       x ∈ cmp_errors acc ∨ (x ∈ common ∧ ∃ e, cmp_at a b path x shallow = Raise e)).
Proof.
  induction common as [|y common IH]; intros acc x; cbn [fold_left]; cbv zeta.
  - tauto.
  - specialize (IH (cmpfiles_step a b path path shallow acc y) x).
    cbv zeta in IH. destruct IH as (IH1 & IH2 & IH3).
    unfold cmpfiles_step, cmp_at in *.
    destruct (cmp (tree_stat a path y) (tree_stat b path y) shallow)
      as [[|]|e] eqn:Hc; simpl in IH1, IH2, IH3;
      rewrite ?elem_of_app, ?list_elem_of_singleton in *;
      rewrite !elem_of_cons;
      (split; [intros H; destruct (IH1 H) as [G | G]
              | split; [intros H; destruct (IH2 H) as [G | G]
                       | intros H; destruct (IH3 H) as [G | G]]]);
      try tauto;
      destruct G as [G | ->]; try tauto; right; (split; [tauto | eauto]).
Qed.

Lemma cmpfiles_matches (a b : tree) path common shallow x :
  x ∈ cmp_matches (cmpfiles a b path path common shallow) →
  x ∈ common ∧ cmp_at a b path x shallow = Ret true.
Proof.
  intros H.
  apply (cmpfiles_fold_spec a b path shallow common (mkCmpLists [] [] []) x) in H.
  destruct H as [H | H]; [| exact H]. simpl in H. now apply not_elem_of_nil in H.
Qed.

Lemma cmpfiles_mismatches (a b : tree) path common shallow x :
  x ∈ cmp_mismatches (cmpfiles a b path path common shallow) →
  x ∈ common ∧ cmp_at a b path x shallow = Ret false.
Proof.
  intros H.
  apply (cmpfiles_fold_spec a b path shallow common (mkCmpLists [] [] []) x) in H.
  destruct H as [H | H]; [| exact H]. simpl in H. now apply not_elem_of_nil in H.
Qed.

Lemma cmpfiles_errors (a b : tree) path common shallow x :
  x ∈ cmp_errors (cmpfiles a b path path common shallow) →
  x ∈ common ∧ ∃ e, cmp_at a b path x shallow = Raise e.
Proof.
  intros H.
  apply (cmpfiles_fold_spec a b path shallow common (mkCmpLists [] [] []) x) in H.
  destruct H as [H | H]; [| exact H]. simpl in H. now apply not_elem_of_nil in H.
Qed.

(** ** Well-formed and readable trees *)

Lemma tree_wf_NoDup (t : tree) : tree_wf t = true → NoDup (d_path <$> t).
Proof.
  unfold tree_wf. intros H. apply andb_prop in H as [H _].
  now apply bool_decide_eq_true in H.
Qed.

Lemma tree_wf_entry (t : tree) (d : dir_entry) :
  tree_wf t = true → d ∈ t →
  path_ok (d_path d)
  ∧ ∀ name, name ∈ (d_files d).*1 → contains_char "/" name = false.
Proof.
  unfold tree_wf. intros H Hd. apply andb_prop in H as [_ H].
  rewrite forallb_forall in H. apply list_elem_of_In in Hd.
  specialize (H d Hd).
  apply andb_prop in H as [H Hfiles]. apply andb_prop in H as [Hne Hs].
  split; [split |].
  - intros Heq. rewrite Heq in Hne. discriminate.
  - now apply negb_true_iff in Hs.
  - intros name Hname. apply list_elem_of_fmap in Hname as ([n f] & -> & Hin).
    rewrite forallb_forall in Hfiles. apply list_elem_of_In in Hin.
    specialize (Hfiles _ Hin). now apply negb_true_iff in Hfiles.
Qed.

Lemma tree_plain_entry (t : tree) (d : dir_entry) :
  tree_plain t = true → d ∈ t → contains_char "\" (d_path d) = false.
Proof.
  unfold tree_plain. intros H Hd. rewrite forallb_forall in H.
  apply list_elem_of_In in Hd. specialize (H d Hd).
  now apply negb_true_iff in H.
Qed.

Lemma tree_readable_entry (t : tree) (d : dir_entry) (name : string) (f : file) :
  tree_readable t = true → d ∈ t → (name, f) ∈ d_files d → readable f = true.
Proof.
  unfold tree_readable. intros H Hd Hf. rewrite forallb_forall in H.
  apply list_elem_of_In in Hd. specialize (H d Hd).
  rewrite forallb_forall in H. apply list_elem_of_In in Hf. exact (H _ Hf).
Qed.

Lemma find_file_listed (name : string) (files : list (string * file)) :
  name ∈ files.*1 → ∃ f, find_file name files = Some f ∧ (name, f) ∈ files.
Proof.
  intros Hin. unfold find_file.
  destruct (List.find (λ nf, String.eqb nf.1 name) files) as [[n f]|] eqn:Hfind.
  - apply find_some in Hfind as [Hin' Heq]. simpl in Heq.
    apply String.eqb_eq in Heq as ->. exists f. split; [reflexivity |].
    now apply list_elem_of_In.
  - apply list_elem_of_fmap in Hin as ([n f] & -> & Hin).
    apply list_elem_of_In in Hin.
    pose proof (find_none _ _ Hfind _ Hin) as Hne. simpl in Hne.
    now rewrite String.eqb_refl in Hne.
Qed.

(** In a well-formed tree, [os.stat] finds every listed file. *)
Lemma tree_stat_listed (t : tree) (d : dir_entry) (name : string) :
  NoDup (d_path <$> t) → d ∈ t → name ∈ (d_files d).*1 →
  ∃ f, tree_stat t (d_path d) name = Some (NFile f) ∧ (name, f) ∈ d_files d.
Proof.
  intros Hnd Hd Hname. induction t as [|d0 t IH]; [now apply not_elem_of_nil in Hd |].
  rewrite fmap_cons in Hnd. apply NoDup_cons in Hnd as [Hni Hnd].
  simpl. apply elem_of_cons in Hd as [-> | Hd].
  - rewrite String.eqb_refl.
    destruct (find_file_listed name (d_files d0) Hname) as (f & -> & Hin).
    eauto.
  - destruct (String.eqb_spec (d_path d0) (d_path d)) as [Heq | Hne].
    + exfalso. apply Hni. rewrite Heq. apply list_elem_of_fmap. eauto.
    + now apply IH.
Qed.

(** Two readable regular files can always be compared. *)
Lemma cmp_readable (f1 f2 : file) (shallow : bool) :
  readable f1 = true → readable f2 = true →
  ¬ is_raise (cmp (Some (NFile f1)) (Some (NFile f2)) shallow).
Proof.
  intros H1 H2 [e He]. unfold cmp in He. rewrite H1, H2 in He.
  cbn [andb] in He.
  destruct (shallow && (st_size f1 =? st_size f2)%nat && (st_mtime f1 =? st_mtime f2));
    [discriminate |].
  destruct (negb (st_size f1 =? st_size f2)%nat); discriminate.
Qed.

(** ** The lists of [get_diffs] *)

Lemma fold_add_mismatch_Raise gold test gold_dir test_dir rel_dir
    (names : list string) e :
  fold_left (add_mismatch gold test gold_dir test_dir rel_dir) names (Raise e)
  = Raise e.
Proof. induction names as [|n names IH]; [reflexivity | exact IH]. Qed.

Lemma fold_add_mismatch_spec gold test gold_dir test_dir rel_dir
    (names : list string) :
  ∀ acc0 acc,
    fold_left (add_mismatch gold test gold_dir test_dir rel_dir) names (Ret acc0)
    = Ret acc →
    ∀ p, p ∈ acc →
      p ∈ acc0 ∨ ∃ name, name ∈ names ∧ p = join_path rel_dir [name].
Proof.
  induction names as [|n names IH]; intros acc0 acc Hfold p Hp.
  - simpl in Hfold. injection Hfold as <-. now left.
  - cbn [fold_left] in Hfold.
    destruct (add_mismatch gold test gold_dir test_dir rel_dir (Ret acc0) n)
      as [acc1|e] eqn:Hstep.
    + assert (Hacc1 : acc1 = acc0 ∨ acc1 = acc0 ++ [join_path rel_dir [n]]).
      { unfold add_mismatch in Hstep. simpl in Hstep.
        destruct (negb (String.eqb (splitext_ext n) ".usdz")).
        - injection Hstep as <-. now right.
        - destruct (compare_usdz_content _ _) as [[|]|e']; simpl in Hstep;
            try discriminate; injection Hstep as <-; auto. }
      destruct (IH _ _ Hfold p Hp) as [Hin | (name & Hname & ->)].
      * destruct Hacc1 as [-> | ->]; [now left |].
        apply elem_of_app in Hin as [Hin | Hin]; [now left |].
        apply list_elem_of_singleton in Hin as ->.
        right. exists n. split; [apply list_elem_of_here | reflexivity].
      * right. exists name. split; [now apply list_elem_of_further | reflexivity].
    + rewrite fold_add_mismatch_Raise in Hfold. discriminate.
Qed.

Lemma fold_diff_gold_dir_Raise gold test prefix (ds : list dir_entry) e :
  fold_left (diff_gold_dir gold test prefix) ds (Raise e) = Raise e.
Proof. induction ds as [|d ds IH]; [reflexivity | exact IH]. Qed.

(** What one directory of the golden tree adds to the three lists, when its
    path has no backslash. *)
Lemma diff_gold_dir_spec gold test prefix (d : dir_entry) m0 mm0 mi0 m mm mi :
  contains_char "\" (d_path d) = false →
  diff_gold_dir gold test prefix (Ret (m0, mm0, mi0)) d = Ret (m, mm, mi) →
  ∀ p,
    (p ∈ m → p ∈ m0 ∨ reported_with [d] gold test prefix false (eq (Ret true)) p)
    ∧ (p ∈ mm → p ∈ mm0 ∨ reported_with [d] gold test prefix false (eq (Ret false)) p)
    ∧ (p ∈ mi → p ∈ mi0 ∨ reported_with [d] gold test prefix false is_raise p).
Proof.
  intros Hplain. unfold diff_gold_dir, norm_relpath_base.
  rewrite (norm_slashes_plain _ Hplain). simpl.
  destruct (negb (list_truthy (d_files d).*1)).
  - intros [= <- <- <-] p. tauto.
  - destruct (fold_left _ _ (Ret mm0)) as [mm1|e] eqn:Hmm; simpl; [| discriminate].
    intros [= <- <- <-] p.
    assert (Hd : d ∈ [d]) by apply list_elem_of_here.
    split; [| split]; intros Hp.
    + apply elem_of_app in Hp as [Hp | Hp]; [now left | right].
      apply list_elem_of_fmap in Hp as (name & -> & Hname).
      apply cmpfiles_matches in Hname as [Hname Hc].
      exists d, name. auto.
    + destruct (fold_add_mismatch_spec _ _ _ _ _ _ _ _ Hmm p Hp)
        as [Hin | (name & Hname & ->)]; [now left | right].
      apply cmpfiles_mismatches in Hname as [Hname Hc].
      exists d, name. auto.
    + apply elem_of_app in Hp as [Hp | Hp]; [now left | right].
      apply list_elem_of_fmap in Hp as (name & -> & Hname).
      apply cmpfiles_errors in Hname as [Hname Hc].
      exists d, name. auto.
Qed.

Lemma reported_with_mono (walked walked' gold test : tree) prefix shallow P p :
  (∀ d, d ∈ walked → d ∈ walked') →
  reported_with walked gold test prefix shallow P p →
  reported_with walked' gold test prefix shallow P p.
Proof. intros Hsub (d & name & Hd & H). exists d, name. auto. Qed.

Lemma fold_diff_gold_dir_spec gold test prefix (ds : list dir_entry) :
  (∀ d, d ∈ ds → contains_char "\" (d_path d) = false) →
  ∀ m0 mm0 mi0 m mm mi,
    fold_left (diff_gold_dir gold test prefix) ds (Ret (m0, mm0, mi0))
    = Ret (m, mm, mi) →
    ∀ p,
      (p ∈ m → p ∈ m0 ∨ reported_with ds gold test prefix false (eq (Ret true)) p)
      ∧ (p ∈ mm → p ∈ mm0 ∨ reported_with ds gold test prefix false (eq (Ret false)) p)
      ∧ (p ∈ mi → p ∈ mi0 ∨ reported_with ds gold test prefix false is_raise p).
Proof.
  induction ds as [|d ds IH]; intros Hplain m0 mm0 mi0 m mm mi Hfold p.
  - simpl in Hfold. injection Hfold as <- <- <-. tauto.
  - cbn [fold_left] in Hfold.
    assert (Hd : contains_char "\" (d_path d) = false)
      by apply Hplain, list_elem_of_here.
    assert (Hds : ∀ d', d' ∈ ds → contains_char "\" (d_path d') = false)
      by (intros d' Hd'; now apply Hplain, list_elem_of_further).
    destruct (diff_gold_dir gold test prefix (Ret (m0, mm0, mi0)) d)
      as [[[m1 mm1] mi1]|e] eqn:Hstep.
    + destruct (IH Hds _ _ _ _ _ _ Hfold p) as (IH1 & IH2 & IH3).
      destruct (diff_gold_dir_spec _ _ _ _ _ _ _ _ _ _ Hd Hstep p)
        as (S1 & S2 & S3).
      assert (Hhd : ∀ P, reported_with [d] gold test prefix false P p →
                         reported_with (d :: ds) gold test prefix false P p).
      { intros P. apply reported_with_mono. intros d' Hd'.
        apply list_elem_of_singleton in Hd' as ->. apply list_elem_of_here. }
      assert (Htl : ∀ P, reported_with ds gold test prefix false P p →
                         reported_with (d :: ds) gold test prefix false P p).
      { intros P. apply reported_with_mono. intros d' Hd'.
        now apply list_elem_of_further. }
      split; [| split]; intros Hp.
      * destruct (IH1 Hp) as [H | H]; [| right; auto].
        destruct (S1 H) as [H' | H']; [left | right]; auto.
      * destruct (IH2 Hp) as [H | H]; [| right; auto].
        destruct (S2 H) as [H' | H']; [left | right]; auto.
      * destruct (IH3 Hp) as [H | H]; [| right; auto].
        destruct (S3 H) as [H' | H']; [left | right]; auto.
    + rewrite fold_diff_gold_dir_Raise in Hfold. discriminate.
Qed.

Lemma fold_diff_test_dir_spec gold test prefix (ds : list dir_entry) :
  (∀ d, d ∈ ds → contains_char "\" (d_path d) = false) →
  ∀ ex0 p,
    p ∈ fold_left (diff_test_dir gold test prefix) ds ex0 →
    p ∈ ex0 ∨ reported_with ds gold test prefix true is_raise p.
Proof.
  induction ds as [|d ds IH]; intros Hplain ex0 p Hp; [now left |].
  assert (Hd : contains_char "\" (d_path d) = false)
    by apply Hplain, list_elem_of_here.
  assert (Hds : ∀ d', d' ∈ ds → contains_char "\" (d_path d') = false)
    by (intros d' Hd'; now apply Hplain, list_elem_of_further).
  cbn [fold_left] in Hp. destruct (IH Hds _ _ Hp) as [Hin | Hr].
  - unfold diff_test_dir, norm_relpath_base in Hin.
    rewrite (norm_slashes_plain _ Hd) in Hin. cbv zeta in Hin.
    destruct (negb (list_truthy (d_files d).*1)); [now left |].
    apply elem_of_app in Hin as [Hin | Hin]; [now left | right].
    apply list_elem_of_fmap in Hin as (name & -> & Hname).
    apply cmpfiles_errors in Hname as [Hname Hc].
    exists d, name. split; [apply list_elem_of_here | auto].
  - right. revert Hr. apply reported_with_mono. intros d' Hd'.
    now apply list_elem_of_further.
Qed.

(** ** Classification of a path *)

Section Classification.
Variables (gold test : tree) (prefix : string).
Hypothesis gold_wf : tree_wf gold = true.
Hypothesis test_wf : tree_wf test = true.
Hypothesis gold_plain : tree_plain gold = true.
Hypothesis test_plain : tree_plain test = true.
Hypothesis prefix_ok : ends_with_slash (norm_slashes prefix) = false.

(** A path reported from the golden tree stands for one entry, so the
    outcomes of two reports of it are the same. *)
Lemma reported_gold_functional (shallow : bool) (P Q : outcome bool → Prop) p :
  reported_with gold gold test prefix shallow P p →
  reported_with gold gold test prefix shallow Q p →
  ∃ o, P o ∧ Q o.
Proof.
  intros (d & name & Hd & Hname & -> & HP) (d' & name' & Hd' & Hname' & Heq & HQ).
  destruct (tree_wf_entry gold d gold_wf Hd) as [Hpath Hnames].
  destruct (tree_wf_entry gold d' gold_wf Hd') as [Hpath' Hnames'].
  pose proof (tree_plain_entry gold d gold_plain Hd) as Hplain.
  pose proof (tree_plain_entry gold d' gold_plain Hd') as Hplain'.
  apply reported_path_inj in Heq as [Hp Hn]; auto.
  rewrite Hp, Hn in HP. eauto.
Qed.

Hypothesis gold_readable : tree_readable gold = true.
Hypothesis test_readable : tree_readable test = true.

(** When every file can be read, a file listed in the golden tree is not
    reported as extra. *)
Lemma reported_gold_not_extra (shallow : bool) (P : outcome bool → Prop) p :
  reported_with gold gold test prefix shallow P p →
  reported_with test gold test prefix true is_raise p →
  False.
Proof.
  intros (d & name & Hd & Hname & -> & _) (d' & name' & Hd' & Hname' & Heq & HQ).
  destruct (tree_wf_entry gold d gold_wf Hd) as [Hpath Hnames].
  destruct (tree_wf_entry test d' test_wf Hd') as [Hpath' Hnames'].
  pose proof (tree_plain_entry gold d gold_plain Hd) as Hplain.
  pose proof (tree_plain_entry test d' test_plain Hd') as Hplain'.
  apply reported_path_inj in Heq as [Hp Hn]; auto.
  destruct (tree_stat_listed gold d name (tree_wf_NoDup _ gold_wf) Hd Hname)
    as (f1 & Hs1 & Hf1).
  destruct (tree_stat_listed test d' name' (tree_wf_NoDup _ test_wf) Hd' Hname')
    as (f2 & Hs2 & Hf2).
  unfold cmp_at in HQ. rewrite <- Hp, <- Hn, Hs1 in HQ.
  rewrite Hp, Hn, Hs2 in HQ.
  revert HQ. apply cmp_readable.
  - exact (tree_readable_entry gold d name f1 gold_readable Hd Hf1).
  - exact (tree_readable_entry test d' name' f2 test_readable Hd' Hf2).
Qed.
End Classification.

(** For well-formed trees without a backslash in a directory path, all of
    whose files can be opened for reading, no path is in two of the four
    lists [get_diffs] returns. *)
Lemma get_diffs_disjoint (gold test : tree) (prefix : string) (r : diffs) :
  tree_wf gold = true → tree_wf test = true →
  tree_plain gold = true → tree_plain test = true →
  ends_with_slash (norm_slashes prefix) = false →
  tree_readable gold = true → tree_readable test = true →
  get_diffs gold test prefix = Ret r →
  ∀ p,
    ¬ (p ∈ all_matches r ∧ p ∈ all_mismatches r)
    ∧ ¬ (p ∈ all_matches r ∧ p ∈ all_missings r)
    ∧ ¬ (p ∈ all_matches r ∧ p ∈ all_extras r)
    ∧ ¬ (p ∈ all_mismatches r ∧ p ∈ all_missings r)
    ∧ ¬ (p ∈ all_mismatches r ∧ p ∈ all_extras r)
    ∧ ¬ (p ∈ all_missings r ∧ p ∈ all_extras r).
Proof.
  intros Hgw Htw Hgp Htp Hpre Hgr Htr Hrun p. unfold get_diffs in Hrun.
  destruct (fold_left (diff_gold_dir gold test prefix) gold (Ret ([], [], [])))
    as [[[m mm] mi]|e] eqn:Hgold; simpl in Hrun; [| discriminate].
  injection Hrun as <-. simpl.
  destruct (fold_diff_gold_dir_spec _ _ _ _ (fun d => tree_plain_entry gold d Hgp)
              _ _ _ _ _ _ Hgold p) as (G1 & G2 & G3).
  pose proof (fold_diff_test_dir_spec gold test prefix test
                (fun d => tree_plain_entry test d Htp) [] p) as GX.
  assert (M : p ∈ m → reported_with gold gold test prefix false (eq (Ret true)) p).
  { intros H. destruct (G1 H) as [H' | H']; [now apply not_elem_of_nil in H' | exact H']. }
  assert (MM : p ∈ mm → reported_with gold gold test prefix false (eq (Ret false)) p).
  { intros H. destruct (G2 H) as [H' | H']; [now apply not_elem_of_nil in H' | exact H']. }
  assert (MI : p ∈ mi → reported_with gold gold test prefix false is_raise p).
  { intros H. destruct (G3 H) as [H' | H']; [now apply not_elem_of_nil in H' | exact H']. }
  assert (EX : p ∈ fold_left (diff_test_dir gold test prefix) test [] →
               reported_with test gold test prefix true is_raise p).
  { intros H. destruct (GX H) as [H' | H']; [now apply not_elem_of_nil in H' | exact H']. }
  pose proof (reported_gold_functional gold test prefix Hgw Hgp Hpre) as F.
  pose proof (reported_gold_not_extra gold test prefix Hgw Htw Hgp Htp Hpre Hgr Htr)
    as N.
  repeat split; intros [H1 H2].
  - destruct (F _ _ _ _ (M H1) (MM H2)) as (o & <- & [=]).
  - destruct (F _ _ _ _ (M H1) (MI H2)) as (o & <- & [e [=]]).
  - exact (N _ _ _ (M H1) (EX H2)).
  - destruct (F _ _ _ _ (MM H1) (MI H2)) as (o & <- & [e [=]]).
  - exact (N _ _ _ (MM H1) (EX H2)).
  - exact (N _ _ _ (MI H1) (EX H2)).
Qed.

(** ** Archives *)

Lemma handle_crc_difference_images (golden_info test_info : ZipInfo) golden test :
  opened_image golden_info = Some golden →
  opened_image test_info = Some test →
  compare_images golden test 3 = Ret true →
  handle_crc_difference golden_info test_info = Ret true.
Proof.
  intros Hg Ht Hc. unfold handle_crc_difference. now rewrite Hg, Ht, Hc.
Qed.

Lemma compare_infos_from_complete (golden_infos : list ZipInfo) :
  ∀ test_rest i,
    (∀ j test_info, test_rest !! j = Some test_info →
       ∃ golden_info,
         golden_infos !! (i + j)%nat = Some golden_info
         ∧ filename test_info = filename golden_info
         ∧ file_size test_info = file_size golden_info
         ∧ (CRC test_info ≠ CRC golden_info →
            handle_crc_difference golden_info test_info = Ret true)) →
    compare_infos_from golden_infos i test_rest = Ret true.
Proof.
  induction test_rest as [|test_info rest IH]; intros i H; [reflexivity |].
  destruct (H 0%nat test_info eq_refl) as (golden_info & Hg & Hn & Hs & Hc).
  rewrite Nat.add_0_r in Hg. simpl. rewrite Hg, Hn, Hs.
  rewrite String.eqb_refl, Z.eqb_refl. simpl.
  destruct (Z.eqb_spec (CRC test_info) (CRC golden_info)) as [Heq | Hne]; simpl.
  - apply IH. intros j ti Hj. specialize (H (S j) ti Hj).
    now rewrite Nat.add_succ_r in H.
  - now apply Hc.
Qed.

(** Whenever the archive rule as the specification words it holds, the
    comparison returns true. *)
Lemma compare_infolists_complete (golden_infos test_infos : list ZipInfo) :
  usdz_content_matches_spec golden_infos test_infos →
  compare_infolists golden_infos test_infos = Ret true.
Proof.
  intros [Hlen Hall]. unfold compare_infolists.
  rewrite Hlen, Nat.eqb_refl. simpl.
  apply compare_infos_from_complete. intros j ti Hj. simpl.
  destruct (lookup_lt_is_Some_2 golden_infos j) as [gi Hgi].
  { rewrite Hlen. apply lookup_lt_is_Some_1. eexists; exact Hj. }
  exists gi. destruct (Hall j gi ti Hgi Hj) as (Hn & Hs & Hc).
  repeat split; try assumption.
  intros Hne. destruct (Hc Hne) as (g & t & Hg & Ht & Hcmp).
  eapply handle_crc_difference_images; eassumption.
Qed.

(** C1 (on the code): with a first texture re-encoded within the threshold
    and a second one far beyond it, the comparison returns true although the
    rule as worded does not hold, because it returns at the first entry
    whose checksum differs; the two instances quoted with the rule evaluate
    as stated. *)
Theorem C1_compare_usdz_first_difference_decides :
  compare_infolists sample_golden_infos sample_changed_infos = Ret true
  ∧ ¬ usdz_content_matches_spec sample_golden_infos sample_changed_infos
  ∧ compare_infolists sample_golden_infos sample_close_infos = Ret true
  ∧ compare_infolists sample_golden_infos sample_far_infos = Ret false.
Proof.
  split; [vm_compute; reflexivity |].
  split; [| split; vm_compute; reflexivity].
  intros [_ Hall].
  destruct (Hall 2%nat (mkZipInfo "tex1.png" 6 4 (Some sample_image_golden))
              (mkZipInfo "tex1.png" 6 5 (Some sample_image_far))
              eq_refl eq_refl)
    as (_ & _ & Hc).
  destruct Hc as (g & t & [= <-] & [= <-] & Hcmp); [simpl; lia |].
  vm_compute in Hcmp. discriminate.
Qed.

(** ** The tag pattern *)

Lemma all_chars_append (p : ascii → bool) (s t : string) :
  all_chars p (s +:+ t) = all_chars p s && all_chars p t.
Proof.
  induction s as [|c s IH]; [reflexivity |].
  rewrite append_cons. simpl. rewrite IH. now rewrite andb_assoc.
Qed.

Lemma all_chars_not_contains (p : ascii → bool) (c : ascii) (s : string) :
  all_chars p s = true → p c = false → contains_char c s = false.
Proof.
  intros Hall Hc. induction s as [|d s IH]; [reflexivity |].
  simpl in *. apply andb_prop in Hall as [Hd Hall].
  rewrite (IH Hall), orb_false_r. unfold char_eqb.
  destruct (Ascii.eqb_spec c d) as [-> | _]; [congruence | reflexivity].
Qed.

Lemma all_chars_weaken (p q : ascii → bool) (s : string) :
  (∀ c, p c = true → q c = true) → all_chars p s = true → all_chars q s = true.
Proof.
  intros Hpq. induction s as [|c s IH]; [reflexivity |]. simpl.
  intros H. apply andb_prop in H as [Hc Hs]. now rewrite (Hpq _ Hc), IH.
Qed.

(** What a successful match has consumed is in the language of the
    expression, and the continuation succeeded on the rest. *)
Lemma rgreedy_sound (p : ascii → bool) (k : rcont) :
  ∀ s g pos m, rgreedy p k g pos s = Some m →
    ∃ s1 s2, s = s1 +:+ s2 ∧ all_chars p s1 = true
             ∧ k g (pos + String.length s1)%nat s2 = Some m.
Proof.
  induction s as [|d s IH]; intros g pos m H; simpl in H.
  - exists EmptyString, EmptyString. now rewrite Nat.add_0_r.
  - destruct (p d) eqn:Hd.
    + destruct (rgreedy p k g (S pos) s) as [m'|] eqn:Hg.
      * injection H as ->. destruct (IH _ _ _ Hg) as (s1 & s2 & -> & Hall & Hk).
        exists (String d s1), s2. rewrite append_cons. simpl. rewrite Hd, Hall.
        now rewrite Nat.add_succ_r.
      * exists EmptyString, (String d s). now rewrite Nat.add_0_r.
    + exists EmptyString, (String d s). now rewrite Nat.add_0_r.
Qed.

Lemma rmatch_sound (r : regex) :
  ∀ (k : rcont) g pos s m, rmatch r k g pos s = Some m →
    ∃ s1 s2 g', s = s1 +:+ s2 ∧ lang r s1 s2
                ∧ k g' (pos + String.length s1)%nat s2 = Some m.
Proof.
  induction r as [|c|r1 IH1 r2 IH2|r1 IH1 r2 IH2|p|p|r1 IH1|];
    intros k g pos s m H; simpl in H.
  - exists EmptyString, s, g. now rewrite Nat.add_0_r.
  - destruct s as [|d s]; [discriminate |].
    unfold char_eqb in H. destruct (Ascii.eqb_spec c d) as [<- | _]; [| discriminate].
    exists (String c EmptyString), s, g. now rewrite Nat.add_1_r.
  - destruct (IH1 _ _ _ _ _ H) as (s1 & s2 & g1 & -> & L1 & H2).
    destruct (IH2 _ _ _ _ _ H2) as (s3 & s4 & g2 & -> & L2 & H3).
    exists (s1 +:+ s3), s4, g2. rewrite append_assoc, length_append, Nat.add_assoc.
    split; [reflexivity |]. split; [| exact H3]. simpl. eauto.
  - destruct (rmatch r1 k g pos s) as [m'|] eqn:H1.
    + injection H as ->. destruct (IH1 _ _ _ _ _ H1) as (s1 & s2 & g' & -> & L & Hk).
      exists s1, s2, g'. simpl. auto.
    + destruct (IH2 _ _ _ _ _ H) as (s1 & s2 & g' & -> & L & Hk).
      exists s1, s2, g'. simpl. auto.
  - destruct s as [|d s]; [discriminate |].
    destruct (p d) eqn:Hd; [| discriminate].
    destruct (rgreedy_sound _ _ _ _ _ _ H) as (s1 & s2 & -> & Hall & Hk).
    exists (String d s1), s2, g. rewrite append_cons. simpl. rewrite Hd, Hall.
    rewrite Nat.add_succ_r. repeat split; [discriminate | exact Hk].
  - destruct (rgreedy_sound _ _ _ _ _ _ H) as (s1 & s2 & -> & Hall & Hk).
    exists s1, s2, g. auto.
  - destruct (IH1 _ _ _ _ _ H) as (s1 & s2 & g' & -> & L & Hk).
    exists s1, s2, (Some (pos, (pos + String.length s1)%nat)). auto.
  - exists EmptyString, s, g. rewrite Nat.add_0_r.
    destruct s as [|c [|c' s]]; [simpl; auto | | discriminate].
    unfold char_eqb in H. destruct (Ascii.eqb_spec c LF) as [-> | _];
      [simpl; auto | discriminate].
Qed.

Lemma lang_rlit (w s rest : string) : lang (rlit w) s rest → s = w.
Proof.
  revert s rest. induction w as [|c w IH]; intros s rest H; simpl in H.
  - exact H.
  - destruct H as (s1 & s2 & -> & -> & H2). apply IH in H2 as ->. reflexivity.
Qed.

(** A text the tag pattern matches from its start is a bracket, characters
    of the code class, a closing bracket, and white space to the end. *)
Lemma lang_TAG_REGEX (s rest : string) :
  lang TAG_REGEX s rest →
  ∃ body space,
    s +:+ rest = "[" +:+ body +:+ "]" +:+ space
    ∧ all_chars is_upper_alnum_us body = true
    ∧ all_chars is_space space = true.
Proof.
  unfold TAG_REGEX, TAG_REGEX_code, TAG_REGEX_word. cbn [lang].
  intros (s1 & t1 & -> & -> & category & t2 & -> & [_ Hcat] & s3 & t3 & -> & ->
          & word & t4 & -> & Hword & s5 & t5 & -> & -> & code & t6 & -> & [_ Hcode]
          & s7 & t7 & -> & -> & space & t8 & -> & Hspace & -> & Hrest).
  exists (category +:+ "_" +:+ word +:+ "_" +:+ code), (space +:+ rest).
  split; [| split].
  - rewrite !append_assoc, !append_cons, !append_nil_l. reflexivity.
  - rewrite !all_chars_append, Hcode.
    rewrite (all_chars_weaken is_upper_alnum is_upper_alnum_us category)
      by (try exact Hcat; intros c Hc; unfold is_upper_alnum_us; now rewrite Hc).
    assert (Hw : all_chars is_upper_alnum_us word = true).
    { destruct Hword as [H | [H | H]]; apply lang_rlit in H; subst word;
        reflexivity. }
    rewrite Hw. reflexivity.
  - rewrite all_chars_append, Hspace.
    destruct Hrest as [-> | ->]; reflexivity.
Qed.

(** The pattern does not match from a position in front of a bracket that is
    not the first character. *)
Lemma rmatch_TAG_REGEX_before_bracket (c : ascii) (x t : string) g pos :
  rmatch TAG_REGEX rdone g pos (String c x +:+ String "[" t) = None.
Proof.
  destruct (rmatch TAG_REGEX rdone g pos (String c x +:+ String "[" t))
    as [m|] eqn:H; [exfalso | reflexivity].
  destruct (rmatch_sound _ _ _ _ _ _ H) as (s1 & s2 & g' & Heq & L & _).
  destruct (lang_TAG_REGEX _ _ L) as (body & space & Hshape & Hbody & Hspace).
  rewrite <- Heq in Hshape. rewrite !append_cons, !append_nil_l in Hshape.
  injection Hshape as -> Hx.
  apply (f_equal (contains_char "[")) in Hx.
  rewrite !contains_char_append in Hx. simpl in Hx.
  rewrite (all_chars_not_contains _ "[" _ Hbody eq_refl) in Hx.
  rewrite (all_chars_not_contains _ "[" _ Hspace eq_refl) in Hx.
  rewrite orb_true_r in Hx. discriminate.
Qed.

(** The search passes over what is in front of the first character of a
    text that starts with a bracket. *)
Lemma rsearch_from_skip (pre t : string) :
  ∀ pos,
    rsearch_from TAG_REGEX pos (pre +:+ String "[" t)
    = rsearch_from TAG_REGEX (pos + String.length pre) (String "[" t).
Proof.
  induction pre as [|c pre IH]; intros pos.
  - now rewrite append_nil_l, Nat.add_0_r.
  - rewrite append_cons. cbn [rsearch_from]. fold rdone.
    rewrite <- append_cons, rmatch_TAG_REGEX_before_bracket.
    rewrite IH. simpl. now rewrite Nat.add_succ_r.
Qed.

Lemma rmatch_cat (r1 r2 : regex) (k : rcont) g pos s :
  rmatch (RCat r1 r2) k g pos s = rmatch r1 (rmatch r2 k) g pos s.
Proof. reflexivity. Qed.

Lemma rmatch_char (c : ascii) (k : rcont) g pos s :
  rmatch (RChar c) k g pos (String c s) = k g (S pos) s.
Proof. simpl. now rewrite char_eqb_refl. Qed.

Lemma rmatch_rlit (w : string) (k : rcont) :
  ∀ g pos t,
    rmatch (rlit w) k g pos (w +:+ t) = k g (pos + String.length w)%nat t.
Proof.
  induction w as [|c w IH]; intros g pos t.
  - now rewrite append_nil_l, Nat.add_0_r.
  - rewrite append_cons. cbn [rlit]. rewrite rmatch_cat, rmatch_char, IH.
    simpl. now rewrite Nat.add_succ_r.
Qed.

(** A repetition takes all the characters of its class when what follows
    can then be matched. *)
Lemma rgreedy_max (p : ascii → bool) (k : rcont) (s t : string) :
  ∀ g pos m,
    all_chars p s = true → stops p t →
    k g (pos + String.length s)%nat t = Some m →
    rgreedy p k g pos (s +:+ t) = Some m.
Proof.
  induction s as [|d s IH]; intros g pos m Hall Ht Hk.
  - rewrite append_nil_l. simpl in Hk. rewrite Nat.add_0_r in Hk.
    destruct t as [|c t]; [exact Hk |]. simpl in *. now rewrite Ht.
  - rewrite append_cons. simpl in Hall |- *.
    apply andb_prop in Hall as [Hd Hall]. rewrite Hd.
    rewrite (IH g (S pos) m Hall Ht); [reflexivity |].
    cbn [String.length] in Hk. now rewrite Nat.add_succ_r in Hk.
Qed.

Lemma rmatch_plus_max (p : ascii → bool) (k : rcont) (s t : string) g pos m :
  s ≠ EmptyString → all_chars p s = true → stops p t →
  k g (pos + String.length s)%nat t = Some m →
  rmatch (RPlus p) k g pos (s +:+ t) = Some m.
Proof.
  intros Hne Hall Ht Hk. destruct s as [|d s]; [congruence |].
  rewrite append_cons. simpl in Hall |- *.
  apply andb_prop in Hall as [Hd Hall]. rewrite Hd.
  apply rgreedy_max; try assumption.
  cbn [String.length] in Hk. now rewrite Nat.add_succ_r in Hk.
Qed.

(** The end of the pattern on an underscore, a code, a closing bracket and
    white space up to the end of the text. *)
Lemma rmatch_TAG_REGEX_code (code space : string) g pos :
  code ≠ EmptyString → all_chars is_upper_alnum_us code = true →
  all_chars is_space space = true →
  rmatch TAG_REGEX_code rdone g pos ("_" +:+ code +:+ "]" +:+ space)
  = Some ((pos + String.length ("_" +:+ code +:+ "]" +:+ space))%nat, g).
Proof.
  intros Hne Hcode Hspace. unfold TAG_REGEX_code.
  rewrite append_cons, append_nil_l, rmatch_cat, rmatch_char, rmatch_cat.
  apply rmatch_plus_max; [exact Hne | exact Hcode | reflexivity |].
  rewrite append_cons, append_nil_l, rmatch_cat, rmatch_char, rmatch_cat.
  cbn [rmatch]. rewrite <- (append_empty_r space) at 1.
  apply rgreedy_max; [exact Hspace | exact I |].
  cbn [rmatch]. unfold rdone. apply f_equal, (f_equal (fun n => (n, g))).
  cbn [String.length]. rewrite length_append. cbn [String.length]. lia.
Qed.

Ltac tag_arith :=
  apply f_equal, f_equal2;
  [ repeat (rewrite length_append || cbn [String.length]); lia
  | apply f_equal, f_equal2; cbn [String.length]; lia ].

(** The pattern on a tag that starts at position [pos]: the match extends to
    the end of the text, and the capture is the severity word. *)
Lemma rmatch_TAG_REGEX_tag (category word code space : string) pos :
  category ≠ EmptyString → all_chars is_upper_alnum category = true →
  severity_word word →
  code ≠ EmptyString → all_chars is_upper_alnum_us code = true →
  all_chars is_space space = true →
  rmatch TAG_REGEX rdone None pos (tag_text category word code space)
  = Some ((pos + String.length (tag_text category word code space))%nat,
          Some ((pos + 2 + String.length category)%nat,
                (pos + 2 + String.length category + String.length word)%nat)).
Proof.
  intros Hcne Hcat Hword Hne Hcode Hspace. unfold tag_text, TAG_REGEX.
  rewrite append_cons, append_nil_l, rmatch_cat, rmatch_char, rmatch_cat.
  apply rmatch_plus_max; [exact Hcne | exact Hcat | reflexivity |].
  rewrite append_cons, append_nil_l, rmatch_cat, rmatch_char, rmatch_cat.
  cbn [rmatch]. unfold TAG_REGEX_word.
  assert (Hend : ∀ g p,
            rmatch TAG_REGEX_code rdone g p ("_" +:+ code +:+ "]" +:+ space)
            = Some ((p + String.length ("_" +:+ code +:+ "]" +:+ space))%nat, g))
    by (intros; now apply rmatch_TAG_REGEX_code).
  destruct Hword as [-> | [-> | ->]].
  - cbn [rmatch]. rewrite rmatch_rlit, Hend. tag_arith.
  - cbn [rmatch].
    replace (rmatch (rlit "INFO") _ _ _ _) with (@None (nat * option span))
      by reflexivity.
    rewrite rmatch_rlit, Hend. tag_arith.
  - cbn [rmatch].
    replace (rmatch (rlit "INFO") _ _ _ _) with (@None (nat * option span))
      by reflexivity.
    replace (rmatch (rlit "WARN") _ _ _ _) with (@None (nat * option span))
      by reflexivity.
    rewrite rmatch_rlit, Hend. tag_arith.
Qed.

(** ** Slices *)

Lemma substring_append_skip (a t : string) (m : nat) :
  substring (String.length a) m (a +:+ t) = substring 0 m t.
Proof.
  induction a as [|c a IH]; [reflexivity |].
  rewrite append_cons. simpl. exact IH.
Qed.

Lemma substring_0_append (a t : string) (m : nat) :
  substring 0 (String.length a + m) (a +:+ t) = a +:+ substring 0 m t.
Proof.
  induction a as [|c a IH]; [reflexivity |].
  rewrite !append_cons. simpl. now rewrite IH.
Qed.

Lemma substring_0_0 (t : string) : substring 0 0 t = EmptyString.
Proof. now destruct t. Qed.

Lemma substring_0_all (t : string) : substring 0 (String.length t) t = t.
Proof.
  rewrite <- (append_empty_r t) at 2. rewrite <- (Nat.add_0_r (String.length t)).
  rewrite substring_0_append, substring_0_0. now rewrite append_empty_r.
Qed.

Lemma substring_middle (a b c : string) :
  substring (String.length a) (String.length b) (a +:+ b +:+ c) = b.
Proof.
  rewrite substring_append_skip.
  rewrite <- (Nat.add_0_r (String.length b)), substring_0_append, substring_0_0.
  apply append_empty_r.
Qed.

Lemma slice_middle (a b c : string) :
  slice (String.length a) (String.length a + String.length b) (a +:+ b +:+ c) = b.
Proof.
  unfold slice. replace (String.length a + String.length b - String.length a)%nat
    with (String.length b) by lia.
  apply substring_middle.
Qed.

(** ** The tag of a line *)

Lemma tag_text_cons (category word code space : string) :
  tag_text category word code space
  = String "[" (category +:+ "_" +:+ word +:+ "_" +:+ code +:+ "]" +:+ space).
Proof. reflexivity. Qed.

(** A line that ends with a tag and white space: the severity is that of
    the severity word, and the tag code is the tag with its white space
    less its first and last characters. *)
Lemma get_message_tag_tagged (pre category word code space : string) :
  category ≠ EmptyString → all_chars is_upper_alnum category = true →
  severity_word word →
  code ≠ EmptyString → all_chars is_upper_alnum_us code = true →
  all_chars is_space space = true →
  let tag := tag_text category word code space in
  get_message_tag (pre +:+ tag)
  = (severity_of_word word, Some (slice 1 (String.length tag - 1) tag)).
Proof.
  intros Hcne Hcat Hword Hne Hcode Hspace tag.
  unfold get_message_tag, rsearch.
  assert (Hsearch :
    rsearch_from TAG_REGEX 0 (pre +:+ tag)
    = Some ((String.length pre, (String.length pre + String.length tag)%nat),
            Some ((String.length pre + 2 + String.length category)%nat,
                  (String.length pre + 2 + String.length category
                   + String.length word)%nat))).
  { unfold tag. rewrite tag_text_cons, rsearch_from_skip.
    cbn [rsearch_from]. fold rdone. rewrite <- tag_text_cons.
    rewrite rmatch_TAG_REGEX_tag by assumption. reflexivity. }
  rewrite Hsearch.
  assert (Htag : slice (String.length pre) (String.length pre + String.length tag)
                   (pre +:+ tag) = tag).
  { pose proof (slice_middle pre tag EmptyString) as H.
    now rewrite append_empty_r in H. }
  assert (Hsev : slice (String.length pre + 2 + String.length category)
                   (String.length pre + 2 + String.length category
                    + String.length word) (pre +:+ tag) = word).
  { unfold tag, tag_text.
    replace (pre +:+ "[" +:+ category +:+ "_" +:+ word +:+ "_" +:+ code
             +:+ "]" +:+ space)
      with ((pre +:+ "[" +:+ category +:+ "_") +:+ word
            +:+ ("_" +:+ code +:+ "]" +:+ space))
      by (rewrite !append_assoc; reflexivity).
    replace (String.length pre + 2 + String.length category)%nat
      with (String.length (pre +:+ "[" +:+ category +:+ "_"))
      by (rewrite !length_append; simpl; lia).
    apply slice_middle. }
  rewrite Htag, Hsev. unfold severity_of_word.
  destruct (String.eqb word "ERROR"), (String.eqb word "WARN"); reflexivity.
Qed.

(** A line that ends with a tag: the tag code is the text between the
    brackets. *)
Lemma get_message_tag_tag_at_end (pre category word code : string) :
  category ≠ EmptyString → all_chars is_upper_alnum category = true →
  severity_word word →
  code ≠ EmptyString → all_chars is_upper_alnum_us code = true →
  get_message_tag (pre +:+ tag_text category word code EmptyString)
  = (severity_of_word word, Some (category +:+ "_" +:+ word +:+ "_" +:+ code)).
Proof.
  intros Hcne Hcat Hword Hne Hcode.
  rewrite get_message_tag_tagged by (try assumption; reflexivity).
  f_equal. f_equal. unfold tag_text.
  set (body := category +:+ "_" +:+ word +:+ "_" +:+ code).
  replace ("[" +:+ category +:+ "_" +:+ word +:+ "_" +:+ code +:+ "]" +:+ EmptyString)
    with ("[" +:+ body +:+ "]")
    by (unfold body; rewrite !append_assoc; reflexivity).
  replace (String.length ("[" +:+ body +:+ "]") - 1)%nat
    with (String.length "[" + String.length body)%nat
    by (rewrite !length_append; simpl; lia).
  exact (slice_middle "[" body "]").
Qed.

(** A line that ends with a tag and white space: the tag code keeps the
    closing bracket, and so is not the text between the brackets. *)
Lemma get_message_tag_tag_then_space (pre category word code : string)
    (c : ascii) (space : string) :
  category ≠ EmptyString → all_chars is_upper_alnum category = true →
  severity_word word →
  code ≠ EmptyString → all_chars is_upper_alnum_us code = true →
  all_chars is_space (String c space) = true →
  get_message_tag (pre +:+ tag_text category word code (String c space))
  = (severity_of_word word,
     Some ((category +:+ "_" +:+ word +:+ "_" +:+ code) +:+ "]"
           +:+ substring 0 (String.length space) (String c space))).
Proof.
  intros Hcne Hcat Hword Hne Hcode Hspace.
  rewrite get_message_tag_tagged by assumption.
  f_equal. f_equal. unfold tag_text, slice.
  set (body := category +:+ "_" +:+ word +:+ "_" +:+ code).
  replace ("[" +:+ category +:+ "_" +:+ word +:+ "_" +:+ code +:+ "]"
           +:+ String c space)
    with ("[" +:+ (body +:+ "]") +:+ String c space)
    by (unfold body; rewrite !append_assoc; reflexivity).
  replace (String.length ("[" +:+ (body +:+ "]") +:+ String c space) - 1 - 1)%nat
    with (String.length (body +:+ "]") + String.length space)%nat
    by (rewrite !length_append; simpl; lia).
  change 1%nat with (String.length "[") at 1.
  rewrite substring_append_skip, substring_0_append, append_assoc.
  reflexivity.
Qed.

(** ** Lines and their tags *)

(** A line of unknown severity leaves a tracker as it is. *)
Lemma add_from_line_unknown (t : TagTracker) (line : string) :
  get_message_tag line = (SEVERITY_UNKNOWN, None) → add_from_line t line = t.
Proof. intros H. unfold add_from_line. now rewrite H. Qed.

(** C5 (on the code): a tag followed by a space is given a tag code that
    keeps the closing bracket, the last character of the match being dropped
    in its place; the instances quoted with the rule evaluate as stated. *)
Theorem C5_get_message_tag_trailing_space :
  get_message_tag "[FOO_ERROR_BAR123] "
  = (SEVERITY_ERROR, Some "FOO_ERROR_BAR123]")
  ∧ get_message_tag "[FOO_ERROR_BAR123]"
    = (SEVERITY_ERROR, Some "FOO_ERROR_BAR123")
  ∧ get_message_tag "Warning: disk low" = (SEVERITY_WARN, None)
  ∧ get_message_tag "an ERROR: and a warning:" = (SEVERITY_ERROR, None)
  ∧ get_message_tag "no severity here" = (SEVERITY_UNKNOWN, None)
  ∧ from_output "no severity here" = TagTracker_init
  ∧ tag_totals (from_output "[FOO_ERROR_BAR123] ")
    = [∅; ∅; {["FOO_ERROR_BAR123]" := 1]}].
Proof. repeat split; vm_compute; reflexivity. Qed.

(** ** Instances *)


Lemma sample_world_live n pid : (2 <= n)%nat → poll sample_world n pid = true.
Proof. intros H. change (poll sample_world n pid) with (2 <=? n)%nat.
  now apply Nat.leb_le. Qed.

Lemma sample_tasks_NoDup : NoDup sample_tasks.
Proof.
  unfold sample_tasks.
  repeat (apply NoDup_cons; split; [rewrite ?elem_of_cons, ?elem_of_nil; lia |]).
  apply NoDup_nil_2.
Qed.

Lemma C4_run_tasks_partition_witness :
  NoDup sample_tasks
  ∧ ∃ st r,
      run_tasks 3 sample_world sample_config sample_tasks sample_store
      = Some (st, Ret r)
      ∧ printed (trace st) ≡ₚ sample_tasks
      ∧ complete_tasks r ++ failed_tasks r ≡ₚ sample_tasks.
Proof.
  split; [exact sample_tasks_NoDup |].
  destruct (C4_run_tasks_partition sample_world sample_config sample_tasks
              sample_store 2%nat 3%nat sample_tasks_NoDup
              ltac:(intros; reflexivity) ltac:(intros; simpl; lia)
              ltac:(simpl; lia) sample_world_live ltac:(lia))
    as (st & r & Hrun & Hp & _ & _ & Hu).
  exists st, r. auto.
Defined.

Lemma C9_logged_command_prefix_witness :
  NoDup sample_tasks
  ∧ ∃ st o,
      run_tasks 3 sample_world sample_config sample_tasks sample_store
      = Some (st, o)
      ∧ length (popens (trace st)) = 3%nat.
Proof.
  split; [exact sample_tasks_NoDup |].
  destruct (C9_logged_command_prefix sample_world sample_config sample_tasks
              sample_store 2%nat 3%nat sample_tasks_NoDup
              ltac:(simpl; lia) sample_world_live ltac:(lia))
    as (st & o & Hrun & Hlen & _).
  exists st, o. auto.
Defined.

Lemma C10_totals_bound_tag_counts_witness :
  reachable (from_output "[A_WARN_B]")
  ∧ dict_sum (tag_totals (from_output "[A_WARN_B]") !!! 1%nat)
    <= totals (from_output "[A_WARN_B]") !!! 1%nat.
Proof.
  assert (Hr : reachable (from_output "[A_WARN_B]"))
    by (apply reachable_output, reachable_init).
  split; [exact Hr |].
  destruct (C10_totals_bound_tag_counts _ Hr) as (_ & _ & H).
  exact (proj1 (H 1%nat ltac:(lia))).
Defined.

Lemma get_diffs_disjoint_sample :
  get_diffs sample_gold_tree sample_test_tree "."
  = Ret (mkDiffs ["./b.txt"] ["./a.usda"] ["sub/c.txt"] ["./new.txt"])
  ∧ ¬ ("./a.usda" ∈ ["./a.usda"] ∧ "./a.usda" ∈ ["./new.txt"]).
Proof.
  assert (Hrun : get_diffs sample_gold_tree sample_test_tree "."
                 = Ret (mkDiffs ["./b.txt"] ["./a.usda"] ["sub/c.txt"] ["./new.txt"]))
    by (vm_compute; reflexivity).
  split; [exact Hrun |].
  pose proof (get_diffs_disjoint sample_gold_tree sample_test_tree "." _
                eq_refl eq_refl eq_refl eq_refl eq_refl eq_refl eq_refl Hrun
                "./a.usda") as H.
  exact (proj1 (proj2 (proj2 (proj2 (proj2 H))))).
Defined.

(** C7: a file that both trees have, with the same size, but that cannot be
    opened in the test tree, is put in two of the lists: the comparison of
    either walk raises, and [get_diffs] reports [./a.usda] as missing and
    as extra, though it is a file of the golden tree. *)
Theorem C7_get_diffs_unreadable_file :
  listed sample_gold_tree "." "a.usda"
  ∧ listed sample_locked_tree "." "a.usda"
  ∧ get_diffs sample_gold_tree sample_locked_tree "."
    = Ret (mkDiffs ["./b.txt"; "sub/c.txt"] [] ["./a.usda"] ["./a.usda"]).
Proof.
  split; [| split].
  - eexists. split; [apply list_elem_of_here |].
    split; [reflexivity | apply list_elem_of_here].
  - eexists. split; [apply list_elem_of_here |].
    split; [reflexivity | apply list_elem_of_here].
  - vm_compute. reflexivity.
Qed.

(** A directory whose name has a backslash in it is looked for, in the other
    tree, at the path with a slash in its place: when such a tree is
    compared with itself, the file of that directory is reported as missing
    and as extra, under the path with the slash. *)
Lemma get_diffs_backslash_directory :
  get_diffs sample_backslash_tree sample_backslash_tree "."
  = Ret (mkDiffs [] [] ["a/b/f.txt"] ["a/b/f.txt"]).
Proof. vm_compute. reflexivity. Qed.

(** ** Stripping the end of a text *)

Lemma rstrip_split (p : ascii → bool) (s : string) :
  ∃ tail, s = rstrip p s +:+ tail ∧ all_chars p tail = true.
Proof.
  induction s as [|c s (tail & Hs & Htail)]; [now exists EmptyString |].
  cbn [rstrip]. destruct (rstrip p s) as [|d r] eqn:E.
  - rewrite append_nil_l in Hs. subst tail. destruct (p c) eqn:Hc.
    + exists (String c s). split; [reflexivity |]. cbn [all_chars].
      now rewrite Hc, Htail.
    + exists s. now split.
  - exists tail. split; [| exact Htail].
    rewrite (append_cons c). now f_equal.
Qed.

Lemma rstrip_last (p : ascii → bool) (s : string) :
  ∀ r c, rstrip p s = r +:+ String c EmptyString → p c = false.
Proof.
  induction s as [|d s IH]; intros r c.
  - destruct r; discriminate.
  - cbn [rstrip]. destruct (rstrip p s) as [|e r'] eqn:E.
    + destruct (p d) eqn:Hd; [destruct r; discriminate |].
      destruct r as [|x r]; [now intros [= <-] |].
      rewrite append_cons. intros [= _ H]. destruct r; discriminate.
    + destruct r as [|x r].
      * rewrite append_nil_l. discriminate.
      * rewrite append_cons. intros [= _ H]. now apply (IH r).
Qed.

Lemma rstrip_idem (p : ascii → bool) (s : string) :
  (∀ r c, s = r +:+ String c EmptyString → p c = false) → rstrip p s = s.
Proof.
  induction s as [|d s IH]; [reflexivity |]. intros H. cbn [rstrip].
  destruct s as [|e s].
  - cbn [rstrip]. now rewrite (H EmptyString d).
  - rewrite IH; [reflexivity |]. intros r c Hr.
    apply (H (String d r) c). rewrite append_cons. now f_equal.
Qed.

Lemma contains_char_prefix_part (c : ascii) (s t : string) :
  contains_char c (s +:+ t) = false → contains_char c s = false.
Proof. rewrite contains_char_append. now intros [? ?]%orb_false_elim. Qed.

(** ** The output of a process *)

(** X1: the text kept of the two streams of a process is the text of the
    first followed by the text of the second, without any carriage return
    and without the line feeds at its end: it contains no carriage return,
    does not end with a line feed, and differs from the two texts joined,
    their carriage returns removed, by line feeds at the end only. *)
Theorem X1_get_process_output_stripped (cmd_stdout cmd_stderr : string) :
  let out := get_process_output cmd_stdout cmd_stderr in
  let joined :=
    replace (String CR EmptyString) EmptyString cmd_stdout
    +:+ replace (String CR EmptyString) EmptyString cmd_stderr in
  contains_char CR out = false
  ∧ (∀ r c, out = r +:+ String c EmptyString → c ≠ LF)
  ∧ (∃ tail, joined = out +:+ tail
             ∧ all_chars (fun c => char_eqb c LF) tail = true)
  ∧ get_process_output out EmptyString = out.
Proof.
  intros out joined.
  assert (Hout : out = rstrip (fun c => char_eqb c LF || char_eqb c CR) joined).
  { unfold out, joined, get_process_output.
    destruct cmd_stdout, cmd_stderr; cbn [replace intersperse_all];
      rewrite ?append_nil_l, ?append_empty_r; reflexivity. }
  assert (Hcr : contains_char CR joined = false).
  { unfold joined. rewrite contains_char_append.
    now rewrite !replace_char_removed. }
  destruct (rstrip_split (fun c => char_eqb c LF || char_eqb c CR) joined)
    as (tail & Hj & Htail).
  rewrite <- Hout in Hj.
  assert (Hcr_out : contains_char CR out = false).
  { rewrite Hj in Hcr. now apply contains_char_prefix_part in Hcr. }
  assert (Hlast : ∀ r c, out = r +:+ String c EmptyString →
            (char_eqb c LF || char_eqb c CR) = false).
  { intros r c Hr. rewrite Hout in Hr.
    exact (rstrip_last _ _ _ _ Hr). }
  split; [exact Hcr_out |]. split; [| split].
  - intros r c Hr ->. specialize (Hlast r LF Hr). discriminate.
  - exists tail. split; [exact Hj |].
    rewrite Hj, contains_char_append in Hcr.
    apply orb_false_elim in Hcr as [_ Hcr]. clear - Htail Hcr.
    induction tail as [|c tail IH]; [reflexivity |].
    cbn [all_chars contains_char] in *.
    apply andb_prop in Htail as [Hc Ht].
    apply orb_false_elim in Hcr as [Hc' Hcr].
    rewrite (IH Hcr Ht), andb_true_r.
    destruct (char_eqb c LF) eqn:E; [reflexivity |].
    cbn [orb] in Hc. apply char_eqb_eq in Hc as ->.
    now rewrite char_eqb_refl in Hc'.
  - unfold get_process_output at 1. destruct out as [|c o] eqn:Eo; [reflexivity |].
    rewrite append_nil_l, replace_char_absent by exact Hcr_out.
    apply rstrip_idem. exact Hlast.
Qed.

(** ** The text of a command line *)

Lemma join_with_cons (sep x y : string) (l : list string) :
  join_with sep (x :: y :: l) = x +:+ sep +:+ join_with sep (y :: l).
Proof. reflexivity. Qed.

Lemma command_step_quoted (i : nat) (cmd arg : string) :
  command_step (i, cmd) arg
  = (S i, (if (0 <? i)%nat then cmd +:+ " " else cmd) +:+ quoted_arg arg).
Proof.
  unfold command_step, quoted_arg.
  destruct (contains_char " " arg); reflexivity.
Qed.

Lemma fold_command_step_join (l : list string) :
  ∀ i cmd, l ≠ [] →
    snd (fold_left command_step l (S i, cmd))
    = cmd +:+ " " +:+ join_with " " (map quoted_arg l).
Proof.
  induction l as [|a l IH]; intros i cmd Hne; [done |].
  cbn [fold_left]. rewrite command_step_quoted. cbn [Nat.ltb Nat.leb].
  destruct l as [|b l].
  - cbn [fold_left snd map join_with]. now rewrite append_assoc.
  - rewrite IH by done. cbn [map]. rewrite join_with_cons.
    now rewrite !append_assoc.
Qed.

(** X2: the text of a command is its arguments joined by single spaces,
    each argument that contains a space being put between double quotes. *)
Theorem X2_get_process_command_join (cmd_args : list string) :
  get_process_command cmd_args = join_with " " (map quoted_arg cmd_args).
Proof.
  unfold get_process_command. destruct cmd_args as [|a l]; [reflexivity |].
  cbn [fold_left]. rewrite command_step_quoted. cbn [Nat.ltb Nat.leb].
  rewrite append_nil_l. destruct l as [|b l]; [reflexivity |].
  now rewrite fold_command_step_join.
Qed.

(** ** Normalized paths *)

(** X3: a path normalized by [norm_slashes] has no backslash left and the
    same length; a path without a backslash is left as it is, so that
    normalizing twice changes nothing more. *)
Theorem X3_norm_slashes_spec (path : string) :
  contains_char "\" (norm_slashes path) = false
  ∧ String.length (norm_slashes path) = String.length path
  ∧ (contains_char "\" path = false → norm_slashes path = path)
  ∧ norm_slashes (norm_slashes path) = norm_slashes path.
Proof.
  assert (H1 : contains_char "\" (norm_slashes path) = false)
    by now apply replace_char_removed.
  split; [exact H1 |]. split; [apply length_replace_char |]. split.
  - apply replace_char_absent.
  - now apply replace_char_absent.
Qed.

Lemma join_path_cons (path0 p : string) (pathv : list string) :
  join_path path0 (p :: pathv)
  = join_path ((if ends_with_slash path0 then path0 else path0 +:+ "/") +:+ p) pathv.
Proof. reflexivity. Qed.

(** X4: when the starting path and every component but the last are not
    empty and do not end with a slash, [join_path] gives the starting path
    and the components separated by single slashes. *)
Theorem X4_join_path_join (pathv : list string) :
  ∀ path0,
    Forall (fun p => p ≠ EmptyString ∧ ends_with_slash p = false)
           (removelast (path0 :: pathv)) →
    join_path path0 pathv = join_with "/" (path0 :: pathv).
Proof.
  induction pathv as [|p pathv IH]; intros path0 H; [reflexivity |].
  rewrite join_path_cons, join_with_cons.
  change (removelast (path0 :: p :: pathv))
    with (path0 :: removelast (p :: pathv)) in H.
  apply Forall_cons in H as [[_ H0] H]. rewrite H0.
  destruct pathv as [|q pathv].
  - cbn [join_path fold_left join_with]. now rewrite append_assoc.
  - change (removelast (p :: q :: pathv))
      with (p :: removelast (q :: pathv)) in H.
    apply Forall_cons in H as [[Hp Hs] H].
    rewrite IH.
    + rewrite !join_with_cons. now rewrite !append_assoc.
    + change (removelast (((path0 +:+ "/") +:+ p) :: q :: pathv))
        with (((path0 +:+ "/") +:+ p) :: removelast (q :: pathv)).
      apply Forall_cons. split; [| exact H]. split.
      * destruct path0; discriminate.
      * now rewrite ends_with_slash_append.
Qed.

(** ** Lines put together again *)

Lemma concat_splitlines_from (n : nat) :
  ∀ s cur, (String.length s <= n)%nat →
    concat_strings (splitlines_from true cur s) = cur +:+ s.
Proof.
  unfold concat_strings.
  induction n as [|n IH]; intros s cur Hlen.
  - destruct s; [| simpl in Hlen; lia]. cbn [splitlines_from].
    destruct cur; [reflexivity |]. cbn [fold_right]. now rewrite !append_empty_r.
  - destruct s as [|c s].
    { cbn [splitlines_from]. destruct cur; [reflexivity |].
      cbn [fold_right]. now rewrite !append_empty_r. }
    simpl in Hlen. cbn [splitlines_from].
    destruct (char_eqb c CR) eqn:Ec.
    + apply char_eqb_eq in Ec as ->. destruct s as [|c2 s].
      * cbn [fold_right]. now rewrite append_empty_r.
      * destruct (char_eqb c2 LF) eqn:E2; cbn [fold_right].
        -- apply char_eqb_eq in E2 as ->.
           rewrite IH by (simpl in Hlen; lia).
           now rewrite append_nil_l, append_assoc.
        -- rewrite IH by (simpl in *; lia).
           now rewrite append_nil_l, append_assoc.
    + destruct (is_linebreak c); cbn [fold_right].
      * rewrite IH by lia. now rewrite append_nil_l, append_assoc.
      * rewrite IH by lia. now rewrite append_assoc.
Qed.

(** The lines of a text, kept with their ends, make up the text. *)
Lemma concat_splitlines (s : string) : concat_strings (splitlines true s) = s.
Proof.
  unfold splitlines.
  rewrite (concat_splitlines_from (String.length s)) by lia.
  apply append_nil_l.
Qed.

(** X5: an output text none of whose lines is an error or a warning is
    echoed as it is; no escape sequence is put into it. *)
Theorem X5_colorize_process_output_plain (output : string) :
  (∀ line, line ∈ splitlines true output →
     (get_message_tag line).1 ≠ SEVERITY_ERROR
     ∧ (get_message_tag line).1 ≠ SEVERITY_WARN) →
  colorize_process_output output = output.
Proof.
  intros H. unfold colorize_process_output.
  rewrite <- (concat_splitlines output) at 2.
  revert H. generalize (splitlines true output) as l. intros l H.
  rewrite <- (append_nil_l (concat_strings l)).
  generalize EmptyString as acc. revert H.
  induction l as [|x l IH]; intros H acc; cbn [fold_left].
  - unfold concat_strings. cbn [fold_right]. now rewrite append_empty_r.
  - destruct (H x) as [He Hw]; [left |].
    destruct (get_message_tag x) as [severity tag]. cbn [fst] in He, Hw.
    apply Z.eqb_neq in He, Hw. rewrite He, Hw. cbn [colorize LOG_COLOR_DEFAULT].
    rewrite IH by (intros line Hl; apply H; now right).
    unfold concat_strings. cbn [fold_right]. now rewrite append_assoc.
Qed.

(** ** Adding to a dictionary *)

(** X6: [add_in_dictionary] adds [value] to the number at [key], taking a
    missing entry for zero; it leaves every other entry as it is, raises the
    sum of the dictionary by [value], and two additions give the same
    dictionary in either order. *)
Theorem X6_add_in_dictionary_spec (d : gmap string Z) (key : string) (value : Z) :
  add_in_dictionary d key value !! key = Some (default 0 (d !! key) + value)
  ∧ (∀ k, k ≠ key → add_in_dictionary d key value !! k = d !! k)
  ∧ dict_sum (add_in_dictionary d key value) = dict_sum d + value
  ∧ ∀ key' value',
      add_in_dictionary (add_in_dictionary d key value) key' value'
      = add_in_dictionary (add_in_dictionary d key' value') key value.
Proof.
  split; [| split; [| split]].
  - rewrite lookup_add_in_dictionary. rewrite decide_True by reflexivity.
    destruct (d !! key); cbn [default]; f_equal; lia.
  - intros k Hk. rewrite lookup_add_in_dictionary.
    now rewrite decide_False by congruence.
  - apply dict_sum_add_in_dictionary.
  - intros key' value'. apply map_eq. intros k.
    rewrite !lookup_add_in_dictionary.
    destruct (decide (key' = k)) as [-> | Hk'], (decide (key = k)) as [E | Hk];
      try subst k; rewrite ?decide_True by reflexivity;
      rewrite ?decide_False by congruence; try reflexivity.
    destruct (d !! key); f_equal; lia.
Qed.

(** ** What a tracker counts *)

Lemma dict_add_empty_r (d : gmap string Z) : dict_add d ∅ = d.
Proof. unfold dict_add. apply (right_id ∅ _). Qed.

Lemma dict_add_single (d : gmap string Z) (tag : string) (n : Z) :
  dict_add d (add_in_dictionary ∅ tag n) = add_in_dictionary d tag n.
Proof.
  apply map_eq. intros k. unfold dict_add.
  rewrite lookup_union_with, !lookup_add_in_dictionary, !lookup_empty.
  destruct (decide (tag = k)) as [-> | Hk].
  - destruct (d !! k); reflexivity.
  - destruct (d !! k); reflexivity.
Qed.

(** The shape [__init__] gives a tracker. *)
Lemma tracker_shape (t : TagTracker) :
  length (totals t) = 3%nat → length (tag_totals t) = 3%nat →
  ∃ a0 a1 a2 d0 d1 d2, t = tracker3 a0 a1 a2 d0 d1 d2.
Proof.
  destruct t as [tot tags]. cbn [totals tag_totals]. intros H1 H2.
  destruct tot as [|a0 [|a1 [|a2 [|]]]]; try discriminate.
  destruct tags as [|d0 [|d1 [|d2 [|]]]]; try discriminate.
  now exists a0, a1, a2, d0, d1, d2.
Qed.

(** One line adds to a tracker what it adds to an empty one. *)
Lemma add_from_line_merge (a0 a1 a2 : Z) (d0 d1 d2 : gmap string Z) (line : string) :
  ∃ b0 b1 b2 e0 e1 e2,
    add_from_line TagTracker_init line = tracker3 b0 b1 b2 e0 e1 e2
    ∧ add_from_line (tracker3 a0 a1 a2 d0 d1 d2) line
      = tracker3 (a0 + b0) (a1 + b1) (a2 + b2)
                 (dict_add d0 e0) (dict_add d1 e1) (dict_add d2 e2).
Proof.
  unfold add_from_line.
  destruct (get_message_tag_cases line) as (sev & tag & -> & Hcases).
  destruct Hcases as [[Htag Hsev] | [-> Hsev]].
  - destruct tag as [tag|]; [| congruence].
    destruct tag as [|ch tag];
      destruct Hsev as [-> | [-> | ->]]; cbn;
      eexists _, _, _, _, _, _; (split; [reflexivity |]);
      rewrite ?dict_add_single, ?dict_add_empty_r, ?Z.add_0_r; reflexivity.
  - destruct Hsev as [-> | [-> | ->]]; cbn;
      eexists _, _, _, _, _, _; (split; [reflexivity |]);
      rewrite ?dict_add_empty_r, ?Z.add_0_r; reflexivity.
Qed.

Lemma add_from_tracker_init_r (t : TagTracker) :
  length (totals t) = 3%nat → length (tag_totals t) = 3%nat →
  add_from_tracker t TagTracker_init = t.
Proof.
  intros H1 H2.
  destruct (tracker_shape t H1 H2) as (a0 & a1 & a2 & d0 & d1 & d2 & ->).
  change TagTracker_init with (tracker3 0 0 0 ∅ ∅ ∅).
  rewrite add_from_tracker_3. now rewrite !dict_add_empty_r, !Z.add_0_r.
Qed.

Lemma fold_add_from_line_merge (lines : list string) :
  ∀ a0 a1 a2 d0 d1 d2 b0 b1 b2 e0 e1 e2,
    ∃ c0 c1 c2 f0 f1 f2,
      fold_left add_from_line lines (tracker3 b0 b1 b2 e0 e1 e2)
      = tracker3 c0 c1 c2 f0 f1 f2
      ∧ fold_left add_from_line lines
          (tracker3 (a0 + b0) (a1 + b1) (a2 + b2)
                    (dict_add d0 e0) (dict_add d1 e1) (dict_add d2 e2))
        = tracker3 (a0 + c0) (a1 + c1) (a2 + c2)
                   (dict_add d0 f0) (dict_add d1 f1) (dict_add d2 f2).
Proof.
  induction lines as [|line lines IH]; intros.
  - eexists _, _, _, _, _, _. split; reflexivity.
  - cbn [fold_left].
    destruct (add_from_line_merge b0 b1 b2 e0 e1 e2 line)
      as (x0 & x1 & x2 & g0 & g1 & g2 & Hinit & ->).
    destruct (add_from_line_merge (a0 + b0) (a1 + b1) (a2 + b2)
                (dict_add d0 e0) (dict_add d1 e1) (dict_add d2 e2) line)
      as (y0 & y1 & y2 & h0 & h1 & h2 & Hinit' & ->).
    rewrite Hinit in Hinit'. injection Hinit' as <- <- <- <- <- <-.
    rewrite <- !Z.add_assoc, !dict_add_assoc. apply IH.
Qed.

(** X7: adding the lines of an output text to a tracker is the same as
    merging into it the tracker built from that text alone. *)
Theorem X7_add_from_output_merge (t : TagTracker) (output : string) :
  length (totals t) = 3%nat → length (tag_totals t) = 3%nat →
  add_from_output t output = add_from_tracker t (from_output output).
Proof.
  intros H1 H2.
  destruct (tracker_shape t H1 H2) as (a0 & a1 & a2 & d0 & d1 & d2 & ->).
  unfold from_output, add_from_output.
  destruct (fold_add_from_line_merge (splitlines false output)
              a0 a1 a2 d0 d1 d2 0 0 0 ∅ ∅ ∅)
    as (c0 & c1 & c2 & f0 & f1 & f2 & Hinit & Ht).
  rewrite !Z.add_0_r, !dict_add_empty_r in Ht.
  change TagTracker_init with (tracker3 0 0 0 ∅ ∅ ∅).
  now rewrite Ht, Hinit, add_from_tracker_3.
Qed.

Lemma add_from_line_tracker3 (a0 a1 a2 : Z) (d0 d1 d2 : gmap string Z)
    (line : string) :
  let sev := (get_message_tag line).1 in
  let tag := (get_message_tag line).2 in
  let plus i := if sev =? i then 1 else 0 in
  let dict i d :=
    if (sev =? i) && text_truthy tag
    then add_in_dictionary d (default EmptyString tag) 1 else d in
  add_from_line (tracker3 a0 a1 a2 d0 d1 d2) line
  = tracker3 (a0 + plus 0) (a1 + plus 1) (a2 + plus 2)
             (dict 0 d0) (dict 1 d1) (dict 2 d2).
Proof.
  unfold add_from_line.
  destruct (get_message_tag_cases line) as (sev & tag & -> & Hcases).
  cbn [fst snd].
  destruct Hcases as [[Htag Hsev] | [-> Hsev]].
  - destruct tag as [tag|]; [| congruence].
    destruct tag as [|ch tag];
      destruct Hsev as [-> | [-> | ->]]; cbn; rewrite ?Z.add_0_r; reflexivity.
  - destruct Hsev as [-> | [-> | ->]]; cbn; rewrite ?Z.add_0_r; reflexivity.
Qed.

Lemma length_filter_cons {A : Type} (P : A → Prop) `{∀ x, Decision (P x)}
    (x : A) (l : list A) :
  Z.of_nat (length (filter P (x :: l)))
  = (if decide (P x) then 1 else 0) + Z.of_nat (length (filter P l)).
Proof.
  rewrite filter_cons. destruct (decide (P x)); cbn [length]; lia.
Qed.

Lemma fold_add_from_line_counts (lines : list string) :
  ∀ a0 a1 a2 d0 d1 d2,
    let count (i : Z) :=
      Z.of_nat (length (filter (fun line => (get_message_tag line).1 = i) lines)) in
    let tagged (i : Z) :=
      Z.of_nat
        (length (filter (fun line => text_truthy (get_message_tag line).2 = true)
                   (filter (fun line => (get_message_tag line).1 = i) lines))) in
    ∃ f0 f1 f2,
      fold_left add_from_line lines (tracker3 a0 a1 a2 d0 d1 d2)
      = tracker3 (a0 + count 0) (a1 + count 1) (a2 + count 2) f0 f1 f2
      ∧ dict_sum f0 = dict_sum d0 + tagged 0
      ∧ dict_sum f1 = dict_sum d1 + tagged 1
      ∧ dict_sum f2 = dict_sum d2 + tagged 2.
Proof.
  induction lines as [|line lines IH]; intros; subst count tagged.
  - exists d0, d1, d2. cbn. rewrite !Z.add_0_r. auto.
  - cbn [fold_left]. rewrite add_from_line_tracker3.
    edestruct IH as (f0 & f1 & f2 & -> & H0 & H1 & H2).
    exists f0, f1, f2. rewrite H0, H1, H2. clear IH H0 H1 H2.
    assert (Hd : ∀ i d,
      dict_sum (if ((get_message_tag line).1 =? i)
                   && text_truthy (get_message_tag line).2
                then add_in_dictionary d (default EmptyString (get_message_tag line).2) 1
                else d)
      + Z.of_nat
          (length (filter (fun line => text_truthy (get_message_tag line).2 = true)
                     (filter (fun line => (get_message_tag line).1 = i) lines)))
      = dict_sum d
        + Z.of_nat
            (length (filter (fun line => text_truthy (get_message_tag line).2 = true)
                       (filter (fun line => (get_message_tag line).1 = i)
                          (line :: lines))))).
    { intros i d. rewrite (filter_cons (fun line => (get_message_tag line).1 = i)).
      destruct (decide ((get_message_tag line).1 = i)) as [E | E].
      - rewrite length_filter_cons.
        apply Z.eqb_eq in E as ->. cbn [andb].
        destruct (text_truthy (get_message_tag line).2).
        + rewrite decide_True by reflexivity.
          rewrite dict_sum_add_in_dictionary. lia.
        + rewrite decide_False by discriminate. lia.
      - apply Z.eqb_neq in E as ->. reflexivity. }
    assert (Hc : ∀ i a,
      a + (if (get_message_tag line).1 =? i then 1 else 0)
      + Z.of_nat (length (filter (fun line => (get_message_tag line).1 = i) lines))
      = a + Z.of_nat (length (filter (fun line => (get_message_tag line).1 = i)
                                (line :: lines)))).
    { intros i a. rewrite length_filter_cons.
      destruct (decide ((get_message_tag line).1 = i)) as [E | E].
      - apply Z.eqb_eq in E as ->. lia.
      - apply Z.eqb_neq in E as ->. lia. }
    rewrite !Hc, !Hd. auto.
Qed.

(** X8: in the tracker built from an output text, the total of a severity
    is the number of the lines of the text with that severity, and the
    counts of the tags of a severity add up to the number of those lines
    that carry a tag. *)
Theorem X8_from_output_counts (output : string) :
  let t := from_output output in
  totals t
  = [Z.of_nat (length (severity_lines SEVERITY_INFO output));
     Z.of_nat (length (severity_lines SEVERITY_WARN output));
     Z.of_nat (length (severity_lines SEVERITY_ERROR output))]
  ∧ dict_sum <$> tag_totals t
    = [Z.of_nat (length (tagged_lines SEVERITY_INFO output));
       Z.of_nat (length (tagged_lines SEVERITY_WARN output));
       Z.of_nat (length (tagged_lines SEVERITY_ERROR output))].
Proof.
  intros t. subst t. unfold from_output, add_from_output.
  change TagTracker_init with (tracker3 0 0 0 ∅ ∅ ∅).
  destruct (fold_add_from_line_counts (splitlines false output) 0 0 0 ∅ ∅ ∅)
    as (f0 & f1 & f2 & -> & H0 & H1 & H2).
  rewrite dict_sum_empty in H0, H1, H2.
  cbn [tracker3 totals tag_totals fmap list_fmap].
  rewrite H0, H1, H2. split; reflexivity.
Qed.

(** ** The summary of a tracker *)

Lemma append_empty_iff (s t : string) :
  s +:+ t = EmptyString ↔ s = EmptyString ∧ t = EmptyString.
Proof.
  split; [| now intros [-> ->]].
  destruct s; [now rewrite append_nil_l | rewrite append_cons; discriminate].
Qed.

Lemma _get_total_suffix_empty (self : TagTracker) colored name severity color :
  _get_total_suffix self colored name severity color = EmptyString
  ↔ totals self !!! list_index (length (totals self)) severity = 0.
Proof.
  unfold _get_total_suffix.
  destruct (truthy _) eqn:E; cbn [negb].
  - apply truthy_spec in E. split; [| done].
    destruct colored; [destruct color |]; cbn [colorize];
      rewrite ?append_cons; discriminate.
  - split; [| done]. intros _.
    destruct (Z.eq_dec (totals self !!! list_index (length (totals self)) severity) 0)
      as [H | H]; [exact H |].
    apply truthy_spec in H. congruence.
Qed.

(** X9: the summary of a tracker is empty exactly when the tracker counts
    no error and no warning; otherwise it starts with the errors, if any. *)
Theorem X9_get_summary_suffix_empty (self : TagTracker) (colored : bool) :
  length (totals self) = 3%nat →
  (get_summary_suffix self colored = EmptyString
   ↔ totals self !!! 2%nat = 0 ∧ totals self !!! 1%nat = 0)
  ∧ String.prefix
      (_get_total_suffix self colored "error" SEVERITY_ERROR LOG_COLOR_RED)
      (get_summary_suffix self colored) = true.
Proof.
  intros Hlen. unfold get_summary_suffix. rewrite append_nil_l. split.
  - rewrite append_empty_iff, !_get_total_suffix_empty, Hlen. reflexivity.
  - apply prefix_append.
Qed.

(** ** The processes running at a time *)

Lemma extends_refl (st : sched) : extends st st.
Proof. exists []. now rewrite app_nil_r. Qed.

Lemma extends_trans (st1 st2 st3 : sched) :
  extends st1 st2 → extends st2 st3 → extends st1 st3.
Proof.
  intros (e1 & H1 & P1) (e2 & H2 & P2). exists (e1 ++ e2).
  rewrite H2, H1, app_assoc, popens_app, P1, P2. done.
Qed.

Lemma extends_emit (st : sched) (e : event) :
  popens [e] = [] → extends st (emit st e).
Proof. intros H. now exists [e]. Qed.

Lemma extends_same_trace (st st' : sched) : trace st' = trace st → extends st st'.
Proof. intros H. exists []. now rewrite app_nil_r. Qed.

Lemma extends_wait_and_update_task (w : world) (sl : slot) (st : sched) :
  extends st (wait_and_update_task w sl st).
Proof.
  destruct sl as [[[pid r] a]|]; [| apply extends_refl].
  now exists [EvPrint r (task_log (update_task (communicate w pid) (store st r) a))].
Qed.

Lemma extends_scan_slots (w : world) (rest : list slot) :
  ∀ idx st, extends st (scan_slots w rest idx st).2.
Proof.
  induction rest as [|sl rest IH]; intros idx st; [apply extends_refl |].
  cbn [scan_slots]. destruct sl as [[[pid r] a]|].
  - destruct (poll w (polls st) pid).
    + cbn [snd]. eapply extends_trans;
        [| apply extends_same_trace; reflexivity].
      eapply extends_trans; [| apply extends_wait_and_update_task].
      now apply extends_same_trace.
    + eapply extends_trans; [| apply IH]. now apply extends_same_trace.
  - cbn [snd]. now apply extends_same_trace.
Qed.

Lemma extends_wait_for_available_process (w : world) (fuel : nat) :
  ∀ st i st', wait_for_available_process fuel w st = Some (i, st') →
    extends st st'.
Proof.
  induction fuel as [|fuel IH]; intros st i st'; [discriminate |].
  cbn [wait_for_available_process].
  pose proof (extends_scan_slots w (processes st) 0 st) as Hs.
  destruct (scan_slots w (processes st) 0 st) as [[j|] st1]; cbn [snd] in Hs.
  - now intros [= <- <-].
  - intros H. apply IH in H. eapply extends_trans; [exact Hs |].
    eapply extends_trans; [| exact H]. now apply extends_emit.
Qed.

Lemma extends_fold_wait (w : world) (rest : list slot) :
  ∀ st, extends st (fold_left (fun st sl => wait_and_update_task w sl st) rest st).
Proof.
  induction rest as [|sl rest IH]; intros st; [apply extends_refl |].
  cbn [fold_left]. eapply extends_trans; [| apply IH].
  apply extends_wait_and_update_task.
Qed.

Lemma extends_make_task_directories (c : run_config) (tasks : list ref) :
  ∀ st, extends st (make_task_directories c tasks st).
Proof.
  unfold make_task_directories.
  induction tasks as [|t tasks IH]; intros st; [apply extends_refl |].
  cbn [fold_left]. eapply extends_trans; [| apply IH]. now apply extends_emit.
Qed.

Lemma bounded_extends (n : nat) (st st' : sched) :
  extends st st' → bounded n (trace st) → bounded n (trace st').
Proof.
  intros (evs & -> & Hp) Hb tr' [k Hk].
  symmetry in Hk. apply app_eq_inv in Hk as [(k' & -> & ->) | (k' & Htr & ->)].
  - rewrite popens_app in Hp. apply app_eq_nil in Hp as [Hp _].
    rewrite popens_app, printed_app, Hp, app_nil_r, length_app.
    specialize (Hb (trace st) ltac:(done)). lia.
  - apply Hb. now exists k'.
Qed.

Lemma bounded_popen (n : nat) (tr : list event) (pid : nat) (a : list string) :
  bounded n tr →
  (length (popens tr) + 1 <= length (printed tr) + n)%nat →
  bounded n (tr ++ [EvPopen pid a]).
Proof.
  intros Hb Hlt tr' [k Hk].
  symmetry in Hk. apply app_eq_inv in Hk as [(k' & -> & Hk) | (k' & Htr & ->)].
  - destruct k' as [|e k'].
    + rewrite app_nil_r. now apply Hb.
    + injection Hk as <- Hk. symmetry in Hk. apply app_eq_nil in Hk as [-> _].
      rewrite popens_snoc_popen, printed_snoc_popen, length_app. simpl. lia.
  - apply Hb. now exists k'.
Qed.

Lemma length_pending (ps : list slot) : (length (pending ps) <= length ps)%nat.
Proof.
  induction ps as [|[x|] ps IH]; [done | |].
  - rewrite pending_cons_Some. simpl. lia.
  - rewrite pending_cons_None. simpl. lia.
Qed.

(** The processes started and not yet finalized are those in the slots. *)
Lemma inv_running w c tasks store0 k st :
  sched_inv w c tasks store0 k (pending (processes st)) st →
  length (popens (trace st))
  = (length (pending (processes st)) + length (printed (trace st)))%nat.
Proof.
  intros [_ _ I3 _ I5]. rewrite I5, length_imap.
  apply Permutation_length in I3.
  rewrite length_app, length_fmap in I3. lia.
Qed.

(** The trace of the body of the spawning loop: events without a process
    start, then the start of one process. *)
Lemma trace_spawn_task fuel w c sec st task sec' st' :
  spawn_task fuel w c (Some (sec, st)) task = Some (sec', st') →
  ∃ st1 pid a, extends st st1 ∧ trace st' = trace st1 ++ [EvPopen pid a].
Proof.
  unfold spawn_task.
  destruct (wait_for_available_process fuel w st) as [[i st1]|] eqn:Hw;
    [| discriminate].
  apply extends_wait_for_available_process in Hw.
  destruct (bool_decide (section (store st1 task) ≠ sec));
    intros [= <- <-]; cbn [trace set_processes count_spawn emit].
  - eexists (emit st1 _), _, _. split; [| reflexivity].
    eapply extends_trans; [exact Hw |]. now apply extends_emit.
  - eexists st1, _, _. split; [exact Hw | reflexivity].
Qed.

Section Concurrency.
Variables (w : world) (c : run_config) (tasks : list ref) (store0 : ref → Task).
Variables (B fuel : nat).
Hypothesis tasks_NoDup : NoDup tasks.
Hypothesis poll_live : ∀ n pid, (B <= n)%nat → poll w n pid = true.
Hypothesis fuel_enough : (B < fuel)%nat.

Let inv := sched_inv w c tasks store0.

Lemma spawn_tasks_bounded (n : nat) rest :
  ∀ k sec st, drop k tasks = rest → (k <= length tasks)%nat →
    length (processes st) = S n →
    inv k (pending (processes st)) st →
    bounded (S n) (trace st) →
    ∃ sec' st',
      fold_left (spawn_task fuel w c) rest (Some (sec, st)) = Some (sec', st')
      ∧ inv (length tasks) (pending (processes st')) st'
      ∧ bounded (S n) (trace st').
Proof.
  induction rest as [|task rest IH]; intros k sec st Hdrop Hle Hlen Hinv Hb.
  - simpl. exists sec, st. split; [reflexivity |]. split; [| exact Hb].
    apply drop_nil_inv in Hdrop.
    now replace (length tasks) with k by lia.
  - assert (Hk : tasks !! k = Some task).
    { rewrite <- (Nat.add_0_r k), <- lookup_drop, Hdrop. reflexivity. }
    assert (Hrest : drop (S k) tasks = rest).
    { erewrite drop_S in Hdrop by exact Hk. congruence. }
    assert (Hne : processes st ≠ []).
    { intros E. rewrite E in Hlen. discriminate. }
    destruct (spawn_task_spec w c tasks store0 tasks_NoDup B fuel poll_live
                fuel_enough k sec st task Hk Hne Hinv)
      as (sec1 & st1 & Hsp & Hinv1 & Hlen1).
    cbn [fold_left]. rewrite Hsp.
    apply (IH (S k)); try assumption.
    + apply lookup_lt_is_Some_1. eexists; exact Hk.
    + congruence.
    + destruct (trace_spawn_task _ _ _ _ _ _ _ _ Hsp)
        as (st2 & pid & a & Hext & Htr).
      rewrite Htr. apply bounded_popen.
      * exact (bounded_extends _ _ _ Hext Hb).
      * pose proof (inv_running _ _ _ _ _ _ Hinv1) as Hrun.
        rewrite Htr, popens_snoc_popen, printed_snoc_popen, length_app in Hrun.
        pose proof (length_pending (processes st1)). simpl in Hrun. lia.
Qed.

Hypothesis process_count_pos : 1 <= process_count c.

Lemma run_tasks_bounded :
  ∃ st, run_tasks fuel w c tasks store0
        = Some (st, collect_tasks c (store st) tasks)
        ∧ inv (length tasks) [] st
        ∧ bounded (Z.to_nat (process_count c)) (trace st).
Proof.
  unfold run_tasks. cbv zeta.
  set (st0 := if 1 <? process_count c
              then make_task_directories c tasks (initial_sched c store0)
              else initial_sched c store0).
  assert (Hv : same_view (initial_sched c store0) st0).
  { unfold st0. destruct (1 <? process_count c);
      [apply same_view_make_task_directories | apply same_view_refl]. }
  assert (He : extends (initial_sched c store0) st0).
  { unfold st0. destruct (1 <? process_count c);
      [apply extends_make_task_directories | apply extends_refl]. }
  assert (Hps : processes st0 = replicate (Z.to_nat (process_count c)) None).
  { destruct Hv as (_ & -> & _). reflexivity. }
  destruct (Z.to_nat (process_count c)) as [|n] eqn:En; [lia |].
  destruct (spawn_tasks_bounded n tasks 0 None st0) as (sec & st1 & -> & Hinv & Hb).
  - apply drop_0.
  - lia.
  - now rewrite Hps, length_replicate.
  - rewrite Hps, pending_replicate_None.
    eapply inv_same_view; [exact Hv | apply inv_initial_sched].
  - apply (bounded_extends _ _ _ He).
    intros tr' [k Hk]. cbn [initial_sched trace] in Hk.
    symmetry in Hk. apply app_eq_nil in Hk as [-> _]. simpl. lia.
  - exists (wait_for_all_processes w st1). split; [reflexivity |]. split.
    + apply wait_for_all_spec; assumption.
    + eapply bounded_extends; [| exact Hb]. apply extends_fold_wait.
Qed.
End Concurrency.

(** X10: in a run over distinct tasks whose processes all exit, at no point
    are more than [process_count] processes started and not yet finalized;
    at the end every process started has been finalized. *)
Theorem X10_run_tasks_concurrency (w : world) (c : run_config)
    (tasks : list ref) (store0 : ref → Task) (B fuel : nat) :
  NoDup tasks →
  1 <= process_count c →
  (∀ n pid, (B <= n)%nat → poll w n pid = true) →
  (B < fuel)%nat →
  ∃ st o,
    run_tasks fuel w c tasks store0 = Some (st, o)
    ∧ (∀ tr, tr `prefix_of` trace st →
         Z.of_nat (length (popens tr))
         <= Z.of_nat (length (printed tr)) + process_count c)
    ∧ length (popens (trace st)) = length (printed (trace st)).
Proof.
  intros Hnd Hpc Hlive Hfuel.
  destruct (run_tasks_bounded w c tasks store0 B fuel Hnd Hlive Hfuel Hpc)
    as (st & Hrun & Hinv & Hb).
  exists st, (collect_tasks c (store st) tasks).
  split; [exact Hrun |]. split.
  - intros tr Htr. specialize (Hb tr Htr). lia.
  - destruct (inv_final w c tasks store0 st Hinv) as (Hperm & _ & Hpop).
    rewrite Hpop, length_imap. now apply Permutation_length in Hperm.
Qed.

(** X11: in such a run one process is started for each task, in the order
    of the tasks; the process of a task is given the executable, the input
    path of the task, its output path, the additional arguments of the run,
    those of the task, and the flag --nousage. *)
Theorem X11_run_tasks_spawn_order (w : world) (c : run_config)
    (tasks : list ref) (store0 : ref → Task) (B fuel : nat) :
  NoDup tasks →
  1 <= process_count c →
  (∀ n pid, (B <= n)%nat → poll w n pid = true) →
  (B < fuel)%nat →
  ∃ st o,
    run_tasks fuel w c tasks store0 = Some (st, o)
    ∧ popens (trace st)
      = imap (fun i r =>
                let t := store0 r in
                (i, [exe c;
                     join_path (in_path c) [src t];
                     join_path (out_path c) [dst t; name t +:+ ext c]]
                    ++ exe_args c ++ args t ++ ["--nousage"]))
             tasks.
Proof.
  intros Hnd Hpc Hlive Hfuel.
  destruct (run_tasks_sched w c tasks store0 Hnd B fuel Hlive Hfuel Hpc)
    as (st & Hrun & Hinv).
  destruct (inv_final w c tasks store0 st Hinv) as (_ & _ & Hpop).
  exists st, (collect_tasks c (store st) tasks).
  split; [exact Hrun |]. rewrite Hpop. apply imap_ext. intros i r _.
  unfold spawn_record, task_cmd_args. cbv zeta. f_equal.
  destruct (exe_args c) as [|x xs], (args (store0 r)) as [|y ys];
    cbn [list_truthy]; rewrite ?app_nil_r, <- ?app_assoc; reflexivity.
Qed.

(** ** The order of the tasks returned *)

Lemma filter_by_index {A : Type} (P : A → Prop) `{∀ x, Decision (P x)}
    (l : list A) :
  ∀ f : nat → bool,
    (∀ i t, l !! i = Some t → (P t ↔ f i = true)) →
    filter P l = omap id (imap (fun i t => if f i then Some t else None) l).
Proof.
  induction l as [|x l IH]; intros f Hf; [reflexivity |].
  rewrite filter_cons. cbn [imap omap].
  rewrite (IH (f ∘ S)) by (intros i t Hi; apply (Hf (S i) t Hi)).
  pose proof (Hf 0%nat x eq_refl) as H0.
  destruct (decide (P x)) as [HP | HP], (f 0%nat) eqn:E; cbn [id];
    try reflexivity.
  - apply H0 in HP. congruence.
  - destruct HP. now apply H0.
Qed.

(** X12: the complete and the failed tasks are returned in the order of the
    tasks given: the complete ones are the tasks whose process exits with
    code zero, the failed ones the others. *)
Theorem X12_run_tasks_keeps_order (w : world) (c : run_config)
    (tasks : list ref) (store0 : ref → Task) (B fuel : nat) :
  NoDup tasks →
  (∀ t, t ∈ tasks → success (store0 t) = false) →
  (∀ t, t ∈ tasks → (csv_index (store0 t) < csv_count c)%nat) →
  1 <= process_count c →
  (∀ n pid, (B <= n)%nat → poll w n pid = true) →
  (B < fuel)%nat →
  ∃ st r,
    run_tasks fuel w c tasks store0 = Some (st, Ret r)
    ∧ complete_tasks r
      = omap id (imap (fun i t => if returncode (communicate w i) =? 0
                                  then Some t else None) tasks)
    ∧ failed_tasks r
      = omap id (imap (fun i t => if negb (returncode (communicate w i) =? 0)
                                  then Some t else None) tasks).
Proof.
  intros Hnd Hfresh Hcsv Hpc Hlive Hfuel.
  destruct (run_tasks_sched w c tasks store0 Hnd B fuel Hlive Hfuel Hpc)
    as (st & Hrun & Hinv).
  destruct (inv_final w c tasks store0 st Hinv) as (Hperm & Hstore & _).
  assert (Hsucc : ∀ i t, tasks !! i = Some t →
            success (store st t) = (returncode (communicate w i) =? 0)).
  { intros i t Hi. rewrite (Hstore _ _ Hi). unfold final_task.
    rewrite success_update_task, (Hfresh t) by (eapply list_elem_of_lookup_2, Hi).
    apply orb_false_r. }
  destruct (collect_tasks_Ret c (store st) tasks) as (lg & rs & Hcol).
  { intros t Ht. apply list_elem_of_lookup_1 in Ht as Hi. destruct Hi as [i Hi].
    rewrite (Hstore _ _ Hi). unfold final_task.
    rewrite csv_index_update_task, command_update_task.
    split; [now apply Hcsv | discriminate]. }
  rewrite Hcol in Hrun.
  eexists st, _. split; [exact Hrun |]. cbn [complete_tasks failed_tasks].
  split.
  - apply filter_by_index. intros i t Hi. now rewrite (Hsucc i t Hi).
  - apply (filter_by_index _ _
             (fun i => negb (returncode (communicate w i) =? 0))).
    intros i t Hi. rewrite (Hsucc i t Hi).
    destruct (returncode (communicate w i) =? 0); cbn [negb]; split; congruence.
Qed.

(** ** Waiting for a slot *)

Lemma scan_slots_none (w : world) (rest : list slot) :
  ∀ idx st st', scan_slots w rest idx st = (None, st') →
    processes st' = processes st ∧ trace st' = trace st
    ∧ store st' = store st ∧ (polls st <= polls st')%nat.
Proof.
  induction rest as [|sl rest IH]; intros idx st st'.
  - intros [= <-]. auto.
  - cbn [scan_slots]. destruct sl as [[[pid r] a]|]; [| discriminate].
    destruct (poll w (polls st) pid); [discriminate |].
    intros H. apply IH in H as (-> & -> & -> & Hp).
    cbn [count_poll processes trace store polls] in *. repeat split. lia.
Qed.

Lemma scan_slots_found (w : world) (rest : list slot) :
  ∀ idx st i st',
    drop idx (processes st) = rest →
    scan_slots w rest idx st = (Some i, st') →
    ∃ sl, processes st !! i = Some sl
      ∧ processes st' = <[i := None]> (processes st)
      ∧ match sl with
        | None => trace st' = trace st ∧ store st' = store st
        | Some (pid, r, a) =>
            printed (trace st') = printed (trace st) ++ [r]
            ∧ (∃ n, (polls st <= n < polls st')%nat ∧ poll w n pid = true)
            ∧ store st' r = update_task (communicate w pid) (store st r) a
        end.
Proof.
  induction rest as [|sl rest IH]; intros idx st i st' Hdrop; [discriminate |].
  assert (Hidx : processes st !! idx = Some sl).
  { rewrite <- (Nat.add_0_r idx), <- lookup_drop, Hdrop. reflexivity. }
  cbn [scan_slots]. destruct sl as [[[pid r] a]|].
  - destruct (poll w (polls st) pid) eqn:Hpoll.
    + intros [= <- <-]. exists (Some (pid, r, a)).
      split; [exact Hidx |]. split; [reflexivity |].
      cbn [wait_and_update_task set_processes emit set_store count_poll
           trace store polls processes].
      split; [apply printed_snoc_print |]. split.
      * exists (polls st). split; [lia | exact Hpoll].
      * now rewrite Nat.eqb_refl.
    + intros H. apply IH in H.
      * destruct H as (sl & Hl & Hp & Hsl). exists sl.
        split; [exact Hl |]. split; [exact Hp |].
        destruct sl as [[[pid' r'] a']|]; [| exact Hsl].
        destruct Hsl as (Hpr & (n & Hn & Hpn) & Hst).
        split; [exact Hpr |]. split; [| exact Hst].
        exists n. split; [| exact Hpn]. cbn [count_poll polls] in Hn. lia.
      * cbn [count_poll processes]. erewrite drop_S in Hdrop by exact Hidx.
        congruence.
  - intros [= <- <-]. exists None. split; [exact Hidx |]. repeat split.
Qed.

(** X13: when [wait_for_available_process] returns a slot, that slot was
    empty, or held a process that a poll had found to have exited; the task
    of that process, and no other, has been finalized and echoed, and the
    slot, and no other, has been emptied. *)
Theorem X13_wait_for_available_process_exited (w : world) (fuel : nat)
    (st : sched) (i : nat) (st' : sched) :
  wait_for_available_process fuel w st = Some (i, st') →
  ∃ sl, processes st !! i = Some sl
    ∧ processes st' = <[i := None]> (processes st)
    ∧ match sl with
      | None => printed (trace st') = printed (trace st) ∧ store st' = store st
      | Some (pid, r, a) =>
          printed (trace st') = printed (trace st) ++ [r]
          ∧ (∃ n, (polls st <= n < polls st')%nat ∧ poll w n pid = true)
          ∧ store st' r = update_task (communicate w pid) (store st r) a
      end.
Proof.
  revert st. induction fuel as [|fuel IH]; intros st; [discriminate |].
  cbn [wait_for_available_process].
  destruct (scan_slots w (processes st) 0 st) as [[j|] st1] eqn:Hs.
  - intros [= <- <-].
    destruct (scan_slots_found w _ 0 st j st1 (drop_0 _) Hs)
      as (sl & Hl & Hp & Hsl).
    exists sl. split; [exact Hl |]. split; [exact Hp |].
    destruct sl as [[[pid r] a]|]; [exact Hsl |].
    destruct Hsl as [-> ->]. auto.
  - apply scan_slots_none in Hs as (Hps & Htr & Hst & Hpl).
    intros H. apply IH in H as (sl & Hl & Hp & Hsl).
    cbn [emit processes trace store polls] in *.
    rewrite Hps in Hl, Hp. exists sl. split; [exact Hl |]. split; [exact Hp |].
    rewrite Htr, printed_app, app_nil_r, Hst in Hsl.
    destruct sl as [[[pid r] a]|]; [| exact Hsl].
    destruct Hsl as (Hpr & (n & Hn & Hpn) & Hstore).
    split; [exact Hpr |]. split; [| exact Hstore].
    exists n. split; [lia | exact Hpn].
Qed.

(** ** The one-line summary *)

(** X14: the brief listing of no task is empty and that of one task is its
    name; of two or more tasks the listing gives the names of the first two,
    separated by a comma unless the first is empty, and then the number of
    the remaining tasks, if any. *)
Theorem X14_get_brief_task_listing_cases (a b : Task) (rest : list Task) :
  get_brief_task_listing [] = EmptyString
  ∧ get_brief_task_listing [a] = name a
  ∧ get_brief_task_listing (a :: b :: rest)
    = (if str_truthy (name a) then name a +:+ ", " else EmptyString)
      +:+ name b
      +:+ (if list_truthy rest
           then ", ...(and " +:+ str_of_int (Z.of_nat (length rest)) +:+ " more)"
           else EmptyString).
Proof.
  split; [reflexivity |]. split; [reflexivity |].
  unfold get_brief_task_listing.
  replace (Nat.min (length (a :: b :: rest)) 2) with 2%nat by (simpl; lia).
  cbn [take fold_left str_truthy]. rewrite append_nil_l.
  replace (Z.of_nat (length (a :: b :: rest)) - Z.of_nat 2)
    with (Z.of_nat (length rest)) by (simpl; lia).
  replace (2 <? length (a :: b :: rest))%nat with (list_truthy rest)
    by (destruct rest; reflexivity).
  rewrite take_0. cbn [fold_left].
  destruct (list_truthy rest), (name a); cbn [str_truthy];
    now rewrite ?append_nil_l, ?append_empty_r, ?append_assoc.
Qed.

Lemma str_truthy_append_cons (c : ascii) (s t : string) :
  str_truthy (String c s +:+ t) = true.
Proof. now rewrite append_cons. Qed.

Lemma main_err_zero {A : Type} (failed_tasks : list A) (a b c : Z) :
  main_err failed_tasks a b c = 0
  ↔ list_truthy failed_tasks = false
    ∧ truthy (py_or (py_or a b) c) = false.
Proof.
  rewrite main_err_value, !truthy_py_or.
  destruct (list_truthy failed_tasks), (truthy a || truthy b || truthy c);
    cbn; split; intros H; try lia; try (destruct H; congruence); auto.
Qed.

(** X15: the one-line summary reports success exactly when the exit code
    that [main] computes from the same totals is zero; otherwise it starts
    with the failed conversions, if there are any, and else with the
    differences. *)
Theorem X15_get_summary_success (failed_tasks : list Task)
    (mismatch_total missing_total extra_total : Z) :
  let summary :=
    get_summary failed_tasks mismatch_total missing_total extra_total in
  (summary = "Conversion successful. No differences detected."
   ↔ main_err failed_tasks mismatch_total missing_total extra_total = 0)
  ∧ (failed_tasks ≠ [] → String.prefix "Failed converting " summary = true)
  ∧ (failed_tasks = [] →
     main_err failed_tasks mismatch_total missing_total extra_total ≠ 0 →
     String.prefix "Detected golden file differences. " summary = true).
Proof.
  intros summary. subst summary. rewrite main_err_zero. unfold get_summary.
  destruct (list_truthy failed_tasks) eqn:Ef;
    destruct (truthy (py_or (py_or mismatch_total missing_total) extra_total))
      eqn:Ed; cbn [negb andb]; rewrite ?append_nil_l.
  - rewrite str_truthy_append_cons, !append_assoc.
    split; [split; [discriminate | intros [? _]; discriminate] |].
    split; [intros _; apply prefix_append |].
    intros ->. discriminate.
  - split; [split; [discriminate | intros [? _]; discriminate] |].
    split; [intros _; apply prefix_append |]. intros ->. discriminate.
  - split; [split; [discriminate | intros [_ ?]; discriminate] |].
    split; [intros Hne; apply list_truthy_spec in Hne; congruence |].
    intros _ _. cbn [str_truthy]. apply prefix_append.
  - split; [tauto |]. split.
    + intros Hne. apply list_truthy_spec in Hne. congruence.
    + intros _ Hne. exfalso. apply Hne. auto.
Qed.

(** ** Renaming with retries *)

Lemma rename_loop_app os_rename from_path to_path (n : nat) :
  ∀ retry tr,
    rename_loop os_rename from_path to_path n retry tr
    = (tr ++ (rename_loop os_rename from_path to_path n retry []).1,
       (rename_loop os_rename from_path to_path n retry []).2).
Proof.
  induction n as [|n IH]; intros retry tr; cbn [rename_loop].
  - now rewrite app_nil_r.
  - destruct (os_rename retry) as [u|e].
    + cbn [fst snd]. destruct (0 <? retry)%nat; now rewrite <- ?app_assoc.
    + destruct e; cbn [fst snd];
        try (destruct (0 <? retry)%nat; now rewrite <- ?app_assoc).
      rewrite IH. rewrite (IH _ (_ ++ _)). cbn [fst snd].
      destruct (0 <? retry)%nat; now rewrite <- ?app_assoc.
Qed.

Lemma rename_loop_retries os_rename from_path to_path (n : nat) :
  ∀ retry k,
    (k < n)%nat →
    (∀ j, (j < k)%nat → os_rename (S retry + j)%nat = Raise IOError) →
    os_rename (S retry + k)%nat = Ret tt →
    rename_loop os_rename from_path to_path n (S retry) []
    = (concat (replicate (S k) (retry_events from_path to_path)), Ret true).
Proof.
  induction n as [|n IH]; intros retry k Hk Hfail Hok; [lia |].
  cbn [rename_loop Nat.ltb Nat.leb]. destruct k as [|k].
  - rewrite Nat.add_0_r in Hok. rewrite Hok. reflexivity.
  - assert (H0 : os_rename (S retry) = Raise IOError)
      by (rewrite <- (Hfail 0%nat) by lia; f_equal; lia).
    rewrite H0, rename_loop_app, (IH (S retry) k).
    + reflexivity.
    + lia.
    + intros j Hj. rewrite <- (Hfail (S j)) by lia. f_equal. lia.
    + rewrite <- Hok. f_equal. lia.
Qed.

Lemma rename_loop_exhausted os_rename from_path to_path (n : nat) :
  ∀ retry,
    (∀ j, (j < n)%nat → os_rename (S retry + j)%nat = Raise IOError) →
    rename_loop os_rename from_path to_path n (S retry) []
    = (concat (replicate n (retry_events from_path to_path)), Ret false).
Proof.
  induction n as [|n IH]; intros retry Hfail; [reflexivity |].
  cbn [rename_loop Nat.ltb Nat.leb].
  assert (H0 : os_rename (S retry) = Raise IOError)
    by (rewrite <- (Hfail 0%nat) by lia; f_equal; lia).
  rewrite H0, rename_loop_app, (IH (S retry)).
  - reflexivity.
  - intros j Hj. rewrite <- (Hfail (S j)) by lia. f_equal. lia.
Qed.

(** X16: when the calls of [os.rename] raise [IOError] [k] times and the
    next one, within the limit, succeeds, [rename_with_retry] makes those
    [k + 1] calls, sleeping and logging a warning before each but the
    first, and logs no failure; when each call within the limit raises
    [IOError], it makes as many calls as the limit allows, none when the
    limit is zero, and then logs the failure; it does not raise either way. *)
Theorem X16_rename_with_retry_attempts (os_rename : nat → outcome unit)
    (from_path to_path : string) (retry_limit : nat) :
  (∀ k, (k < retry_limit)%nat →
     (∀ j, (j < k)%nat → os_rename j = Raise IOError) →
     os_rename k = Ret tt →
     rename_with_retry os_rename from_path to_path retry_limit
     = (FsRename from_path to_path
        :: concat (replicate k (retry_events from_path to_path)), Ret tt))
  ∧ ((∀ j, (j < retry_limit)%nat → os_rename j = Raise IOError) →
     rename_with_retry os_rename from_path to_path retry_limit
     = (match retry_limit with
        | O => []
        | S n => FsRename from_path to_path
                 :: concat (replicate n (retry_events from_path to_path))
        end ++ [FsLog (failed_message retry_limit from_path to_path)], Ret tt)).
Proof.
  unfold rename_with_retry. split.
  - intros k Hk Hfail Hok. destruct retry_limit as [|n]; [lia |].
    cbn [rename_loop Nat.ltb Nat.leb app]. destruct k as [|k].
    + rewrite Hok. reflexivity.
    + rewrite (Hfail 0%nat) by lia.
      rewrite rename_loop_app, (rename_loop_retries _ _ _ n 0 k);
        [reflexivity | lia | |].
      * intros j Hj. apply (Hfail (S j)). lia.
      * exact Hok.
  - intros Hfail. destruct retry_limit as [|n]; [reflexivity |].
    cbn [rename_loop Nat.ltb Nat.leb app].
    rewrite (Hfail 0%nat) by lia.
    rewrite rename_loop_app, (rename_loop_exhausted _ _ _ n 0);
      [reflexivity |].
    intros j Hj. apply (Hfail (S j)). lia.
Qed.

(** ** Cleaning the output directory *)




(** ** Unique task names *)

Lemma items_get_set (names : list (string * Z)) (key key' : string) (value : Z) :
  items_get (items_set names key value) key'
  = if String.eqb key key' then Some value else items_get names key'.
Proof.
  induction names as [|[k v] names IH]; cbn [items_set items_get].
  - reflexivity.
  - destruct (String.eqb_spec k key) as [-> | Hne]; cbn [items_get].
    + now destruct (String.eqb key key').
    + rewrite IH. destruct (String.eqb_spec k key') as [-> | Hne'];
        [| reflexivity].
      destruct (String.eqb_spec key key') as [-> | _]; [congruence | reflexivity].
Qed.

Lemma fold_count_name (tasks : list Task) :
  ∀ names have_dupes,
    (fold_left count_name tasks (names, have_dupes)).2 = false
    ↔ have_dupes = false ∧ NoDup (name <$> tasks)
      ∧ ∀ t, t ∈ tasks → items_get names (name t) = None.
Proof.
  induction tasks as [|t tasks IH]; intros names hd.
  - cbn. split; [| tauto]. intros ->. split; [reflexivity |].
    split; [constructor |]. intros t Ht. now apply not_elem_of_nil in Ht.
  - cbn [fold_left count_name]. destruct (items_get names (name t)) as [n|] eqn:E.
    + rewrite IH. split; [intros [? _]; discriminate |].
      intros (_ & _ & H). specialize (H t ltac:(left)). congruence.
    + rewrite IH, fmap_cons, NoDup_cons. split.
      * intros (-> & Hnd & H). split; [reflexivity |]. split.
        -- split; [| exact Hnd]. intros Hin.
           apply list_elem_of_fmap in Hin as (t' & Hn & Ht').
           specialize (H t' Ht'). rewrite items_get_set, Hn, String.eqb_refl in H.
           discriminate.
        -- intros t' [-> | Ht']%elem_of_cons; [exact E |].
           specialize (H t' Ht'). rewrite items_get_set in H.
           now destruct (String.eqb (name t) (name t')).
      * intros (-> & [Hnot Hnd] & H). split; [reflexivity |].
        split; [exact Hnd |]. intros t' Ht'. rewrite items_get_set.
        destruct (String.eqb_spec (name t) (name t')) as [Heq | _];
          [| apply H; now right].
        exfalso. apply Hnot. rewrite Heq. apply list_elem_of_fmap.
        now exists t'.
Qed.

Lemma check_unique_task_names_spec (tasks : list Task) :
  ((check_unique_task_names tasks).2 = true ↔ NoDup (name <$> tasks))
  ∧ ((check_unique_task_names tasks).1 = [] ↔ NoDup (name <$> tasks)).
Proof.
  unfold check_unique_task_names.
  pose proof (fold_count_name tasks [] false) as H.
  destruct (fold_left count_name tasks ([], false)) as [names hd].
  cbn [fst snd] in *.
  assert (Hnd : hd = false ↔ NoDup (name <$> tasks)).
  { rewrite H. split; [tauto |]. intros Hnd. split; [reflexivity |].
    split; [exact Hnd |]. intros t _. reflexivity. }
  rewrite <- Hnd. destruct hd; cbn [negb]; split; split; congruence.
Qed.

(** X18: [check_unique_task_names] returns true exactly when no two tasks
    have the same name, and it logs an error exactly when it returns
    false. *)
Theorem X18_check_unique_task_names_NoDup (tasks : list Task) :
  ((check_unique_task_names tasks).2 = true ↔ NoDup (name <$> tasks))
  ∧ ((check_unique_task_names tasks).1 = [] ↔ NoDup (name <$> tasks)).
Proof. apply check_unique_task_names_spec. Qed.

(** ** Reading a task list *)

Section ParsingFacts.
Variable shlex_split : string → outcome (list string).

Lemma fold_parse_row_Exited fp idx rows code msg :
  fold_left (parse_row shlex_split fp idx) rows (Exited code msg)
  = Exited code msg.
Proof. induction rows as [|r rows IH]; [reflexivity | exact IH]. Qed.

Lemma fold_parse_row_Failed fp idx rows e :
  fold_left (parse_row shlex_split fp idx) rows (Failed e) = Failed e.
Proof. induction rows as [|r rows IH]; [reflexivity | exact IH]. Qed.

Lemma parse_row_skipped fp idx acc n row :
  skipped_row row = true → parse_row shlex_split fp idx acc (n, row) = acc.
Proof.
  intros H. unfold parse_row. destruct acc as [[[tasks sec] sa]| |]; try reflexivity.
  destruct row as [|row0 row]; [reflexivity |]. cbn [skipped_row] in H.
  now rewrite H.
Qed.

Lemma fold_parse_row_filter fp idx (rows : list (nat * list string)) :
  ∀ acc,
    fold_left (parse_row shlex_split fp idx)
      (filter (fun nr => skipped_row nr.2 = false) rows) acc
    = fold_left (parse_row shlex_split fp idx) rows acc.
Proof.
  induction rows as [|[n row] rows IH]; intros acc; [reflexivity |].
  rewrite filter_cons. cbn [snd fold_left].
  destruct (decide (skipped_row row = false)) as [H | H].
  - cbn [fold_left]. apply IH.
  - apply not_false_is_true in H. rewrite parse_row_skipped by exact H.
    apply IH.
Qed.

Hypothesis shlex_split_returns : ∀ arg, ∃ l, shlex_split arg = Ret l.

(** One row, from a state that holds tasks as they are first made. *)
Lemma parse_row_cases fp idx tasks sec sa n row :
  Forall (fresh_task idx) tasks →
  if bad_columns row
  then ∃ msg, parse_row shlex_split fp idx (Parsed (tasks, sec, sa)) (n, row)
              = Exited 1 msg
  else ∃ tasks' sec' sa',
         parse_row shlex_split fp idx (Parsed (tasks, sec, sa)) (n, row)
         = Parsed (tasks', sec', sa')
         ∧ Forall (fresh_task idx) tasks'
         ∧ length tasks'
           = (length tasks + if task_row row then 1 else 0)%nat.
Proof.
  intros Hfresh. unfold bad_columns, task_row, header_row, skipped_row, parse_row.
  destruct row as [|row0 row].
  { cbn. exists tasks, sec, sa. rewrite Nat.add_0_r. auto. }
  destruct (starts_with_char "#" row0) eqn:Ec; cbn [negb andb].
  { exists tasks, sec, sa. rewrite Nat.add_0_r. auto. }
  destruct (starts_with_char "@" row0) eqn:Eh; cbn [negb andb].
  - destruct (negb (length (row0 :: row) =? 1)%nat
              && negb (length (row0 :: row) =? 2)%nat) eqn:El.
    + eexists. reflexivity.
    + destruct row as [|row1 row].
      * eexists _, _, _. split; [reflexivity |]. rewrite Nat.add_0_r. auto.
      * destruct (shlex_split_returns row1) as [l ->].
        eexists _, _, _. split; [reflexivity |]. rewrite Nat.add_0_r. auto.
  - destruct (negb (length (row0 :: row) =? 3)%nat
              && negb (length (row0 :: row) =? 4)%nat) eqn:El.
    + eexists. reflexivity.
    + destruct row as [|row1 [|row2 rest]]; try discriminate El.
      assert (Hnew : ∀ a, Forall (fresh_task idx)
                (tasks ++ [Task_init row0 row1 row2 a idx sec])).
      { intros a. apply Forall_app. split; [exact Hfresh |].
        apply Forall_singleton. repeat split. }
      destruct rest as [|row3 rest].
      * eexists _, _, _. split; [reflexivity |]. split; [apply Hnew |].
        now rewrite length_app.
      * destruct (shlex_split_returns row3) as [l ->].
        eexists _, _, _. split; [reflexivity |]. split; [apply Hnew |].
        now rewrite length_app.
Qed.

Lemma fold_parse_row_cases fp idx (rows : list (nat * list string)) :
  ∀ tasks sec sa,
    Forall (fresh_task idx) tasks →
    if existsb (fun nr => bad_columns nr.2) rows
    then ∃ msg, fold_left (parse_row shlex_split fp idx) rows
                  (Parsed (tasks, sec, sa)) = Exited 1 msg
    else ∃ tasks' sec' sa',
           fold_left (parse_row shlex_split fp idx) rows (Parsed (tasks, sec, sa))
           = Parsed (tasks', sec', sa')
           ∧ Forall (fresh_task idx) tasks'
           ∧ length tasks'
             = (length tasks
                + length (filter (fun nr => task_row nr.2 = true) rows))%nat.
Proof.
  induction rows as [|[n row] rows IH]; intros tasks sec sa Hfresh.
  - cbn. exists tasks, sec, sa. rewrite Nat.add_0_r. auto.
  - cbn [existsb fold_left snd].
    pose proof (parse_row_cases fp idx tasks sec sa n row Hfresh) as Hrow.
    destruct (bad_columns row); cbn [orb].
    + destruct Hrow as [msg ->]. exists msg. apply fold_parse_row_Exited.
    + destruct Hrow as (tasks1 & sec1 & sa1 & -> & Hf1 & Hl1).
      specialize (IH tasks1 sec1 sa1 Hf1).
      destruct (existsb _ rows); [exact IH |].
      destruct IH as (tasks' & sec' & sa' & -> & Hf' & Hl').
      exists tasks', sec', sa'. split; [reflexivity |]. split; [exact Hf' |].
      rewrite Hl', Hl1, filter_cons. cbn [snd].
      destruct (task_row row); [rewrite decide_True by reflexivity
                               | rewrite decide_False by discriminate];
        cbn [length]; lia.
Qed.
End ParsingFacts.

(** X19: when the splitting of arguments does not raise, [parse_tasks]
    leaves the program with code 1 exactly when a row has a wrong number of
    columns (a section header with other than 1 or 2, a task row with other
    than 3 or 4); otherwise it returns one task for each task row, every
    task as [Task.__init__] leaves it and carrying the index of the list;
    empty rows and comment rows make no difference to what it returns. *)
Theorem X19_parse_tasks_rows (shlex_split : string → outcome (list string))
    (fp : csv_file) (csv_index : nat) :
  (∀ arg, ∃ l, shlex_split arg = Ret l) →
  (if existsb (fun nr => bad_columns nr.2) (fp_rows fp)
   then ∃ msg, parse_tasks shlex_split fp csv_index = Exited 1 msg
   else ∃ tasks,
          parse_tasks shlex_split fp csv_index = Parsed tasks
          ∧ Forall (fresh_task csv_index) tasks
          ∧ length tasks
            = length (filter (fun nr => task_row nr.2 = true) (fp_rows fp)))
  ∧ parse_tasks shlex_split
      (mkCsvFile (fp_name fp)
         (filter (fun nr => skipped_row nr.2 = false) (fp_rows fp)))
      csv_index
    = parse_tasks shlex_split fp csv_index.
Proof.
  intros Hsplit. split.
  - unfold parse_tasks.
    pose proof (fold_parse_row_cases shlex_split Hsplit fp csv_index (fp_rows fp)
                  [] None [] (Forall_nil_2 _)) as H.
    destruct (existsb _ (fp_rows fp)).
    + destruct H as [msg ->]. now exists msg.
    + destruct H as (tasks & sec & sa & -> & Hf & Hl). now exists tasks.
  - unfold parse_tasks. cbn [fp_rows].
    change (parse_row shlex_split
              (mkCsvFile (fp_name fp)
                 (filter (fun nr => skipped_row nr.2 = false) (fp_rows fp))))
      with (parse_row shlex_split fp).
    now rewrite fold_parse_row_filter.
Qed.

(** ** The tasks of several lists *)

Lemma indexed_from_cons {A : Type} (k : nat) (x : A) (l : list A) :
  indexed_from k (x :: l) = (k, x) :: indexed_from (S k) l.
Proof.
  unfold indexed_from. rewrite imap_cons, Nat.add_0_r. f_equal.
  apply imap_ext. intros i y _. cbn. f_equal. lia.
Qed.

Section CsvTasksFacts.
Variable shlex_split : string → outcome (list string).

Lemma parse_row_fresh fp idx tasks sec sa n row tasks' sec' sa' :
  parse_row shlex_split fp idx (Parsed (tasks, sec, sa)) (n, row)
  = Parsed (tasks', sec', sa') →
  Forall (fresh_task idx) tasks → Forall (fresh_task idx) tasks'.
Proof.
  unfold parse_row. intros H Hf.
  destruct row as [|row0 row]; [now injection H as <- _ _ |].
  destruct (starts_with_char "#" row0); [now injection H as <- _ _ |].
  destruct (starts_with_char "@" row0).
  - destruct (negb _ && negb _); [discriminate |].
    destruct row as [|row1 row]; [now injection H as <- _ _ |].
    destruct (shlex_split row1); [now injection H as <- _ _ | discriminate].
  - destruct (negb _ && negb _); [discriminate |].
    destruct row as [|row1 [|row2 rest]]; try (now injection H as <- _ _).
    assert (Hnew : ∀ a, Forall (fresh_task idx)
              (tasks ++ [Task_init row0 row1 row2 a idx sec])).
    { intros a. apply Forall_app. split; [exact Hf |].
      apply Forall_singleton. repeat split. }
    destruct rest as [|row3 rest].
    + injection H as <- _ _. apply Hnew.
    + destruct (shlex_split row3); [| discriminate].
      injection H as <- _ _. apply Hnew.
Qed.

Lemma fold_parse_row_fresh fp idx (rows : list (nat * list string)) :
  ∀ tasks sec sa tasks' sec' sa',
    fold_left (parse_row shlex_split fp idx) rows (Parsed (tasks, sec, sa))
    = Parsed (tasks', sec', sa') →
    Forall (fresh_task idx) tasks → Forall (fresh_task idx) tasks'.
Proof.
  induction rows as [|[n row] rows IH]; intros tasks sec sa tasks' sec' sa' H Hf.
  - now injection H as <- _ _.
  - cbn [fold_left] in H.
    destruct (parse_row shlex_split fp idx (Parsed (tasks, sec, sa)) (n, row))
      as [[[tasks1 sec1] sa1]|code msg|e] eqn:E.
    + eapply IH; [exact H |]. eapply parse_row_fresh; eassumption.
    + now rewrite fold_parse_row_Exited in H.
    + now rewrite fold_parse_row_Failed in H.
Qed.

Lemma parse_tasks_fresh fp idx tasks :
  parse_tasks shlex_split fp idx = Parsed tasks → Forall (fresh_task idx) tasks.
Proof.
  unfold parse_tasks.
  destruct (fold_left _ _ _) as [[[tasks' sec] sa]| |] eqn:E; try discriminate.
  intros [= <-]. eapply fold_parse_row_fresh; [exact E | constructor].
Qed.

Lemma fold_get_csv_step_Exited l code msg :
  fold_left (get_csv_step shlex_split) l (Exited code msg) = Exited code msg.
Proof. induction l as [|x l IH]; [reflexivity | exact IH]. Qed.

Lemma fold_get_csv_step_Failed l e :
  fold_left (get_csv_step shlex_split) l (Failed e) = Failed e.
Proof. induction l as [|x l IH]; [reflexivity | exact IH]. Qed.

Lemma fold_get_csv_step_inv (n : nat) (rest : list csv_file) :
  ∀ done r r',
    (length done + length rest <= n)%nat →
    csv_inv shlex_split n (length done) done r →
    fold_left (get_csv_step shlex_split) (indexed_from (length done) rest)
      (Parsed r) = Parsed r' →
    csv_inv shlex_split n (length done + length rest) (done ++ rest) r'.
Proof.
  induction rest as [|fp rest IH]; intros done r r' Hn Hinv H.
  - injection H as <-. now rewrite Nat.add_0_r, app_nil_r.
  - rewrite indexed_from_cons in H. cbn [fold_left get_csv_step] in H.
    destruct (parse_tasks shlex_split fp (length done)) as [tasks|code msg|e] eqn:Ep.
    + replace (done ++ fp :: rest) with ((done ++ [fp]) ++ rest)
        by now rewrite <- app_assoc.
      replace (length done + length (fp :: rest))%nat
        with (length (done ++ [fp]) + length rest)%nat
        by (rewrite length_app; simpl; lia).
      replace (S (length done)) with (length (done ++ [fp])) in H
        by (rewrite length_app; simpl; lia).
      eapply (IH (done ++ [fp]));
        [rewrite length_app; simpl in *; lia | | exact H].
      destruct Hinv as (Hl1 & Hl2 & Hcat & Hfr & Hdone).
      simpl in Hn. rewrite length_app. cbn [length].
      replace (length done + 1)%nat with (S (length done)) by lia.
      split; [cbn; now rewrite length_insert |].
      split; [cbn; now rewrite length_insert |].
      cbn [cl_tasks cl_names cl_csv_tasks]. split; [| split].
      * rewrite (take_S_r _ _ tasks)
          by (apply list_lookup_insert_eq; lia).
        rewrite take_insert_ge by lia.
        now rewrite concat_app, Hcat, concat_cons, concat_nil, app_nil_r.
      * apply Forall_app. split.
        -- eapply Forall_impl; [exact Hfr |]. intros t (? & ? & ? & ?).
           repeat split; try assumption. lia.
        -- eapply Forall_impl; [apply (parse_tasks_fresh _ _ _ Ep) |].
           intros t (-> & ? & ? & ?). repeat split; try assumption. lia.
      * intros i fp' Hi. apply lookup_app_Some in Hi as [Hi | [Hge Hi]].
        -- destruct (Hdone i fp' Hi) as (ts & Hp & Hc & Hnm).
           assert (i < length done)%nat by (eapply lookup_lt_Some; eassumption).
           exists ts. split; [exact Hp |].
           rewrite !list_lookup_insert_ne by lia. auto.
        -- destruct (i - length done)%nat as [|j] eqn:Ej; [| now destruct j].
           injection Hi as <-. assert (i = length done) as -> by lia.
           exists tasks. split; [exact Ep |].
           rewrite !list_lookup_insert_eq by lia. auto.
    + now rewrite fold_get_csv_step_Exited in H.
    + now rewrite fold_get_csv_step_Failed in H.
Qed.

Lemma get_csv_tasks_spec (csv_files : list csv_file)
    (logged : list string) (r : csv_lists) :
  get_csv_tasks shlex_split csv_files = Parsed (logged, Some r) →
  NoDup (name <$> cl_tasks r) ∧ logged = []
  ∧ csv_inv shlex_split (length csv_files) (length csv_files) csv_files r.
Proof.
  unfold get_csv_tasks. intros H.
  destruct (fold_left _ _ _) as [r'|code msg|e] eqn:E; try discriminate.
  pose proof (check_unique_task_names_spec (cl_tasks r')) as [Hu Hl].
  destruct (check_unique_task_names (cl_tasks r')) as [lg unique].
  cbn [fst snd] in Hu, Hl. destruct unique; cbn [negb] in H; [| discriminate].
  injection H as <- <-.
  split; [now apply Hu |]. split; [apply Hl; now apply Hu |].
  apply (fold_get_csv_step_inv (length csv_files) csv_files []
           {| cl_tasks := [];
              cl_names := replicate (length csv_files) None;
              cl_csv_tasks := replicate (length csv_files) [] |} r').
  - simpl. lia.
  - split; [cbn; apply length_replicate |].
    split; [cbn; apply length_replicate |].
    split; [reflexivity |]. split; [constructor |].
    intros i fp Hi. rewrite lookup_nil in Hi. discriminate.
  - unfold indexed_from. erewrite imap_ext; [exact E |]. now intros.
Qed.
End CsvTasksFacts.

(** X20: when [get_csv_tasks] returns the tasks of a list of files, no two
    of them have the same name and nothing has been logged; there is one
    list of tasks and one name for each file, the list being the tasks that
    [parse_tasks] reads from the file and the name the file name without
    directory and extension; and the tasks returned are the tasks of these
    lists, in order. *)
Theorem X20_get_csv_tasks_lists (shlex_split : string → outcome (list string))
    (csv_files : list csv_file) (logged : list string) (r : csv_lists) :
  get_csv_tasks shlex_split csv_files = Parsed (logged, Some r) →
  NoDup (name <$> cl_tasks r)
  ∧ logged = []
  ∧ length (cl_csv_tasks r) = length csv_files
  ∧ length (cl_names r) = length csv_files
  ∧ cl_tasks r = concat (cl_csv_tasks r)
  ∧ ∀ i fp, csv_files !! i = Some fp →
      ∃ tasks, parse_tasks shlex_split fp i = Parsed tasks
               ∧ cl_csv_tasks r !! i = Some tasks
               ∧ cl_names r !! i
                 = Some (Some (splitext_root (basename (fp_name fp)))).
Proof.
  intros H. apply get_csv_tasks_spec in H as (Hnd & Hlog & Hinv).
  destruct Hinv as (Hl1 & Hl2 & Hcat & Hfr & Hdone).
  split; [exact Hnd |]. split; [exact Hlog |].
  split; [exact Hl1 |]. split; [exact Hl2 |]. split; [| exact Hdone].
  rewrite Hcat, <- Hl1. now rewrite firstn_all.
Qed.

Lemma store_of_lookup (tasks : list Task) (i : nat) (t : Task) :
  tasks !! i = Some t → store_of tasks i = t.
Proof. unfold store_of. now intros ->. Qed.

(** X21: the tasks that [get_csv_tasks] returns can be run: with as many
    lists as there were files, and processes that all exit, [run_tasks]
    returns without raising, a task being complete exactly when its process
    exits with code zero. *)
Theorem X21_run_tasks_of_csv (shlex_split : string → outcome (list string))
    (csv_files : list csv_file) (logged : list string) (r : csv_lists)
    (w : world) (c : run_config) (B fuel : nat) :
  get_csv_tasks shlex_split csv_files = Parsed (logged, Some r) →
  csv_count c = length csv_files →
  1 <= process_count c →
  (∀ n pid, (B <= n)%nat → poll w n pid = true) →
  (B < fuel)%nat →
  let tasks := seq 0 (length (cl_tasks r)) in
  ∃ st res,
    run_tasks fuel w c tasks (store_of (cl_tasks r)) = Some (st, Ret res)
    ∧ ∀ i, (i < length (cl_tasks r))%nat →
        (i ∈ complete_tasks res ↔ returncode (communicate w i) = 0)
        ∧ (i ∈ failed_tasks res ↔ returncode (communicate w i) ≠ 0).
Proof.
  intros H Hcount Hpc Hlive Hfuel tasks.
  apply get_csv_tasks_spec in H as (_ & _ & Hinv).
  destruct Hinv as (_ & _ & _ & Hfr & _).
  rewrite Forall_forall in Hfr.
  assert (Hstore0 : ∀ t, t ∈ tasks →
            success (store_of (cl_tasks r) t) = false
            ∧ (csv_index (store_of (cl_tasks r) t) < csv_count c)%nat).
  { intros t Ht. apply elem_of_seq in Ht.
    destruct (lookup_lt_is_Some_2 (cl_tasks r) t ltac:(lia)) as [task Htask].
    rewrite (store_of_lookup _ _ _ Htask).
    destruct (Hfr task) as (? & ? & _); [eapply list_elem_of_lookup_2, Htask |].
    split; [assumption | lia]. }
  destruct (run_tasks_sched w c tasks (store_of (cl_tasks r)) (NoDup_seq _ _)
              B fuel Hlive Hfuel Hpc) as (st & Hrun & Hsinv).
  destruct (inv_final w c tasks _ st Hsinv) as (_ & Hstore & _).
  destruct (collect_tasks_Ret c (store st) tasks) as (lg & rs & Hcol).
  { intros t Ht. apply list_elem_of_lookup_1 in Ht as Hi. destruct Hi as [i Hi].
    rewrite (Hstore _ _ Hi). unfold final_task.
    rewrite csv_index_update_task, command_update_task.
    split; [now apply Hstore0 | discriminate]. }
  rewrite Hcol in Hrun. eexists st, _. split; [exact Hrun |].
  intros i Hi. cbn [complete_tasks failed_tasks].
  assert (Hl : tasks !! i = Some i) by (now apply lookup_seq_lt).
  assert (Hin : i ∈ tasks) by (eapply list_elem_of_lookup_2, Hl).
  assert (Hs : success (store st i) = true ↔ returncode (communicate w i) = 0).
  { rewrite (Hstore _ _ Hl). unfold final_task.
    rewrite success_update_task. destruct (Hstore0 i Hin) as [-> _].
    rewrite orb_false_r. apply Z.eqb_eq. }
  rewrite !list_elem_of_filter. tauto.
Qed.

(** ** Comparing images *)

Lemma py_max_spec (l : list Z) :
  l ≠ [] → ∃ m, py_max l = Ret m ∧ m ∈ l ∧ ∀ x, x ∈ l → x <= m.
Proof.
  destruct l as [|x l]; [done |]. intros _. cbn [py_max].
  exists (fold_left Z.max l x). split; [reflexivity |].
  revert x. induction l as [|y l IH]; intros x; cbn [fold_left].
  - split; [left |]. intros z Hz. apply list_elem_of_singleton in Hz. lia.
  - destruct (IH (Z.max x y)) as [Hin Hle]. split.
    + apply elem_of_cons in Hin as [Hm | Hin].
      * rewrite Hm. destruct (Z.max_spec x y) as [[_ ->] | [_ ->]];
          [right; left | left].
      * right. now right.
    + intros z Hz. apply elem_of_cons in Hz as [-> | Hz].
      * specialize (Hle (Z.max x y) ltac:(left)). lia.
      * apply elem_of_cons in Hz as [-> | Hz].
        -- specialize (Hle (Z.max x y) ltac:(left)). lia.
        -- apply Hle. now right.
Qed.

Lemma length_band_histogram (band : list Z) :
  length (band_histogram band) = 256%nat.
Proof. unfold band_histogram. now rewrite length_map, length_seq. Qed.

Lemma count_value_pos (v : Z) (band : list Z) :
  count_value v band ≠ 0 ↔ v ∈ band.
Proof.
  unfold count_value. induction band as [|x band IH].
  - cbn. split; [lia | intros H; now apply not_elem_of_nil in H].
  - rewrite filter_cons, elem_of_cons. destruct (decide (x = v)) as [-> | Hne].
    + cbn [length]. split; [auto | lia].
    + rewrite IH. split; [auto |]. intros [-> | H]; [done | exact H].
Qed.

Lemma elem_of_buckets (band : list Z) (x : Z) :
  x ∈ omap (fun '(i, diff) => if diff =? 0 then None else Some (Z.of_nat i))
           (imap pair (band_histogram band))
  ↔ 0 <= x < 256 ∧ x ∈ band.
Proof.
  rewrite list_elem_of_omap. split.
  - intros ([i d] & Hin & Hx). apply elem_of_lookup_imap in Hin
      as (j & d' & [= -> ->] & Hj).
    unfold band_histogram in Hj. rewrite list_lookup_fmap in Hj.
    destruct (seq 0 256 !! j) as [k|] eqn:Hk; [| discriminate].
    apply lookup_seq in Hk as [-> Hlt]. cbn in Hj. injection Hj as <-.
    destruct (count_value (Z.of_nat j) band =? 0) eqn:E; [discriminate |].
    injection Hx as <-. apply Z.eqb_neq, count_value_pos in E.
    split; [lia | exact E].
  - intros [Hr Hin]. exists (Z.to_nat x, count_value x band). split.
    + apply elem_of_lookup_imap. exists (Z.to_nat x), (count_value x band).
      split; [reflexivity |]. unfold band_histogram.
      rewrite list_lookup_fmap, lookup_seq_lt by lia. cbn.
      now rewrite Z2Nat.id by lia.
    + apply count_value_pos, Z.eqb_neq in Hin. rewrite Hin.
      now rewrite Z2Nat.id by lia.
Qed.

(** The largest non-empty bucket of the histogram of a band is the largest
    value of the band. *)
Lemma max_histogram_bucket_band (band : list Z) :
  band ≠ [] → Forall (fun v => 0 <= v <= 255) band →
  ∃ m, max_histogram_bucket (band_histogram band) = Ret m
       ∧ m ∈ band ∧ ∀ x, x ∈ band → x <= m.
Proof.
  intros Hne Hr. rewrite Forall_forall in Hr. unfold max_histogram_bucket.
  destruct (py_max_spec
              (omap (fun '(i, diff) => if diff =? 0 then None else Some (Z.of_nat i))
                    (imap pair (band_histogram band)))) as (m & Hm & Hin & Hle).
  - destruct band as [|v band]; [done |]. intros Hnil.
    assert (H : v ∈ omap (fun '(i, diff) =>
                  if diff =? 0 then None else Some (Z.of_nat i))
                  (imap pair (band_histogram (v :: band)))).
    { apply elem_of_buckets. split; [| left].
      specialize (Hr v ltac:(left)). lia. }
    rewrite Hnil in H. now apply not_elem_of_nil in H.
  - exists m. split; [exact Hm |]. apply elem_of_buckets in Hin as [_ Hin].
    split; [exact Hin |]. intros x Hx. apply Hle, elem_of_buckets.
    split; [| exact Hx]. specialize (Hr x Hx). lia.
Qed.

Lemma histogram_channels_from_bands (bands : list (list Z)) :
  ∀ fuel, (length bands <= fuel)%nat →
    histogram_channels_from fuel (concat (map band_histogram bands))
    = map band_histogram bands.
Proof.
  induction bands as [|b bands IH]; intros fuel Hf.
  - destruct fuel; reflexivity.
  - destruct fuel as [|fuel]; [simpl in Hf; lia |].
    cbn [map concat]. cbn [histogram_channels_from].
    destruct (band_histogram b ++ concat (map band_histogram bands)) eqn:E.
    { apply (f_equal length) in E. rewrite length_app, length_band_histogram in E.
      discriminate. }
    rewrite <- E.
    rewrite take_app_length' by (symmetry; apply length_band_histogram).
    rewrite drop_app_length' by (symmetry; apply length_band_histogram).
    rewrite IH by (simpl in Hf; lia). reflexivity.
Qed.

Lemma histogram_channels_image (im : image) :
  histogram_channels (image_histogram im) = map band_histogram im.
Proof.
  unfold histogram_channels, image_histogram.
  apply histogram_channels_from_bands.
  induction im as [|b im IH]; [simpl; lia |].
  cbn [map concat]. rewrite length_app, length_band_histogram. simpl. lia.
Qed.

(** The largest buckets of the bands of an image. *)
Lemma map_max_histogram_bucket (im : image) :
  image_ok im →
  ∃ ms, map_outcome max_histogram_bucket (map band_histogram im) = Ret ms
        ∧ Forall2 (fun band m => m ∈ band ∧ ∀ x, x ∈ band → x <= m) im ms.
Proof.
  induction im as [|b im IH]; intros Hok.
  - exists []. split; [reflexivity | constructor].
  - apply Forall_cons in Hok as [[Hne Hr] Hok].
    destruct (max_histogram_bucket_band b Hne Hr) as (m & Hm & Hb).
    destruct (IH Hok) as (ms & Hms & Hall).
    exists (m :: ms). cbn [map map_outcome]. rewrite Hm. cbn. rewrite Hms. cbn.
    split; [reflexivity |]. now constructor.
Qed.

Lemma difference_comm (g_image t_image : image) :
  difference g_image t_image = difference t_image g_image.
Proof.
  unfold difference. rewrite (Nat.eqb_sym (length t_image)).
  destruct (length g_image =? length t_image)%nat; [| reflexivity]. f_equal.
  revert t_image. induction g_image as [|bg g IH]; intros [|bt t];
    try reflexivity.
  cbn [zip_with]. f_equal; [| apply IH].
  revert bt. induction bg as [|a bg IHb]; intros [|b bt]; try reflexivity.
  cbn [zip_with]. f_equal; [lia | apply IHb].
Qed.

Lemma difference_shape (g_image t_image : image) :
  same_shape g_image t_image → image_ok g_image → image_ok t_image →
  ∃ diff, difference g_image t_image = Ret diff ∧ image_ok diff
          ∧ ∀ threshold,
              Forall (Forall (fun d => d <= threshold)) diff
              ↔ pixels_within threshold g_image t_image.
Proof.
  intros Hs Hg Ht. unfold difference.
  rewrite (Forall2_length _ _ _ Hs), Nat.eqb_refl. eexists. split; [reflexivity |].
  induction Hs as [|bg bt g t Hl Hs IH].
  - split; [constructor |]. intros th. split; constructor.
  - apply Forall_cons in Hg as [[Hneg Hrg] Hg], Ht as [[Hnet Hrt] Ht].
    destruct (IH Hg Ht) as [Hok Hiff]. cbn [zip_with].
    assert (Hband : (zip_with (fun a b => Z.abs (a - b)) bg bt ≠ []
                     ∧ Forall (fun v => 0 <= v <= 255)
                         (zip_with (fun a b => Z.abs (a - b)) bg bt))
                    ∧ ∀ th, Forall (fun d => d <= th)
                              (zip_with (fun a b => Z.abs (a - b)) bg bt)
                            ↔ Forall2 (fun a b => Z.abs (a - b) <= th) bg bt).
    { clear - Hl Hneg Hrg Hrt. split; [split |].
      - destruct bg, bt; try discriminate; done.
      - clear Hneg. revert bt Hl Hrt.
        induction Hrg as [|a bg Ha Hrg IHb]; intros [|b bt] Hl Hrt;
          try constructor.
        + apply Forall_cons in Hrt as [Hb _]. lia.
        + apply Forall_cons in Hrt as [_ Hrt]. apply IHb; [| exact Hrt].
          simpl in Hl. lia.
      - intros th. clear Hneg Hrg Hrt. revert bt Hl.
        induction bg as [|a bg IHb]; intros [|b bt] Hl; try discriminate.
        + split; constructor.
        + cbn [zip_with]. rewrite Forall_cons, Forall2_cons, IHb;
            [reflexivity | simpl in Hl; lia]. }
    destruct Hband as [Hb1 Hb2]. split.
    + constructor; assumption.
    + intros th. unfold pixels_within.
      rewrite Forall_cons, Forall2_cons, Hb2. unfold pixels_within in Hiff.
      now rewrite Hiff.
Qed.

(** X22: for two images with the same bands of the same sizes, none of them
    empty, and 8-bit values, [compare_images] returns, and it returns true
    exactly when every pixel difference is less than or equal to the
    threshold; an image without bands makes it raise [ValueError]; and the
    order of the two images makes no difference. *)
Theorem X22_compare_images_per_pixel (g_image t_image : image) (threshold : Z) :
  g_image ≠ [] → same_shape g_image t_image →
  image_ok g_image → image_ok t_image →
  (∃ b, compare_images g_image t_image threshold = Ret b)
  ∧ (compare_images g_image t_image threshold = Ret true
     ↔ pixels_within threshold g_image t_image)
  ∧ compare_images [] [] threshold = Raise ValueError
  ∧ compare_images t_image g_image threshold
    = compare_images g_image t_image threshold.
Proof.
  intros Hne Hs Hg Ht.
  assert (Hcomm : compare_images t_image g_image threshold
                  = compare_images g_image t_image threshold).
  { unfold compare_images. now rewrite difference_comm. }
  destruct (difference_shape g_image t_image Hs Hg Ht) as (diff & Hd & Hok & Hiff).
  destruct (map_max_histogram_bucket diff Hok) as (ms & Hms & Hall).
  assert (Hdne : ms ≠ []).
  { intros ->. apply Forall2_length in Hall.
    unfold difference in Hd.
    destruct (length g_image =? length t_image)%nat; [| discriminate].
    injection Hd as <-. apply Forall2_length in Hs.
    destruct g_image, t_image; try discriminate; done. }
  destruct (py_max_spec ms Hdne) as (m & Hm & Hin & Hle).
  assert (Hcmp : compare_images g_image t_image threshold = Ret (m <=? threshold)).
  { unfold compare_images. rewrite Hd. cbn.
    rewrite histogram_channels_image, Hms. cbn. now rewrite Hm. }
  split; [eexists; exact Hcmp |]. split; [| split; [reflexivity | exact Hcomm]].
  rewrite Hcmp, <- Hiff. split.
  - intros [= Hmt]. apply Z.leb_le in Hmt.
    apply Forall_forall. intros band Hband.
    apply list_elem_of_lookup_1 in Hband as [i Hi].
    destruct (Forall2_lookup_l _ _ _ _ _ Hall Hi) as (mb & Hmb & _ & Hb).
    apply Forall_forall. intros d Hd'. specialize (Hb d Hd').
    specialize (Hle mb ltac:(eapply list_elem_of_lookup_2, Hmb)). lia.
  - intros Hall'. f_equal. apply Z.leb_le.
    apply list_elem_of_lookup_1 in Hin as [i Hi].
    destruct (Forall2_lookup_r _ _ _ _ _ Hall Hi) as (band & Hband & Hmb & _).
    rewrite Forall_forall in Hall'.
    specialize (Hall' band ltac:(eapply list_elem_of_lookup_2, Hband)).
    rewrite Forall_forall in Hall'. now apply Hall'.
Qed.

(** ** Comparing archives *)

Lemma handle_crc_difference_comm (a b : ZipInfo) :
  handle_crc_difference a b = handle_crc_difference b a.
Proof.
  unfold handle_crc_difference.
  destruct (opened_image a) as [ia|], (opened_image b) as [ib|]; try reflexivity.
  unfold compare_images. now rewrite difference_comm.
Qed.

Lemma compare_infos_from_comm (g : list ZipInfo) :
  ∀ t pg pt,
    length pg = length pt → length g = length t →
    compare_infos_from (pg ++ g) (length pg) t
    = compare_infos_from (pt ++ t) (length pt) g.
Proof.
  induction g as [|a g IH]; intros [|b t] pg pt Hp Hl; try discriminate;
    [reflexivity |].
  cbn [compare_infos_from].
  rewrite !list_lookup_middle by reflexivity.
  rewrite (String.eqb_sym (filename a)), (Z.eqb_sym (file_size a)),
    (Z.eqb_sym (CRC a)), (handle_crc_difference_comm b a).
  destruct (negb (String.eqb (filename b) (filename a))); [reflexivity |].
  destruct (negb (file_size b =? file_size a)); [reflexivity |].
  destruct (negb (CRC b =? CRC a)); [reflexivity |].
  specialize (IH t (pg ++ [a]) (pt ++ [b])).
  rewrite !length_app, <- !app_assoc in IH. cbn [length app] in IH.
  rewrite !Nat.add_1_r in IH. apply IH; [lia |]. simpl in Hl. lia.
Qed.

Lemma compare_infolists_comm (g t : list ZipInfo) :
  compare_infolists g t = compare_infolists t g.
Proof.
  unfold compare_infolists. rewrite (Nat.eqb_sym (length t)).
  destruct (length g =? length t)%nat eqn:E; [| reflexivity]. cbn [negb].
  apply Nat.eqb_eq in E.
  exact (compare_infos_from_comm g t [] [] eq_refl E).
Qed.

Lemma compare_infolists_refl (l : list ZipInfo) : compare_infolists l l = Ret true.
Proof.
  unfold compare_infolists. rewrite Nat.eqb_refl. cbn [negb].
  apply compare_infos_from_complete. intros j info Hj. exists info.
  split; [exact Hj |]. split; [reflexivity |]. split; [reflexivity |]. done.
Qed.

(** X23: for two files that open as archives, the outcome of comparing
    their contents does not depend on which of the two is the golden one;
    and an archive compared with itself matches. *)
Theorem X23_compare_usdz_content_symmetric (golden test : option node)
    (golden_infos test_infos : list ZipInfo) :
  ZipFile golden = Ret golden_infos → ZipFile test = Ret test_infos →
  compare_usdz_content golden test = compare_usdz_content test golden
  ∧ compare_usdz_content golden golden = Ret true.
Proof.
  intros Hg Ht. unfold compare_usdz_content. rewrite Hg, Ht. cbn. split.
  - apply compare_infolists_comm.
  - apply compare_infolists_refl.
Qed.

(** ** A tree compared with itself *)

Lemma cmpfiles_fold_all_match (a b : tree) path shallow (common : list string) :
  ∀ acc,
    (∀ x, x ∈ common → cmp_at a b path x shallow = Ret true) →
    fold_left (cmpfiles_step a b path path shallow) common acc
    = mkCmpLists (cmp_matches acc ++ common) (cmp_mismatches acc) (cmp_errors acc).
Proof.
  induction common as [|x common IH]; intros acc H.
  - cbn. rewrite app_nil_r. now destruct acc.
  - cbn [fold_left]. rewrite IH by (intros y Hy; apply H; now right).
    unfold cmpfiles_step. unfold cmp_at in H. rewrite (H x) by now left.
    cbn. now rewrite <- app_assoc.
Qed.

Lemma cmp_at_same (t : tree) (d : dir_entry) (name : string) (shallow : bool) :
  NoDup (d_path <$> t) → tree_readable t = true → d ∈ t →
  name ∈ (d_files d).*1 →
  cmp_at t t (d_path d) name shallow = Ret true.
Proof.
  intros Hnd Hr Hd Hname. unfold cmp_at.
  destruct (tree_stat_listed t d name Hnd Hd Hname) as (f & -> & Hf).
  unfold cmp. rewrite Nat.eqb_refl, Z.eqb_refl, andb_true_r.
  rewrite (tree_readable_entry t d name f Hr Hd Hf). cbn [negb andb].
  destruct shallow; [reflexivity |]. now rewrite String.eqb_refl.
Qed.

(** The paths reported for the files of a list of directories, in the
    order of the walk. *)
Lemma fold_diff_gold_dir_same (t : tree) prefix (ds : list dir_entry) :
  NoDup (d_path <$> t) → tree_plain t = true → tree_readable t = true →
  ∀ m0, (∀ d, d ∈ ds → d ∈ t) →
    fold_left (diff_gold_dir t t prefix) ds (Ret (m0, [], []))
    = Ret (m0 ++ concat (map (fun d =>
                           map (fun name =>
                                  join_path (rel_to_root prefix (d_path d)) [name])
                               (d_files d).*1) ds), [], []).
Proof.
  intros Hnd Hpl Hr. induction ds as [|d ds IH]; intros m0 Hsub.
  - cbn. now rewrite app_nil_r.
  - cbn [fold_left map concat].
    assert (Hstep : diff_gold_dir t t prefix (Ret (m0, [], [])) d
              = Ret (m0 ++ map (fun name =>
                            join_path (rel_to_root prefix (d_path d)) [name])
                          (d_files d).*1, [], [])).
    { unfold diff_gold_dir, norm_relpath_base.
      rewrite (norm_slashes_plain _ (tree_plain_entry t d Hpl (Hsub d ltac:(now left)))).
      cbn.
      destruct (d_files d).*1 as [|n ns] eqn:E; cbn [list_truthy negb].
      - cbn. now rewrite app_nil_r.
      - unfold cmpfiles. rewrite cmpfiles_fold_all_match.
        + reflexivity.
        + intros x Hx. apply cmp_at_same; try assumption.
          * apply Hsub. now left.
          * now rewrite E. }
    rewrite Hstep, IH by (intros d' Hd'; apply Hsub; now right).
    now rewrite <- app_assoc.
Qed.

Lemma fold_diff_test_dir_same (t : tree) prefix (ds : list dir_entry) :
  NoDup (d_path <$> t) → tree_plain t = true → tree_readable t = true →
  ∀ ex0, (∀ d, d ∈ ds → d ∈ t) →
    fold_left (diff_test_dir t t prefix) ds ex0 = ex0.
Proof.
  intros Hnd Hpl Hr. induction ds as [|d ds IH]; intros ex0 Hsub; [reflexivity |].
  cbn [fold_left].
  assert (Hstep : diff_test_dir t t prefix ex0 d = ex0).
  { unfold diff_test_dir, norm_relpath_base.
    rewrite (norm_slashes_plain _ (tree_plain_entry t d Hpl (Hsub d ltac:(now left)))).
    cbv zeta.
    destruct (d_files d).*1 as [|n ns] eqn:E; cbn [list_truthy negb];
      [reflexivity |].
    unfold cmpfiles. rewrite cmpfiles_fold_all_match.
    - cbn. now rewrite app_nil_r.
    - intros x Hx. apply cmp_at_same; try assumption.
      + apply Hsub. now left.
      + now rewrite E. }
  rewrite Hstep. apply IH. intros d' Hd'. apply Hsub. now right.
Qed.

(** X24: a tree of directories and regular files, with distinct directory
    paths that have no backslash, and whose files can all be read, compared
    with itself, has every file among the matches, in the order of the
    walk, and no file among the mismatches, the missing or the extra files;
    [compare_directories] returns true for it. *)
Theorem X24_get_diffs_same_tree (t : tree) (prefix : string) :
  NoDup (d_path <$> t) → tree_plain t = true → tree_readable t = true →
  get_diffs t t prefix
  = Ret (mkDiffs
           (concat (map (fun d =>
                      map (fun name =>
                             join_path (rel_to_root prefix (d_path d)) [name])
                          (d_files d).*1) t))
           [] [] [])
  ∧ compare_directories t t = Ret true.
Proof.
  intros Hnd Hpl Hr.
  assert (H : ∀ prefix, get_diffs t t prefix
    = Ret (mkDiffs
             (concat (map (fun d =>
                        map (fun name =>
                               join_path (rel_to_root prefix (d_path d)) [name])
                            (d_files d).*1) t))
             [] [] [])).
  { intros pre. unfold get_diffs.
    rewrite (fold_diff_gold_dir_same t pre t Hnd Hpl Hr []) by auto.
    rewrite (fold_diff_test_dir_same t pre t Hnd Hpl Hr []) by auto.
    reflexivity. }
  split; [apply H |]. unfold compare_directories. now rewrite H.
Qed.

(** ** Where a golden file is reported *)

Lemma cmpfiles_fold_complete (a b : tree) path shallow (common : list string) :
  ∀ acc x,
    let res := fold_left (cmpfiles_step a b path path shallow) common acc in
    (x ∈ cmp_matches acc → x ∈ cmp_matches res)
    ∧ (x ∈ cmp_mismatches acc → x ∈ cmp_mismatches res)
    ∧ (x ∈ cmp_errors acc → x ∈ cmp_errors res)
    ∧ (x ∈ common →
       match cmp_at a b path x shallow with
       | Ret true => x ∈ cmp_matches res
       | Ret false => x ∈ cmp_mismatches res
       | Raise _ => x ∈ cmp_errors res
       end).
Proof.
  induction common as [|y common IH]; intros acc x; cbn zeta.
  - cbn. repeat split; try tauto. intros H. now apply not_elem_of_nil in H.
  - cbn [fold_left].
    destruct (IH (cmpfiles_step a b path path shallow acc y) x) as (I1 & I2 & I3 & I4).
    assert (Hstep :
      (x ∈ cmp_matches acc → x ∈ cmp_matches (cmpfiles_step a b path path shallow acc y))
      ∧ (x ∈ cmp_mismatches acc
         → x ∈ cmp_mismatches (cmpfiles_step a b path path shallow acc y))
      ∧ (x ∈ cmp_errors acc → x ∈ cmp_errors (cmpfiles_step a b path path shallow acc y))
      ∧ match cmp_at a b path y shallow with
        | Ret true => y ∈ cmp_matches (cmpfiles_step a b path path shallow acc y)
        | Ret false => y ∈ cmp_mismatches (cmpfiles_step a b path path shallow acc y)
        | Raise _ => y ∈ cmp_errors (cmpfiles_step a b path path shallow acc y)
        end).
    { unfold cmpfiles_step, cmp_at.
      destruct (cmp (tree_stat a path y) (tree_stat b path y) shallow) as [[|]|e];
        cbn; rewrite ?elem_of_app, ?list_elem_of_singleton; tauto. }
    destruct Hstep as (S1 & S2 & S3 & S4).
    split; [auto |]. split; [auto |]. split; [auto |].
    intros [-> | Hx]%elem_of_cons; [| now apply I4].
    destruct (cmp_at a b path y shallow) as [[|]|e];
      [apply I1, S4 | apply I2, S4 | apply I3, S4].
Qed.

Lemma cmpfiles_complete (a b : tree) path shallow (common : list string) x :
  x ∈ common →
  match cmp_at a b path x shallow with
  | Ret true => x ∈ cmp_matches (cmpfiles a b path path common shallow)
  | Ret false => x ∈ cmp_mismatches (cmpfiles a b path path common shallow)
  | Raise _ => x ∈ cmp_errors (cmpfiles a b path path common shallow)
  end.
Proof.
  intros Hx. unfold cmpfiles.
  destruct (cmpfiles_fold_complete a b path shallow common
              (mkCmpLists [] [] []) x) as (_ & _ & _ & H).
  exact (H Hx).
Qed.

(** The mismatch [name] is reported, or it is an archive whose content
    matches. *)
Lemma fold_add_mismatch_complete gold test gold_dir test_dir rel_dir
    (names : list string) :
  ∀ acc0 acc,
    fold_left (add_mismatch gold test gold_dir test_dir rel_dir) names (Ret acc0)
    = Ret acc →
    (∀ p, p ∈ acc0 → p ∈ acc)
    ∧ ∀ name, name ∈ names →
        join_path rel_dir [name] ∈ acc
        ∨ (splitext_ext name = ".usdz"
           ∧ compare_usdz_content (tree_stat gold gold_dir name)
                                  (tree_stat test test_dir name) = Ret true).
Proof.
  induction names as [|n names IH]; intros acc0 acc Hfold.
  - injection Hfold as <-. split; [auto |]. intros name H.
    now apply not_elem_of_nil in H.
  - cbn [fold_left] in Hfold.
    destruct (add_mismatch gold test gold_dir test_dir rel_dir (Ret acc0) n)
      as [acc1|e] eqn:E.
    + destruct (IH _ _ Hfold) as [Hmono Hnames].
      assert (Hstep : (∀ p, p ∈ acc0 → p ∈ acc1)
                ∧ (join_path rel_dir [n] ∈ acc1
                   ∨ (splitext_ext n = ".usdz"
                      ∧ compare_usdz_content (tree_stat gold gold_dir n)
                                             (tree_stat test test_dir n)
                        = Ret true))).
      { unfold add_mismatch in E. cbn in E.
        destruct (String.eqb (splitext_ext n) ".usdz") eqn:Eext; cbn [negb] in E.
        - apply String.eqb_eq in Eext.
          destruct (compare_usdz_content _ _) as [[|]|e']; cbn in E;
            try discriminate; injection E as <-.
          + split; [auto |]. right. auto.
          + split; [intros p Hp; apply elem_of_app; now left |].
            left. apply elem_of_app. right. left.
        - injection E as <-.
          split; [intros p Hp; apply elem_of_app; now left |].
          left. apply elem_of_app. right. left. }
      destruct Hstep as [S1 S2]. split; [auto |].
      intros name [-> | Hn]%elem_of_cons; [| auto].
      destruct S2 as [S2 | S2]; [left; auto | now right].
    + rewrite fold_add_mismatch_Raise in Hfold. discriminate.
Qed.

Lemma gold_reported_mono gold test prefix m mm mi m' mm' mi' d name :
  (∀ p, p ∈ m → p ∈ m') → (∀ p, p ∈ mm → p ∈ mm') → (∀ p, p ∈ mi → p ∈ mi') →
  gold_reported gold test prefix m mm mi d name →
  gold_reported gold test prefix m' mm' mi' d name.
Proof.
  unfold gold_reported. intros H1 H2 H3.
  destruct (cmp_at gold test (d_path d) name false) as [[|]|e]; [auto | | auto].
  intros [H | H]; [left; auto | now right].
Qed.

(** What one directory of the golden tree adds to the three lists: nothing
    is taken from them, and each file of the directory is reported, when
    the path of the directory has no backslash. *)
Lemma diff_gold_dir_complete gold test prefix (d : dir_entry) m0 mm0 mi0 m mm mi :
  diff_gold_dir gold test prefix (Ret (m0, mm0, mi0)) d = Ret (m, mm, mi) →
  ((∀ p, p ∈ m0 → p ∈ m) ∧ (∀ p, p ∈ mm0 → p ∈ mm) ∧ (∀ p, p ∈ mi0 → p ∈ mi))
  ∧ (contains_char "\" (d_path d) = false →
     ∀ name, name ∈ (d_files d).*1 →
       gold_reported gold test prefix m mm mi d name).
Proof.
  unfold diff_gold_dir, norm_relpath_base.
  generalize (norm_slashes_plain (d_path d)).
  generalize (norm_slashes (d_path d)) as td. intros td Htd. cbn.
  destruct (d_files d).*1 as [|n ns] eqn:Efiles; cbn [list_truthy negb].
  - intros [= <- <- <-]. split; [auto |]. intros _ name H.
    now apply not_elem_of_nil in H.
  - rewrite <- Efiles.
    destruct (fold_left _ _ (Ret mm0)) as [mm1|e] eqn:Hmm; cbn; [| discriminate].
    intros [= <- <- <-].
    destruct (fold_add_mismatch_complete _ _ _ _ _ _ _ _ Hmm) as [Hmono Hnames].
    split.
    + split; [| split]; [| exact Hmono |]; intros p Hp; apply elem_of_app;
        now left.
    + intros Hplain name Hname. specialize (Htd Hplain). subst td.
      unfold gold_reported, reported_path.
      pose proof (cmpfiles_complete gold test (d_path d) false _ name Hname) as Hc.
      destruct (cmp_at gold test (d_path d) name false) as [[|]|e].
      * apply elem_of_app. right. apply list_elem_of_fmap. now exists name.
      * apply Hnames, Hc.
      * apply elem_of_app. right. apply list_elem_of_fmap. now exists name.
Qed.

Lemma fold_diff_gold_dir_complete gold test prefix (ds : list dir_entry) :
  ∀ m0 mm0 mi0 m mm mi,
    fold_left (diff_gold_dir gold test prefix) ds (Ret (m0, mm0, mi0))
    = Ret (m, mm, mi) →
    ((∀ p, p ∈ m0 → p ∈ m) ∧ (∀ p, p ∈ mm0 → p ∈ mm) ∧ (∀ p, p ∈ mi0 → p ∈ mi))
    ∧ ∀ d name, d ∈ ds → contains_char "\" (d_path d) = false →
        name ∈ (d_files d).*1 →
        gold_reported gold test prefix m mm mi d name.
Proof.
  induction ds as [|d ds IH]; intros m0 mm0 mi0 m mm mi Hfold.
  - injection Hfold as <- <- <-. split; [auto |]. intros d name H.
    now apply not_elem_of_nil in H.
  - cbn [fold_left] in Hfold.
    destruct (diff_gold_dir gold test prefix (Ret (m0, mm0, mi0)) d)
      as [[[m1 mm1] mi1]|e] eqn:Hstep.
    + destruct (IH _ _ _ _ _ _ Hfold) as [(M1 & M2 & M3) Hrest].
      destruct (diff_gold_dir_complete _ _ _ _ _ _ _ _ _ _ Hstep)
        as [(S1 & S2 & S3) Hd].
      split; [split; [| split]; auto |].
      intros d' name [-> | Hd']%elem_of_cons Hplain Hname; [| now apply Hrest].
      eapply gold_reported_mono; [exact M1 | exact M2 | exact M3 |].
      now apply Hd.
    + rewrite fold_diff_gold_dir_Raise in Hfold. discriminate.
Qed.

(** X25: when [get_diffs] returns, every file of a directory of the golden
    tree whose path has no backslash is accounted for by the comparison of
    its bytes with those of the file of the test tree at the same path:
    among the matches when they are equal, among the missing files when
    the comparison fails, and among the mismatches when they differ, unless
    it is an archive whose content matches, which is then in none of the
    lists. *)
Theorem X25_get_diffs_golden_files (gold test : tree) (prefix : string)
    (r : diffs) (d : dir_entry) (name : string) :
  get_diffs gold test prefix = Ret r →
  d ∈ gold → contains_char "\" (d_path d) = false →
  name ∈ (d_files d).*1 →
  let p := reported_path prefix (d_path d) name in
  match cmp_at gold test (d_path d) name false with
  | Ret true => p ∈ all_matches r
  | Ret false =>
      p ∈ all_mismatches r
      ∨ (splitext_ext name = ".usdz"
         ∧ compare_usdz_content (tree_stat gold (d_path d) name)
                                (tree_stat test (d_path d) name) = Ret true)
  | Raise _ => p ∈ all_missings r
  end.
Proof.
  unfold get_diffs. intros H Hd Hplain Hname.
  destruct (fold_left _ gold _) as [[[m mm] mi]|e] eqn:Hfold; [| discriminate].
  injection H as <-. cbn [all_matches all_mismatches all_missings].
  destruct (fold_diff_gold_dir_complete _ _ _ _ _ _ _ _ _ _ Hfold) as [_ Hall].
  exact (Hall d name Hd Hplain Hname).
Qed.

(** ** Missing and extra files *)

Lemma tree_stat_file_in (t : tree) (path name : string) (f : file) :
  tree_stat t path name = Some (NFile f) →
  ∃ d, d ∈ t ∧ (name, f) ∈ d_files d.
Proof.
  induction t as [|d t IH]; [discriminate |]. cbn [tree_stat].
  destruct (String.eqb (d_path d) path).
  - unfold find_file.
    destruct (List.find (fun nf => String.eqb nf.1 name) (d_files d))
      as [[n f']|] eqn:Hfind; cbn.
    + intros [= <-]. apply find_some in Hfind as [Hin Heq]. cbn in Heq.
      apply String.eqb_eq in Heq as ->. exists d.
      split; [left | now apply list_elem_of_In].
    + destruct (existsb _ _); discriminate.
  - intros H. destruct (IH H) as (d' & Hd' & Hf). exists d'.
    split; [now right | exact Hf].
Qed.

(** The comparison with a readable file of a well-formed tree fails
    exactly when the other tree has nothing at the path. *)
Lemma cmp_raise_l (t : tree) (path name : string) (f : file) (shallow : bool) :
  tree_readable t = true → readable f = true →
  is_raise (cmp (Some (NFile f)) (tree_stat t path name) shallow)
  ↔ tree_stat t path name = None.
Proof.
  intros Hr Hf. split.
  - intros Hraise. destruct (tree_stat t path name) as [[f2|]|] eqn:E;
      [| destruct Hraise; discriminate | reflexivity].
    exfalso. destruct (tree_stat_file_in _ _ _ _ E) as (d & Hd & Hin).
    eapply cmp_readable; [exact Hf | | exact Hraise].
    eapply tree_readable_entry; eassumption.
  - intros ->. now exists IOError.
Qed.

Lemma cmp_raise_r (t : tree) (path name : string) (f : file) (shallow : bool) :
  tree_readable t = true → readable f = true →
  is_raise (cmp (tree_stat t path name) (Some (NFile f)) shallow)
  ↔ tree_stat t path name = None.
Proof.
  intros Hr Hf. split.
  - intros Hraise. destruct (tree_stat t path name) as [[f1|]|] eqn:E;
      [| destruct Hraise; discriminate | reflexivity].
    exfalso. destruct (tree_stat_file_in _ _ _ _ E) as (d & Hd & Hin).
    eapply cmp_readable; [| exact Hf | exact Hraise].
    eapply tree_readable_entry; eassumption.
  - intros ->. now exists IOError.
Qed.

Lemma fold_diff_test_dir_complete gold test prefix (ds : list dir_entry) :
  ∀ ex0,
    (∀ p, p ∈ ex0 → p ∈ fold_left (diff_test_dir gold test prefix) ds ex0)
    ∧ ∀ d name, d ∈ ds → contains_char "\" (d_path d) = false →
        name ∈ (d_files d).*1 →
        is_raise (cmp_at gold test (d_path d) name true) →
        reported_path prefix (d_path d) name
        ∈ fold_left (diff_test_dir gold test prefix) ds ex0.
Proof.
  induction ds as [|d ds IH]; intros ex0.
  - split; [auto |]. intros d name H. now apply not_elem_of_nil in H.
  - cbn [fold_left]. destruct (IH (diff_test_dir gold test prefix ex0 d))
      as [Hmono Hrest].
    assert (Hstep : (∀ p, p ∈ ex0 → p ∈ diff_test_dir gold test prefix ex0 d)
              ∧ (contains_char "\" (d_path d) = false →
                 ∀ name, name ∈ (d_files d).*1 →
                   is_raise (cmp_at gold test (d_path d) name true) →
                   reported_path prefix (d_path d) name
                   ∈ diff_test_dir gold test prefix ex0 d)).
    { unfold diff_test_dir, norm_relpath_base.
      generalize (norm_slashes_plain (d_path d)).
      generalize (norm_slashes (d_path d)) as gd. intros gd Hgd. cbv zeta.
      destruct (d_files d).*1 as [|n ns] eqn:E; cbn [list_truthy negb].
      - split; [auto |]. intros _ name H. now apply not_elem_of_nil in H.
      - rewrite <- E. split; [intros p Hp; apply elem_of_app; now left |].
        intros Hplain name Hname [e He]. specialize (Hgd Hplain). subst gd.
        pose proof (cmpfiles_complete gold test (d_path d) true _ name Hname) as Hc.
        rewrite He in Hc. apply elem_of_app. right.
        apply list_elem_of_fmap. now exists name. }
    destruct Hstep as [S1 S2]. split; [auto |].
    intros d' name [-> | Hd']%elem_of_cons Hplain Hname Hraise;
      [| now apply Hrest].
    apply Hmono. now apply S2.
Qed.

(** X26: between two trees of directories and regular files, with distinct
    directory paths that have no backslash, and whose files can all be
    read, the missing files are the files of the golden tree at whose path
    the test tree has nothing, and the extra files are the files of the
    test tree at whose path the golden tree has nothing. *)
Theorem X26_get_diffs_missing_extra (gold test : tree) (prefix : string)
    (r : diffs) (p : string) :
  NoDup (d_path <$> gold) → NoDup (d_path <$> test) →
  tree_plain gold = true → tree_plain test = true →
  tree_readable gold = true → tree_readable test = true →
  get_diffs gold test prefix = Ret r →
  (p ∈ all_missings r
   ↔ ∃ d name, d ∈ gold ∧ name ∈ (d_files d).*1
               ∧ p = reported_path prefix (d_path d) name
               ∧ tree_stat test (d_path d) name = None)
  ∧ (p ∈ all_extras r
     ↔ ∃ d name, d ∈ test ∧ name ∈ (d_files d).*1
                 ∧ p = reported_path prefix (d_path d) name
                 ∧ tree_stat gold (d_path d) name = None).
Proof.
  intros Hndg Hndt Hpg Hpt Hrg Hrt Hget. unfold get_diffs in Hget.
  destruct (fold_left _ gold _) as [[[m mm] mi]|e] eqn:Hfold; [| discriminate].
  injection Hget as <-. cbn [all_missings all_extras]. split; split.
  - intros Hp.
    destruct (fold_diff_gold_dir_spec _ _ _ _ (fun d => tree_plain_entry gold d Hpg)
                _ _ _ _ _ _ Hfold p) as (_ & _ & H3).
    destruct (H3 Hp) as [Hnil | (d & name & Hd & Hname & -> & Hraise)];
      [now apply not_elem_of_nil in Hnil |].
    exists d, name. repeat split; try assumption.
    unfold cmp_at in Hraise.
    destruct (tree_stat_listed gold d name Hndg Hd Hname) as (f & Hst & Hin).
    rewrite Hst in Hraise.
    assert (Hf : readable f = true)
      by exact (tree_readable_entry gold d name f Hrg Hd Hin).
    exact (proj1 (cmp_raise_l test _ _ f false Hrt Hf) Hraise).
  - intros (d & name & Hd & Hname & -> & Hnone).
    destruct (fold_diff_gold_dir_complete _ _ _ _ _ _ _ _ _ _ Hfold) as [_ Hall].
    specialize (Hall d name Hd (tree_plain_entry gold d Hpg Hd) Hname).
    unfold gold_reported in Hall.
    unfold cmp_at in Hall. rewrite Hnone in Hall.
    destruct (tree_stat gold (d_path d) name); exact Hall.
  - intros Hp.
    destruct (fold_diff_test_dir_spec _ _ _ _
                (fun d => tree_plain_entry test d Hpt) _ _ Hp)
      as [Hnil | (d & name & Hd & Hname & -> & Hraise)];
      [now apply not_elem_of_nil in Hnil |].
    exists d, name. repeat split; try assumption.
    unfold cmp_at in Hraise.
    destruct (tree_stat_listed test d name Hndt Hd Hname) as (f & Hst & Hin).
    rewrite Hst in Hraise.
    assert (Hf : readable f = true)
      by exact (tree_readable_entry test d name f Hrt Hd Hin).
    exact (proj1 (cmp_raise_r gold _ _ f true Hrg Hf) Hraise).
  - intros (d & name & Hd & Hname & -> & Hnone).
    destruct (fold_diff_test_dir_complete gold test prefix test []) as [_ Hall].
    apply Hall; try assumption.
    + exact (tree_plain_entry test d Hpt Hd).
    + unfold cmp_at. rewrite Hnone. now exists IOError.
Qed.

(** ** Where a tag is found *)

Lemma rsearch_from_sound (r : regex) (s : string) :
  ∀ pos b e g,
    rsearch_from r pos s = Some ((b, e), g) →
    ∃ pre s1 s2,
      s = pre +:+ s1 +:+ s2 ∧ lang r s1 s2
      ∧ b = (pos + String.length pre)%nat ∧ e = (b + String.length s1)%nat.
Proof.
  induction s as [|c s IH]; intros pos b e g; cbn [rsearch_from]; fold rdone.
  - destruct (rmatch r rdone None pos EmptyString) as [[e' g']|] eqn:E;
      [| discriminate].
    intros [= <- <- <-].
    apply rmatch_sound in E as (s1 & s2 & g'' & Hs & Hl & Hk).
    injection Hk as <- _. exists EmptyString, s1, s2.
    rewrite append_nil_l. cbn [String.length]. repeat split; try assumption.
    all: lia.
  - destruct (rmatch r rdone None pos (String c s)) as [[e' g']|] eqn:E.
    + intros [= <- <- <-].
      apply rmatch_sound in E as (s1 & s2 & g'' & Hs & Hl & Hk).
      injection Hk as <- _. exists EmptyString, s1, s2.
      rewrite append_nil_l. cbn [String.length]. repeat split; try assumption.
      all: lia.
    + intros H. apply IH in H as (pre & s1 & s2 & -> & Hl & -> & ->).
      exists (String c pre), s1, s2. rewrite append_cons.
      cbn [String.length]. repeat split; try assumption. all: lia.
Qed.

(** X27: a tag is only found at the end of a line: when [get_message_tag]
    gives a tag, the line ends with a text between square brackets, made of
    capital letters, digits and underscores, followed by white space only;
    and the severity given is then info, warning or error, never unknown. *)
Theorem X27_get_message_tag_only_at_end (line : string) (severity : Z)
    (code : string) :
  get_message_tag line = (severity, Some code) →
  (∃ pre body space,
     line = pre +:+ "[" +:+ body +:+ "]" +:+ space
     ∧ all_chars is_upper_alnum_us body = true
     ∧ all_chars is_space space = true)
  ∧ (severity = SEVERITY_INFO ∨ severity = SEVERITY_WARN
     ∨ severity = SEVERITY_ERROR).
Proof.
  unfold get_message_tag, rsearch.
  destruct (rsearch_from TAG_REGEX 0 line) as [[[b e] g]|] eqn:E.
  - intros H. split.
    + apply rsearch_from_sound in E as (pre & s1 & s2 & -> & Hl & _).
      apply lang_TAG_REGEX in Hl as (body & space & Hs & Hb & Hsp).
      exists pre, body, space. now rewrite Hs.
    + repeat match type of H with
             | context [if ?c then _ else _] => destruct c
             end; injection H as <- _; auto.
  - intros H.
    repeat match type of H with
           | context [if ?c then _ else _] => destruct c
           end; discriminate.
Qed.

(** X28: a line that ends with a tag, of a category of capital letters and
    digits, one of the three severity words and a code of capital letters,
    digits and underscores, is given the severity of the word, whatever
    comes before the tag, and the text between the brackets as its tag. *)
Theorem X28_get_message_tag_tag_at_end (pre category word code : string) :
  category ≠ EmptyString → all_chars is_upper_alnum category = true →
  severity_word word →
  code ≠ EmptyString → all_chars is_upper_alnum_us code = true →
  get_message_tag (pre +:+ "[" +:+ category +:+ "_" +:+ word +:+ "_" +:+ code
                   +:+ "]")
  = (severity_of_word word, Some (category +:+ "_" +:+ word +:+ "_" +:+ code)).
Proof.
  intros Hcne Hcat Hword Hne Hcode.
  rewrite <- (get_message_tag_tag_at_end pre category word code) by assumption.
  unfold tag_text. now rewrite append_empty_r.
Qed.

(** ** Indented output *)

Lemma is_linebreak_CR (c : ascii) : is_linebreak c = false → char_eqb c CR = false.
Proof.
  intros H. destruct (char_eqb c CR) eqn:E; [| reflexivity].
  apply char_eqb_eq in E as ->. discriminate.
Qed.

Lemma splitlines_from_skip (u : string) :
  all_chars (fun c => negb (is_linebreak c)) u = true →
  ∀ cur s,
    splitlines_from true cur (u +:+ s) = splitlines_from true (cur +:+ u) s.
Proof.
  induction u as [|c u IH]; intros Hu cur s.
  - now rewrite append_nil_l, append_empty_r.
  - cbn [all_chars] in Hu. apply andb_prop in Hu as [Hc Hu].
    apply negb_true_iff in Hc. rewrite append_cons. cbn [splitlines_from].
    rewrite (is_linebreak_CR c Hc), Hc, (IH Hu), append_assoc. reflexivity.
Qed.

Section Indent.
Variable pre : string.
Hypothesis pre_nonempty : pre ≠ EmptyString.
Hypothesis pre_plain : all_chars (fun c => negb (is_linebreak c)) pre = true.

Let joined (lines : list string) : string :=
  concat_strings (map (fun line => pre +:+ line) lines).

Lemma joined_cons (line : string) (lines : list string) :
  joined (line :: lines) = pre +:+ line +:+ joined lines.
Proof. unfold joined, concat_strings. cbn. now rewrite append_assoc. Qed.

Lemma joined_head (lines : list string) :
  (lines = [] ∧ joined lines = EmptyString)
  ∨ ∃ c rest, joined lines = String c rest ∧ is_linebreak c = false.
Proof.
  destruct lines as [|line lines]; [now left | right].
  rewrite joined_cons. destruct pre as [|c p]; [done |].
  cbn [all_chars] in pre_plain. apply andb_prop in pre_plain as [Hc _].
  apply negb_true_iff in Hc. rewrite append_cons. eauto.
Qed.

Lemma splitlines_joined_line (cur ending rest : string) :
  all_chars (fun c => negb (is_linebreak c)) cur = true →
  splitlines_from true EmptyString (pre +:+ (cur +:+ ending) +:+ rest)
  = splitlines_from true (pre +:+ cur) (ending +:+ rest).
Proof.
  intros Hcur.
  rewrite (splitlines_from_skip pre pre_plain), append_nil_l, append_assoc.
  now rewrite (splitlines_from_skip cur Hcur).
Qed.

Lemma splitlines_indented (n : nat) :
  ∀ s cur, (String.length s <= n)%nat →
    all_chars (fun c => negb (is_linebreak c)) cur = true →
    splitlines_from true EmptyString (joined (splitlines_from true cur s))
    = map (fun line => pre +:+ line) (splitlines_from true cur s).
Proof.
  induction n as [|n IH]; intros s cur Hlen Hcur.
  - destruct s; [| simpl in Hlen; lia]. cbn [splitlines_from].
    destruct cur as [|c cur]; [reflexivity |].
    rewrite joined_cons. change (joined []) with EmptyString.
    rewrite <- (append_empty_r (String c cur)) at 1.
    rewrite splitlines_joined_line by exact Hcur.
    rewrite append_nil_l. cbn [splitlines_from map].
    destruct (pre +:+ String c cur) eqn:E; [| reflexivity].
    destruct pre; [done | rewrite append_cons in E; discriminate].
  - destruct s as [|c s].
    { cbn [splitlines_from].
      destruct cur as [|c cur]; [reflexivity |].
      rewrite joined_cons. change (joined []) with EmptyString.
      rewrite <- (append_empty_r (String c cur)) at 1.
      rewrite splitlines_joined_line by exact Hcur.
      rewrite append_nil_l. cbn [splitlines_from map].
      destruct (pre +:+ String c cur) eqn:E; [| reflexivity].
      destruct pre; [done | rewrite append_cons in E; discriminate]. }
    simpl in Hlen. cbn [splitlines_from].
    destruct (char_eqb c CR) eqn:Ec.
    + apply char_eqb_eq in Ec as ->. destruct s as [|c2 s].
      * rewrite joined_cons. change (joined []) with EmptyString.
        rewrite splitlines_joined_line by exact Hcur.
        rewrite append_cons, !append_nil_l. cbn [splitlines_from map].
        rewrite char_eqb_refl. now rewrite append_assoc.
      * destruct (char_eqb c2 LF) eqn:E2.
        -- apply char_eqb_eq in E2 as ->. rewrite joined_cons.
           rewrite splitlines_joined_line by exact Hcur.
           rewrite !append_cons, append_nil_l. cbn [splitlines_from].
           rewrite !char_eqb_refl. cbn [map].
           rewrite IH by first [simpl in *; lia | reflexivity].
           now rewrite append_assoc.
        -- assert (HL : splitlines_from true EmptyString
                         (joined (splitlines_from true EmptyString (String c2 s)))
                       = map (fun line => pre +:+ line)
                           (splitlines_from true EmptyString (String c2 s)))
             by (apply IH; [simpl in *; lia | reflexivity]).
           revert HL.
           generalize (splitlines_from true EmptyString (String c2 s)) as L.
           intros L HL. rewrite joined_cons.
           rewrite splitlines_joined_line by exact Hcur.
           rewrite append_cons, append_nil_l. cbn [splitlines_from map].
           rewrite char_eqb_refl, <- HL, append_assoc.
           destruct (joined_head L) as [[Hnil Hj] | (d & rest & Hj & Hd)];
             rewrite Hj.
           ++ reflexivity.
           ++ assert (Hd' : char_eqb d LF = false).
              { destruct (char_eqb d LF) eqn:E; [| reflexivity].
                apply char_eqb_eq in E as ->. discriminate. }
              now rewrite Hd'.
    + destruct (is_linebreak c) eqn:El.
      * rewrite joined_cons.
        rewrite splitlines_joined_line by exact Hcur.
        rewrite append_cons, append_nil_l. cbn [splitlines_from map].
        rewrite Ec, El. rewrite IH by first [simpl in *; lia | reflexivity].
        now rewrite append_assoc.
      * apply IH; [lia |]. rewrite all_chars_append, Hcur. cbn [all_chars].
        now rewrite El.
Qed.
End Indent.

(** X29: the formatted output of a task without output, or with an empty
    one, is empty, whatever the two paths; otherwise, with no path to
    replace, it is a line feed followed by the lines of the output, each
    with its end as it was and four spaces put before it: splitting it into
    lines again gives the lines of the output so indented. *)
Theorem X29_format_output_indents (self : Task) (in_path out_path : option string) :
  match output self with
  | None | Some EmptyString =>
      format_output self in_path out_path = EmptyString
  | Some out =>
      ∃ body,
        format_output self None None = String LF body
        ∧ splitlines true body
          = map (fun line => "    " +:+ line) (splitlines true out)
        ∧ length (splitlines true body) = length (splitlines true out)
  end.
Proof.
  unfold format_output. destruct (output self) as [[|c out]|]; try reflexivity.
  eexists. split; [reflexivity |].
  assert (H : splitlines true
                (concat_strings
                   (map (fun line => "    " +:+ line)
                      (splitlines true (String c out))))
              = map (fun line => "    " +:+ line)
                  (splitlines true (String c out))).
  { unfold splitlines.
    apply (splitlines_indented "    " ltac:(discriminate) eq_refl
             (String.length (String c out))); [lia | reflexivity]. }
  split; [exact H |]. now rewrite H, length_map.
Qed.

(** ** What the comparison of archives decides *)

Lemma settled_at_cons (k : nat) (a b : ZipInfo) (g t : list ZipInfo) :
  same_entry a b → CRC b = CRC a →
  settled_at (S k) (a :: g) (b :: t) ↔ settled_at k g t.
Proof.
  intros Hs Hc. unfold settled_at. split.
  - intros [Hbefore Hat]. split.
    + intros i x y Hi Hx Hy. apply (Hbefore (S i) x y); [lia | exact Hx | exact Hy].
    + destruct Hat as [Hk | Hat]; [left; simpl in Hk; lia | right; exact Hat].
  - intros [Hbefore Hat]. split.
    + intros [|i] x y Hi Hx Hy.
      * injection Hx as <-. injection Hy as <-. auto.
      * apply (Hbefore i x y); [lia | exact Hx | exact Hy].
    + destruct Hat as [-> | Hat]; [now left | right; exact Hat].
Qed.

Lemma compare_infos_from_settled (g : list ZipInfo) :
  ∀ t pg, length g = length t →
    compare_infos_from (pg ++ g) (length pg) t = Ret true
    ↔ ∃ k, settled_at k g t.
Proof.
  induction g as [|a g IH]; intros [|b t] pg Hl; try discriminate.
  - split; [intros _ | reflexivity]. exists 0%nat. split; [| now left].
    intros i x y Hi. lia.
  - cbn [compare_infos_from]. rewrite list_lookup_middle by reflexivity.
    assert (Hzero : ∀ k, settled_at k (a :: g) (b :: t) →
              same_entry a b
              ∧ (k = 0%nat → CRC b ≠ CRC a ∧ handle_crc_difference a b = Ret true)
              ∧ (k ≠ 0%nat → CRC b = CRC a)).
    { intros k [Hbefore Hat]. destruct k as [|k].
      - destruct Hat as [Hk | (x & y & [= <-] & [= <-] & Hs & Hc & Hh)];
          [discriminate |].
        split; [exact Hs |]. split; [auto | done].
      - destruct (Hbefore 0%nat a b ltac:(lia) eq_refl eq_refl) as [Hs Hc].
        split; [exact Hs |]. split; [lia | auto]. }
    destruct (String.eqb (filename b) (filename a)) eqn:En; cbn [negb].
    2:{ split; [discriminate |]. intros [k Hk].
        destruct (Hzero k Hk) as [[Hname _] _].
        apply String.eqb_neq in En. contradiction. }
    apply String.eqb_eq in En.
    destruct (file_size b =? file_size a) eqn:Es; cbn [negb].
    2:{ split; [discriminate |]. intros [k Hk].
        destruct (Hzero k Hk) as [[_ Hsize] _].
        apply Z.eqb_neq in Es. contradiction. }
    apply Z.eqb_eq in Es.
    destruct (CRC b =? CRC a) eqn:Ec; cbn [negb].
    + apply Z.eqb_eq in Ec.
      specialize (IH t (pg ++ [a])).
      rewrite length_app, <- app_assoc in IH. cbn [length app] in IH.
      rewrite Nat.add_1_r in IH. rewrite IH by (simpl in Hl; lia).
      split.
      * intros [k Hk]. exists (S k). apply settled_at_cons; [split | |]; auto.
      * intros [k Hk]. destruct (Hzero k Hk) as (_ & H0 & _).
        destruct k as [|k]; [destruct (H0 eq_refl); contradiction |].
        exists k. apply settled_at_cons in Hk; [exact Hk | split; auto | auto].
    + apply Z.eqb_neq in Ec. split.
      * intros Hh. exists 0%nat. split; [intros i x y Hi; lia |].
        right. exists a, b. repeat split; auto.
      * intros [k Hk]. destruct (Hzero k Hk) as (_ & H0 & Hpos).
        destruct k as [|k]; [now destruct (H0 eq_refl) |].
        destruct Ec. now apply Hpos.
Qed.

(** X30: [compare_usdz_content] finds the entry lists of two archives to
    match exactly when they have the same length and the comparison is
    settled at some position: up to there names, sizes and checksums agree,
    and there, if the lists have not ended, names and sizes agree and the
    two entries are images that compare equal within the threshold.  What
    follows that position is not looked at. *)
Theorem X30_compare_infolists_settled (golden_infos test_infos : list ZipInfo) :
  compare_infolists golden_infos test_infos = Ret true
  ↔ length golden_infos = length test_infos
    ∧ ∃ k, settled_at k golden_infos test_infos.
Proof.
  unfold compare_infolists.
  destruct (length golden_infos =? length test_infos)%nat eqn:E; cbn [negb].
  - apply Nat.eqb_eq in E.
    rewrite (compare_infos_from_settled golden_infos test_infos [] E). tauto.
  - apply Nat.eqb_neq in E. split; [discriminate | tauto].
Qed.

(** ** Further instances *)

Lemma X4_join_path_join_witness :
  join_path "/out" ["dst"; "model.usda"] = "/out/dst/model.usda".
Proof.
  rewrite X4_join_path_join; [reflexivity |].
  cbn [removelast]. repeat constructor; discriminate.
Defined.

Lemma X5_colorize_process_output_plain_witness :
  colorize_process_output "Converted 3 meshes." = "Converted 3 meshes.".
Proof.
  apply X5_colorize_process_output_plain. intros line Hin.
  assert (Hl : splitlines true "Converted 3 meshes." = ["Converted 3 meshes."])
    by (vm_compute; reflexivity).
  rewrite Hl in Hin. apply list_elem_of_singleton in Hin as ->.
  assert (Ht : get_message_tag "Converted 3 meshes." = (SEVERITY_UNKNOWN, None))
    by (vm_compute; reflexivity).
  rewrite Ht. split; discriminate.
Defined.

Lemma X7_add_from_output_merge_witness :
  add_from_output (from_output "[A_WARN_B]") "Error: x"
  = add_from_tracker (from_output "[A_WARN_B]") (from_output "Error: x").
Proof.
  apply X7_add_from_output_merge; vm_compute; reflexivity.
Defined.

Lemma X9_get_summary_suffix_empty_witness :
  get_summary_suffix TagTracker_init true = EmptyString.
Proof.
  apply (proj1 (X9_get_summary_suffix_empty TagTracker_init true eq_refl)).
  split; reflexivity.
Defined.

Lemma X10_run_tasks_concurrency_witness :
  ∃ st o,
    run_tasks 3 sample_world sample_config sample_tasks sample_store
    = Some (st, o)
    ∧ length (popens (trace st)) = length (printed (trace st)).
Proof.
  destruct (X10_run_tasks_concurrency sample_world sample_config sample_tasks
              sample_store 2%nat 3%nat sample_tasks_NoDup
              ltac:(simpl; lia) sample_world_live ltac:(lia))
    as (st & o & Hrun & _ & Hlen).
  exists st, o. auto.
Defined.

Lemma X11_run_tasks_spawn_order_witness :
  ∃ st o,
    run_tasks 3 sample_world sample_config sample_tasks sample_store
    = Some (st, o)
    ∧ popens (trace st) !! 1%nat
      = Some (1%nat, ["usd_from_gltf"; "/in/in.gltf"; "/out/out dir/model.usda";
                      "-v"; "--nousage"]).
Proof.
  destruct (X11_run_tasks_spawn_order sample_world sample_config sample_tasks
              sample_store 2%nat 3%nat sample_tasks_NoDup
              ltac:(simpl; lia) sample_world_live ltac:(lia))
    as (st & o & Hrun & Hpop).
  exists st, o. split; [exact Hrun |]. rewrite Hpop. vm_compute. reflexivity.
Defined.

Lemma X12_run_tasks_keeps_order_witness :
  ∃ st r,
    run_tasks 3 sample_world sample_config sample_tasks sample_store
    = Some (st, Ret r)
    ∧ complete_tasks r = [0%nat] ∧ failed_tasks r = [1%nat; 2%nat].
Proof.
  destruct (X12_run_tasks_keeps_order sample_world sample_config sample_tasks
              sample_store 2%nat 3%nat sample_tasks_NoDup
              ltac:(intros; reflexivity) ltac:(intros; simpl; lia)
              ltac:(simpl; lia) sample_world_live ltac:(lia))
    as (st & r & Hrun & Hc & Hf).
  exists st, r. split; [exact Hrun |]. rewrite Hc, Hf. split; reflexivity.
Defined.

Lemma X13_wait_for_available_process_exited_witness :
  ∃ st',
    wait_for_available_process 2 sample_world sample_busy_sched
    = Some (0%nat, st')
    ∧ processes sample_busy_sched !! 0%nat
      = Some (Some (0%nat, 0%nat, ["usd_from_gltf"]))
    ∧ processes st' = [None; Some (1%nat, 1%nat, ["usd_from_gltf"])]
    ∧ printed (trace st') = [0%nat]
    ∧ (∃ n, (0 <= n < polls st')%nat ∧ poll sample_world n 0%nat = true)
    ∧ store st' 0%nat
      = update_task (communicate sample_world 0%nat) (sample_store 0%nat)
          ["usd_from_gltf"].
Proof.
  destruct (wait_for_available_process 2 sample_world sample_busy_sched)
    as [[i st']|] eqn:Hrun; [| discriminate].
  assert (Hi : i = 0%nat) by (vm_compute in Hrun; congruence). subst i.
  exists st'. split; [reflexivity |].
  destruct (X13_wait_for_available_process_exited sample_world 2
              sample_busy_sched 0 st' Hrun) as (sl & Hl & Hp & Hm).
  injection Hl as <-. destruct Hm as (Hprinted & Hpoll & Hstore).
  repeat split; assumption.
Defined.

Lemma X19_parse_tasks_rows_witness :
  ∃ tasks,
    parse_tasks sample_shlex_split sample_csv 0 = Parsed tasks
    ∧ length tasks = 2%nat.
Proof.
  destruct (X19_parse_tasks_rows sample_shlex_split sample_csv 0
              ltac:(intros arg; eexists; reflexivity)) as [H _].
  assert (Hb : existsb (fun nr => bad_columns nr.2) (fp_rows sample_csv) = false)
    by (vm_compute; reflexivity).
  rewrite Hb in H. destruct H as (tasks & Hp & _ & Hl).
  exists tasks. split; [exact Hp |]. rewrite Hl. vm_compute. reflexivity.
Defined.

Lemma sample_get_csv_tasks :
  ∃ r, get_csv_tasks sample_shlex_split [sample_csv] = Parsed ([], Some r)
       ∧ length (cl_tasks r) = 2%nat.
Proof. eexists. split; vm_compute; reflexivity. Qed.

Lemma X20_get_csv_tasks_lists_witness :
  ∃ r, get_csv_tasks sample_shlex_split [sample_csv] = Parsed ([], Some r)
       ∧ cl_names r !! 0%nat = Some (Some "all").
Proof.
  destruct sample_get_csv_tasks as (r & Hr & _). exists r. split; [exact Hr |].
  destruct (X20_get_csv_tasks_lists sample_shlex_split [sample_csv] [] r Hr)
    as (_ & _ & _ & _ & _ & H).
  destruct (H 0%nat sample_csv eq_refl) as (tasks & _ & _ & Hn).
  rewrite Hn. vm_compute. reflexivity.
Defined.

Lemma X21_run_tasks_of_csv_witness :
  ∃ r st res,
    get_csv_tasks sample_shlex_split [sample_csv] = Parsed ([], Some r)
    ∧ run_tasks 3 sample_world sample_config (seq 0 (length (cl_tasks r)))
        (store_of (cl_tasks r)) = Some (st, Ret res).
Proof.
  destruct sample_get_csv_tasks as (r & Hr & _).
  destruct (X21_run_tasks_of_csv sample_shlex_split [sample_csv] [] r
              sample_world sample_config 2%nat 3%nat Hr eq_refl
              ltac:(simpl; lia) sample_world_live ltac:(lia))
    as (st & res & Hrun & _).
  exists r, st, res. auto.
Defined.

Lemma sample_images_ok :
  same_shape sample_image_golden sample_image_close
  ∧ image_ok sample_image_golden ∧ image_ok sample_image_close.
Proof.
  unfold same_shape, image_ok, sample_image_golden, sample_image_close.
  repeat split; repeat constructor; try discriminate; lia.
Qed.

Lemma X22_compare_images_per_pixel_witness :
  pixels_within 3 sample_image_golden sample_image_close.
Proof.
  destruct sample_images_ok as (Hs & Hg & Ht).
  destruct (X22_compare_images_per_pixel sample_image_golden sample_image_close 3
              ltac:(discriminate) Hs Hg Ht) as (_ & H & _).
  apply H. vm_compute. reflexivity.
Defined.

Lemma X23_compare_usdz_content_symmetric_witness :
  compare_usdz_content sample_golden_usdz sample_close_usdz
  = compare_usdz_content sample_close_usdz sample_golden_usdz.
Proof.
  exact (proj1 (X23_compare_usdz_content_symmetric sample_golden_usdz
                  sample_close_usdz _ _ eq_refl eq_refl)).
Defined.

Lemma X24_get_diffs_same_tree_witness :
  compare_directories sample_gold_tree sample_gold_tree = Ret true.
Proof.
  exact (proj2 (X24_get_diffs_same_tree sample_gold_tree "."
                  (tree_wf_NoDup sample_gold_tree eq_refl) eq_refl eq_refl)).
Defined.

Lemma sample_get_diffs :
  get_diffs sample_gold_tree sample_test_tree "."
  = Ret (mkDiffs ["./b.txt"] ["./a.usda"] ["sub/c.txt"] ["./new.txt"]).
Proof. vm_compute. reflexivity. Qed.

Lemma X25_get_diffs_golden_files_witness :
  ∃ r, get_diffs sample_gold_tree sample_test_tree "." = Ret r
       ∧ "./b.txt" ∈ all_matches r.
Proof.
  eexists. split; [exact sample_get_diffs |].
  pose proof (X25_get_diffs_golden_files sample_gold_tree sample_test_tree "." _
                (mkDirEntry "." ["sub"]
                   [("a.usda", sample_file 1 "abc"); ("b.txt", sample_file 1 "abc")])
                "b.txt" sample_get_diffs) as H.
  cbv zeta in H. cbn [d_path d_files] in H.
  assert (Hc : cmp_at sample_gold_tree sample_test_tree "." "b.txt" false = Ret true)
    by (vm_compute; reflexivity).
  rewrite Hc in H.
  apply H; [left | reflexivity | right; left].
Defined.

Lemma X26_get_diffs_missing_extra_witness :
  ∃ r, get_diffs sample_gold_tree sample_test_tree "." = Ret r
       ∧ "sub/c.txt" ∈ all_missings r ∧ "./new.txt" ∈ all_extras r.
Proof.
  eexists. split; [exact sample_get_diffs |].
  destruct (X26_get_diffs_missing_extra sample_gold_tree sample_test_tree "." _
              "sub/c.txt" (tree_wf_NoDup sample_gold_tree eq_refl)
              (tree_wf_NoDup sample_test_tree eq_refl)
              eq_refl eq_refl eq_refl eq_refl sample_get_diffs) as [Hm _].
  destruct (X26_get_diffs_missing_extra sample_gold_tree sample_test_tree "." _
              "./new.txt" (tree_wf_NoDup sample_gold_tree eq_refl)
              (tree_wf_NoDup sample_test_tree eq_refl)
              eq_refl eq_refl eq_refl eq_refl sample_get_diffs) as [_ He].
  split.
  - apply Hm. exists (mkDirEntry "sub" [] [("c.txt", sample_file 1 "abc")]), "c.txt".
    split; [right; left |]. split; [left |]. split; reflexivity.
  - apply He.
    exists (mkDirEntry "." ["sub"]
              [("a.usda", sample_file 2 "abd"); ("b.txt", sample_file 5 "abc");
               ("new.txt", sample_file 2 "abc")]), "new.txt".
    split; [left |]. split; [right; right; left |]. split; reflexivity.
Defined.

Lemma X27_get_message_tag_only_at_end_witness :
  ∃ pre body space,
    "load [FOO_ERROR_BAR123] " = pre +:+ "[" +:+ body +:+ "]" +:+ space
    ∧ all_chars is_upper_alnum_us body = true
    ∧ all_chars is_space space = true.
Proof.
  exact (proj1 (X27_get_message_tag_only_at_end "load [FOO_ERROR_BAR123] "
                  SEVERITY_ERROR "FOO_ERROR_BAR123]" eq_refl)).
Defined.

Lemma X28_get_message_tag_tag_at_end_witness :
  get_message_tag "no error: here [MESH_WARN_NO_UV]"
  = (SEVERITY_WARN, Some "MESH_WARN_NO_UV").
Proof.
  apply (X28_get_message_tag_tag_at_end "no error: here " "MESH" "WARN" "NO_UV");
    try discriminate; try reflexivity.
  unfold severity_word. auto.
Defined.
